(** * Streaming byte patches (package metadata) and Exif copy (package exif)

    A shallow embedding of [src/exif/exif.go]: the [FileOps] patch reader
    ([opreader.Read], [FileOps.Reader], [FileOps.Copy], [FileOps.xCopy],
    [zerofill]), the chunk-reordering [exif.Copy] with its package-level
    header templates and [errw], [cmpChunkHeader], and the Exif lookup
    [exifFromReader] with [Decode].

    Conventions.
    - A Go [[]byte] is a [list byte]; a slice [p[a:b]] of a caller buffer is
      kept as the whole buffer together with the window position, so that
      writes through the slice are visible in the caller's buffer.
    - [int64] values are [Z] with the two's-complement wrap-around [wrap64]
      written at every arithmetic operation of the source; [int] is taken to
      be 64 bits wide.  Lengths and slice indices are [nat].
    - [error] values are an inductive type, [nil] is [None].
    - Loops without a structural bound take fuel; a result [None] means the
      fuel ran out (the Go loop is still running). *)

From Stdlib Require Import ZArith Lia.
From Stdlib.Strings Require Import Byte.
From stdpp Require Import base tactics option list.

#[local] Open Scope nat_scope.

Abbreviation byte := Byte.byte.

(** Option bind, for the fuel-bounded loops. *)
Notation "'let?' p := m 'in' k" :=
  (match m with Some p => k | None => None end)
  (at level 10, p pattern, m at level 100, k at level 200, only parsing).

(** ** int64 arithmetic *)

Definition max_int64 : Z := 9223372036854775807.

Definition wrap64 (z : Z) : Z :=
  ((z + 9223372036854775808) mod 18446744073709551616 - 9223372036854775808)%Z.

(** ** Package io (Go standard library, as far as the sources use it) *)

Module io.

Inductive error : Set :=
| EOF
| ErrUnexpectedEOF
| ErrShortWrite
| errInvalidWrite
| ErrOther (code : nat).

Definition error_eqb (a b : error) : bool :=
  match a, b with
  | EOF, EOF | ErrUnexpectedEOF, ErrUnexpectedEOF
  | ErrShortWrite, ErrShortWrite | errInvalidWrite, errInvalidWrite => true
  | ErrOther x, ErrOther y => Nat.eqb x y
  | _, _ => false
  end.

(** [io.Reader]: [Read(p)] receives the contents of [p] and returns the new
    contents of [p], the count [n] and the error.  The first argument is
    fuel handed down to readers that are themselves loops. *)
Class Reader (R : Type) :=
  Read : nat -> R -> list byte -> option (R * list byte * nat * option error).

(** [io.Writer]: [Write(p)] returns the count and the error. *)
Class Writer (W : Type) :=
  Write : W -> list byte -> W * Z * option error.

(** The builtin [copy(dst, src)]: new contents of [dst] and the count. *)
Definition copy (dst src : list byte) : list byte * nat :=
  let m := Nat.min (length dst) (length src) in
  (take m src ++ drop m dst, m).

(** [bytes.Reader] over the bytes not yet read: [Read] gives [0, EOF] once
    nothing is left, and otherwise copies as much as fits. *)
Record bytesReader := NewReader { unread : list byte }.

Definition bytesReader_Read (r : bytesReader) (b : list byte)
  : bytesReader * list byte * nat * option error :=
  match unread r with
  | [] => (r, b, 0, Some EOF)
  | _ => let '(b', n) := copy b (unread r) in
         (NewReader (drop n (unread r)), b', n, None)
  end.

#[global] Instance bytesReader_Reader : Reader bytesReader :=
  fun _ r b => Some (bytesReader_Read r b).

(** An in-memory sink that accepts every write in full ([bytes.Buffer]). *)
Record bytesBuffer := NewBuffer { contents : list byte }.

#[global] Instance bytesBuffer_Writer : Writer bytesBuffer :=
  fun w p => (NewBuffer (contents w ++ p), Z.of_nat (length p), None).

(** [ioutil.Discard]. *)
Inductive discard := Discard.

#[global] Instance Discard_Writer : Writer discard :=
  fun w p => (w, Z.of_nat (length p), None).

Section copy.
Context {W R : Type} `{!Writer W} `{!Reader R}.

(** The loop of [io.copyBuffer] (the generic path, without the
    [WriterTo]/[ReaderFrom] shortcuts), on a buffer [buf]. *)
Fixpoint copyBuffer (fuel gas : nat) (dst : W) (src : R) (buf : list byte)
    (written : Z) : option (W * R * Z * option error) :=
  match gas with
  | O => None
  | S gas' =>
    let? (src, buf, nr, er) := Read fuel src buf in
    let '(dst, written, err, stop) :=
      if 0 <? nr then
        let '(dst, nw, ew) := Write dst (take nr buf) in
        let '(nw, ew) :=
          if ((nw <? 0) || (Z.of_nat nr <? nw))%Z
          then (0%Z, match ew with None => Some errInvalidWrite | _ => ew end)
          else (nw, ew) in
        let written := wrap64 (written + nw) in
        match ew with
        | Some _ => (dst, written, ew, true)
        | None =>
          if negb (Z.of_nat nr =? nw)%Z
          then (dst, written, Some ErrShortWrite, true)
          else (dst, written, None, false)
        end
      else (dst, written, None, false) in
    if stop then Some (dst, src, written, err)
    else
      match er with
      | Some e => Some (dst, src, written, if error_eqb e EOF then None else Some e)
      | None => copyBuffer fuel gas' dst src buf written
      end
  end.

(** [io.Copy]: [copyBuffer] on a fresh buffer of 32 KiB. *)
Definition Copy (fuel : nat) (dst : W) (src : R) : option (W * R * Z * option error) :=
  copyBuffer fuel fuel dst src (replicate (Z.to_nat 32768) x00) 0.
End copy.

(** [iotest.OneByteReader]: reads from [R] one byte at a time. *)
Record oneByteReader (R : Type) := OneByteReader { ob_r : R }.
Arguments OneByteReader {R} _.
Arguments ob_r {R} _.

#[global] Instance oneByteReader_Reader {R} `{!Reader R} : Reader (oneByteReader R) :=
  fun fuel r p =>
    match p with
    | [] => Some (r, p, 0, None)
    | _ =>
      let? (src, q, n, err) := Read fuel (ob_r r) (take 1 p) in
      Some (OneByteReader src, q ++ drop 1 p, n, err)
    end.

(** A reader over bytes that returns [EOF] together with the last of them,
    as [iotest.DataErrReader] makes a reader of a short stream do. *)
Record dataErrReader := DataErrReader { de_unread : list byte }.

#[global] Instance dataErrReader_Reader : Reader dataErrReader :=
  fun _ r b =>
    let '(b', n) := copy b (de_unread r) in
    Some (DataErrReader (drop n (de_unread r)), b', n,
          if length (de_unread r) <=? length b then Some EOF else None).

(** [io.LimitedReader]: reads from [R] but stops with [EOF] after [N] bytes. *)
Record LimitedReader (R : Type) := LimitReader { lr_R : R; lr_N : Z }.
Arguments LimitReader {R} _ _.
Arguments lr_R {R} _.
Arguments lr_N {R} _.

#[global] Instance LimitedReader_Reader {R} `{!Reader R} : Reader (LimitedReader R) :=
  fun fuel l p =>
    if (lr_N l <=? 0)%Z then Some (l, p, 0, Some EOF)
    else
      let k := if (lr_N l <? Z.of_nat (length p))%Z then Z.to_nat (lr_N l) else length p in
      let? (src, q, n, err) := Read fuel (lr_R l) (take k p) in
      Some (LimitReader src (wrap64 (lr_N l - Z.of_nat n)), q ++ drop k p, n, err).

(** [io.CopyN]: [Copy] from a [LimitReader], whose buffer [copyBuffer] sizes
    to the limit when that is below 32 KiB; a short copy without an error is
    reported as [EOF].  The source reader is handed back as it was left. *)
Definition CopyN {W R} `{!Writer W} `{!Reader R} (fuel : nat) (dst : W) (src : R) (n : Z)
    : option (W * R * Z * option error) :=
  let size := if (n <? 32768)%Z then (if (n <? 1)%Z then 1%Z else n) else 32768%Z in
  let? (dst, l, written, err) :=
    copyBuffer fuel fuel dst (LimitReader src n) (replicate (Z.to_nat size) x00) 0 in
  if (written =? n)%Z then Some (dst, lr_R l, n, None)
  else if (written <? n)%Z && bool_decide (err = None) then Some (dst, lr_R l, written, Some EOF)
  else Some (dst, lr_R l, written, err).

End io.

(** ** Package metadata: FileOps *)

Module metadata.

(** [FileOp]: replace [Size] source bytes at [Offset] by [Data]. *)
Record FileOp := { Offset : Z; Size : Z; Data : list byte }.

Abbreviation FileOps := (list FileOp).

(** Writing [q] through the window that starts at index [n] of [buf]. *)
Definition blit (buf : list byte) (n : nat) (q : list byte) : list byte :=
  take n buf ++ q ++ drop (n + length q) buf.

Section opreader.
Context {R : Type} `{!io.Reader R}.

Record opreader := {
  r : R;
  ops : FileOps;
  ro : Z;
  i : nat;   (* current op index *)
  do : nat;  (* index into current op data *)
  tmp : list byte
}.

(** [FileOps.Reader]. *)
Definition Reader (ops : FileOps) (r : R) : opreader :=
  {| r := r; ops := ops; ro := 0; i := 0; do := 0; tmp := replicate 4096 x00 |}.

(** The inner loop of [Read], [for r.ro < end && err == nil], which reads
    the bytes to skip into the scratch slice [tmp].  Inside the loop
    [end - r.ro] is positive unless the subtraction overflows; only then is
    [tmp[:m]] out of range in Go, where the model reads into the empty
    slice. *)
Fixpoint discard_loop (fuel gas : nat) (src : R) (ro end_ : Z) (tmp : list byte)
    (err : option io.error) : option (R * Z * list byte * option io.error) :=
  if (ro <? end_)%Z && bool_decide (err = None) then
    match gas with
    | O => None
    | S gas' =>
      let m := wrap64 (end_ - ro) in
      let m := if (Z.of_nat (length tmp) <? m)%Z then Z.of_nat (length tmp) else m in
      let? (src, q, m', err) := io.Read fuel src (take (Z.to_nat m) tmp) in
      discard_loop fuel gas' src (wrap64 (ro + Z.of_nat m')) end_
        (q ++ drop (Z.to_nat m) tmp) err
    end
  else Some (src, ro, tmp, err).

(** The loop of [Read], [for r.i < len(r.ops)], followed by the read past
    the last op.  The caller's slice [p] is [drop n buf] throughout: the
    source advances [p] and [n] together. *)
Fixpoint read_loop (fuel gas : nat) (rd : opreader) (buf : list byte) (n : nat)
    : option (opreader * list byte * nat * option io.error) :=
  match ops rd !! i rd with
  | None =>
    (* past last op *)
    let? (src, p, m, err) := io.Read fuel (r rd) (drop n buf) in
    Some ({| r := src; ops := ops rd; ro := ro rd; i := i rd; do := do rd; tmp := tmp rd |},
          take n buf ++ p, n + m, err)
  | Some o =>
    match gas with
    | O => None
    | S gas' =>
      (* read bytes from source before offset *)
      let ncopy := wrap64 (Offset o - ro rd) in
      let? (src, ro1, buf, n, err) :=
        if (0 <? ncopy)%Z then
          let q := if (ncopy <? Z.of_nat (length buf - n))%Z
                   then Z.to_nat ncopy else length buf - n in
          let? (src, q', m, err) := io.Read fuel (r rd) (take q (drop n buf)) in
          Some (src, wrap64 (ro rd + Z.of_nat m), blit buf n q', n + m, err)
        else Some (r rd, ro rd, buf, n, None) in
      match err with
      | Some _ =>
        Some ({| r := src; ops := ops rd; ro := ro1; i := i rd; do := do rd; tmp := tmp rd |},
              buf, n, err)
      | None =>
        if (ro1 <? Offset o)%Z then
          (* offset not yet reached *)
          Some ({| r := src; ops := ops rd; ro := ro1; i := i rd; do := do rd; tmp := tmp rd |},
                buf, n, None)
        else
          (* yield op data *)
          let '(p, m) := io.copy (drop n buf) (drop (do rd) (Data o)) in
          let buf := take n buf ++ p in
          let n := n + m in
          let do1 := do rd + m in
          if do1 <? length (Data o) then
            Some ({| r := src; ops := ops rd; ro := ro1; i := i rd; do := do1; tmp := tmp rd |},
                  buf, n, None)
          else
            (* discard skipped bytes from source *)
            let own := negb (length (tmp rd) <? length buf - n) in
            let scratch := if own then tmp rd else drop n buf in
            let end_ := wrap64 (Offset o + Size o) in
            let? (src, ro2, scratch, err) :=
              discard_loop fuel fuel src ro1 end_ scratch None in
            let tmp' := if own then scratch else tmp rd in
            let buf := if own then buf else take n buf ++ scratch in
            let rd' :=
              if (ro2 =? end_)%Z
              then {| r := src; ops := ops rd; ro := ro2; i := S (i rd); do := 0; tmp := tmp' |}
              else {| r := src; ops := ops rd; ro := ro2; i := i rd; do := do1; tmp := tmp' |} in
            match err with
            | Some _ => Some (rd', buf, n, err)
            | None => read_loop fuel gas' rd' buf n
            end
      end
    end
  end.

(** [opreader.Read], the method of the pointer receiver. *)
Definition opreader_Read (fuel : nat) (rd : opreader) (p : list byte)
    : option (opreader * list byte * nat * option io.error) :=
  read_loop fuel fuel rd p 0.

End opreader.

Arguments opreader R : clear implicits.

#[global] Instance opreader_Reader {R} `{!io.Reader R} : io.Reader (opreader R) :=
  opreader_Read.

(** [FileOps.Copy]: [io.Copy(w, ops.Reader(r))]. *)
Definition Copy {W R} `{!io.Writer W} `{!io.Reader R} (fuel : nat) (ops : FileOps)
    (w : W) (r : R) : option (W * opreader R * Z * option io.error) :=
  io.Copy fuel w (Reader ops r).

(** [FileOps.xCopy], the loop over the ops with the running counters
    [read] and [written], then the copy of the remaining bytes. *)
Fixpoint xCopy_loop {W R} `{!io.Writer W} `{!io.Reader R} (fuel : nat) (ops : FileOps)
    (w : W) (r : R) (read written : Z) : option (W * R * Z * option io.error) :=
  match ops with
  | [] =>
    (* copy remaining bytes, if any *)
    let? (w, r, n, err) := io.Copy fuel w r in
    Some (w, r, wrap64 (written + n), err)
  | o :: ops' =>
    let ncopy := wrap64 (Offset o - read) in
    (* copy bytes before o *)
    let? (w, r, read, written, stop) :=
      if (0 <? ncopy)%Z then
        let? (w, r, n, err) := io.CopyN fuel w r ncopy in
        Some (w, r, wrap64 (read + n), wrap64 (written + n),
              match err with
              | Some e => Some (if io.error_eqb e io.EOF then io.ErrUnexpectedEOF else e)
              | None => None
              end)
      else Some (w, r, read, written, None) in
    match stop with
    | Some e => Some (w, r, written, Some e)
    | None =>
      (* write data *)
      let '(w, written, stop) :=
        if negb (length (Data o) =? 0) then
          let '(w, n, err) := io.Write w (Data o) in
          let written := wrap64 (written + n) in
          match err with
          | Some e => (w, written, Some e)
          | None =>
            if negb (n =? Z.of_nat (length (Data o)))%Z
            then (w, written, Some io.ErrShortWrite)
            else (w, written, None)
          end
        else (w, written, None) in
      match stop with
      | Some e => Some (w, r, written, Some e)
      | None =>
        (* discard overwritten/deleted bytes from r *)
        let? (r, read, stop) :=
          if negb (Size o =? 0)%Z then
            let? (_, r, n, err) := io.CopyN fuel io.Discard r (Size o) in
            Some (r, wrap64 (read + n), err)
          else Some (r, read, None) in
        match stop with
        | Some e => Some (w, r, written, Some e)
        | None => xCopy_loop fuel ops' w r read written
        end
      end
    end
  end.

Definition xCopy {W R} `{!io.Writer W} `{!io.Reader R} (fuel : nat) (ops : FileOps)
    (w : W) (r : R) : option (W * R * Z * option io.error) :=
  xCopy_loop fuel ops w r 0 0.

(** [zerofill]: the loop [for i := range p { p[i] = 0 }] and the count. *)
Definition zerofill (p : list byte) (maxfill : Z) : list byte * Z :=
  let n := maxfill in
  let n := if (Z.of_nat (length p) <? n)%Z then Z.of_nat (length p) else n in
  (foldl (fun p i => <[i := x00]> p) p (seq 0 (length p)), n).

End metadata.

(** ** Package exif: Copy *)

Module exif.

(** The package-level variables [jfifChunkHeader], [jfxxChunkHeader] and
    [exifChunkHeader]: one store shared by every call in the process. *)
Record vars := {
  jfifChunkHeader : list byte;
  jfxxChunkHeader : list byte;
  exifChunkHeader : list byte
}.

(** Their initial values: the literals ["\xff\xe0--JFIF\x00"],
    ["\xff\xe0--JFXX\x00"] and ["\xff\xe1--Exif\x00\x00"]. *)
Definition init : vars :=
  {| jfifChunkHeader := [xff; xe0; x2d; x2d; x4a; x46; x49; x46; x00];
     jfxxChunkHeader := [xff; xe0; x2d; x2d; x4a; x46; x58; x58; x00];
     exifChunkHeader := [xff; xe1; x2d; x2d; x45; x78; x69; x66; x00; x00] |}.

Definition cmpChunkHeader (p h : list byte) : bool :=
  if length p <? length h then false
  else
    forallb
      (fun i => (i =? 2) || (i =? 3) ||
                match p !! i, h !! i with
                | Some a, Some b => Byte.eqb a b
                | _, _ => false
                end)
      (seq 0 (length h)).

(** [xjpeg.Scanner] is outside the sources and is taken as a parameter of
    [Copy], as what [Copy] can observe of it.  In [Seg c rest next], [Next]
    returns true and [ReadChunk] returns [c] and moves on to [next]; in
    [Stop e rest], [Next] returns false and [Err] returns [e].  [rest] is
    what [Reader] yields in that state: the bytes unread so far. *)
Inductive Scanner :=
| Stop (e : option io.error) (rest : list byte)
| Seg (c : io.error + list byte) (rest : list byte) (next : Scanner).

Definition Scanner_Err (j : Scanner) : option io.error :=
  match j with Stop e _ => e | Seg _ _ _ => None end.

Definition Scanner_Reader (j : Scanner) : io.bytesReader :=
  io.NewReader (match j with Stop _ rest => rest | Seg _ rest _ => rest end).

(** The local variables of [Copy] that its scan loop works on; a [nil]
    slice is [None]. *)
Record locals := {
  chunks : list (list byte);
  jfifChunk : option (list byte);
  jfxxChunk : option (list byte);
  hasExif : bool;
  has : nat
}.

Definition locals0 : locals :=
  {| chunks := []; jfifChunk := None; jfxxChunk := None; hasExif := false; has := 0 |}.

(** The [switch] in the scan loop of [Copy], for one chunk. *)
Definition scan_chunk (g : vars) (l : locals) (chunk : list byte) : vars * locals :=
  if bool_decide (jfifChunk l = None) && cmpChunkHeader chunk (jfifChunkHeader g) then
    ({| jfifChunkHeader := chunk;
        jfxxChunkHeader := jfxxChunkHeader g;
        exifChunkHeader := exifChunkHeader g |},
     {| chunks := chunks l; jfifChunk := jfifChunk l; jfxxChunk := jfxxChunk l;
        hasExif := hasExif l; has := S (has l) |})
  else if bool_decide (jfxxChunk l = None) && cmpChunkHeader chunk (jfxxChunkHeader g) then
    ({| jfifChunkHeader := jfifChunkHeader g;
        jfxxChunkHeader := chunk;
        exifChunkHeader := exifChunkHeader g |},
     {| chunks := chunks l; jfifChunk := jfifChunk l; jfxxChunk := jfxxChunk l;
        hasExif := hasExif l; has := S (has l) |})
  else if negb (hasExif l) && cmpChunkHeader chunk (exifChunkHeader g) then
    (g,
     {| chunks := chunks l; jfifChunk := jfifChunk l; jfxxChunk := jfxxChunk l;
        hasExif := true; has := S (has l) |})
  else
    (* unrecognised or duplicate chunk *)
    (g,
     {| chunks := chunks l ++ [chunk]; jfifChunk := jfifChunk l; jfxxChunk := jfxxChunk l;
        hasExif := hasExif l; has := has l |}).

(** The scan loop [for has < 3 && j.Next()]; the error is the one
    [ReadChunk] made [Copy] return with. *)
Fixpoint scan (j : Scanner) (g : vars) (l : locals)
    : Scanner * vars * locals * option io.error :=
  if has l <? 3 then
    match j with
    | Stop _ _ => (j, g, l, None)
    | Seg (inl e) _ _ => (j, g, l, Some e)
    | Seg (inr chunk) _ next =>
      let '(g, l) := scan_chunk g l chunk in scan next g l
    end
  else (j, g, l, None).

(** What a call leaves behind: it returned [err], or it panicked (an index
    out of range). *)
Inductive outcome := Return (err : option io.error) | Panic.

Section Copy.
Context {W : Type} `{!io.Writer W}.

(** [xjpeg.WriteChunk], outside the sources: a parameter. *)
Variable WriteChunk : W -> byte -> list byte -> W * option io.error.

Record errw := { w : W; err : option io.error }.

Definition errw_write (ww : errw) (p : list byte) : errw :=
  let '(w', _, e) := io.Write (w ww) p in {| w := w'; err := e |}.

(** [Copy].  [j] is the result of [xjpeg.NewScanner(r)] and [x] the result
    of [x.EncodeBytes()], [None] when [x] is nil; an encoding [inr d] is a
    slice that is not nil.  The result has the package variables and the
    writer as the call leaves them; [chunks[0]] on an empty list is the
    panic. *)
Definition Copy (fuel : nat) (g : vars) (dst : W) (j : io.error + Scanner)
    (x : option (io.error + list byte)) : option (vars * W * outcome) :=
  match j with
  | inl e => Some (g, dst, Return (Some e))
  | inr j =>
    match x with
    | Some (inl e) => Some (g, dst, Return (Some e))
    | _ =>
      let exifdata := match x with Some (inr d) => Some d | _ => None end in
      let '(j, g, l, e) := scan j g locals0 in
      match e with
      | Some e => Some (g, dst, Return (Some e))
      | None =>
        match Scanner_Err j with
        | Some e => Some (g, dst, Return (Some e))
        | None =>
          (* write chunks in standard jpeg/jfif header order *)
          match chunks l with
          | [] => Some (g, dst, Panic)
          | chunk0 :: others =>
            let ww := {| w := dst; err := None |} in
            let ww := errw_write ww chunk0 in
            let ww := errw_write ww (default [] (jfifChunk l)) in
            let ww := errw_write ww (default [] (jfxxChunk l)) in
            let '(ww, e) :=
              match exifdata with
              | Some d =>
                let '(w', e) := WriteChunk (w ww) xe1 d in
                ({| w := w'; err := err ww |}, e)
              | None => (ww, None)
              end in
            match e with
            | Some e => Some (g, w ww, Return (Some e))
            | None =>
              (* write other chunks in jpeg (DCT, COM, APP1/XMP...) *)
              let ww := foldl errw_write ww others in
              match err ww with
              | Some e => Some (g, w ww, Return (Some e))
              | None =>
                (* copy bytes unread so far, such as actual image data *)
                let? (w', _, _, e) := io.Copy fuel (w ww) (Scanner_Reader j) in
                Some (g, w', Return e)
              end
            end
          end
        end
      end
    end
  end.

End Copy.

(** The errors of the package, [ErrExifNotFound], [ErrExifDecode] and
    [ErrExifEncode]; [Err e] is an error that comes from elsewhere and is
    handed on as it is. *)
Inductive error := ErrExifNotFound | ErrExifDecode | ErrExifEncode | Err (e : io.error).

(** [xjpeg.Scanner] as [exifFromReader] observes it: for every segment that
    [Next] stops at, what [StartChunk], [Bytes] and [ReadChunk] give there.
    The scanner is the list of its segments, in the order of the stream,
    with what [Err] gives once [Next] has returned false. *)
Record segment := {
  StartChunk : bool;
  Bytes : list byte;
  ReadChunk : io.error + list byte
}.

(** A call that returns [a], or panics. *)
Inductive returned (A : Type) := Returns (a : A) | Panics.
Arguments Returns {A} a.
Arguments Panics {A}.

(** The loop [for j.Next()] of [exifFromReader] and the lines after it, on
    the segments still to come; a nil slice is [None]. *)
Fixpoint exifFromReader_loop (g : vars) (segs : list segment) (e : option io.error)
    : returned (option (list byte) * option error) :=
  match segs with
  | [] =>
    Returns (None, match e with Some _ => Some ErrExifDecode | None => None end)
  | s :: segs' =>
    if negb (StartChunk s) || negb (cmpChunkHeader (Bytes s) (exifChunkHeader g))
    then exifFromReader_loop g segs' e
    else
      match ReadChunk s with
      | inl e' => Returns (None, Some (Err e'))
      | inr p =>
        (* trim exif header *)
        if length p <? length (exifChunkHeader g) then Panics
        else Returns (Some (drop (length (exifChunkHeader g)) p), None)
      end
  end.

(** [exifFromReader]; [j] is the result of [xjpeg.NewScanner(r)]. *)
Definition exifFromReader (g : vars) (j : io.error + list segment * option io.error)
    : returned (option (list byte) * option error) :=
  match j with
  | inl e => Returns (None, Some (Err e))
  | inr (segs, e) => exifFromReader_loop g segs e
  end.

Section Decode.
Context {Exif : Type}.

(** [DecodeBytes], outside the sources: a parameter. *)
Variable DecodeBytes : option (list byte) -> option Exif * option error.

(** [Decode]. *)
Definition Decode (g : vars) (j : io.error + list segment * option io.error)
    : returned (option Exif * option error) :=
  match exifFromReader g j with
  | Panics => Panics
  | Returns (_, Some e) => Returns (None, Some e)
  | Returns (raw, None) => Returns (DecodeBytes raw)
  end.

End Decode.

End exif.

(** ** The patch a FileOps describes *)

Import metadata.

(** The end of the source range of an op. *)
Definition op_end (o : FileOp) : Z := (Offset o + Size o)%Z.

(** [apply_ops pos ops s]: the patched stream, where [s] is the source from
    position [pos] on: the source up to the first op, its data, and the
    patch of what follows the bytes it replaces. *)
Fixpoint apply_ops (pos : Z) (ops : FileOps) (s : list byte) : list byte :=
  match ops with
  | [] => s
  | o :: ops' =>
    take (Z.to_nat (Offset o - pos)) s ++ Data o ++
    apply_ops (op_end o) ops' (drop (Z.to_nat (op_end o - pos)) s)
  end.

(** [fits pos ops L]: from position [pos] on, every op starts at or after
    the end of the one before it, replaces a non-negative number of bytes,
    ends within [int64] and within a source of length [L]. *)
Fixpoint fits (pos : Z) (ops : FileOps) (L : Z) : Prop :=
  match ops with
  | [] => (pos <= L)%Z
  | o :: ops' =>
    (pos <= Offset o)%Z /\ (0 <= Size o)%Z /\ (op_end o <= max_int64)%Z /\
    fits (op_end o) ops' L
  end.

(** Offsets strictly ascending: the offset of every op is below that of
    every later op. *)
Fixpoint ascending (ops : FileOps) : Prop :=
  match ops with
  | [] => True
  | x :: ops' => Forall (fun y => (Offset x < Offset y)%Z) ops' /\ ascending ops'
  end.

(** Ranges disjoint: every op ends at or before the offset of every later
    op. *)
Fixpoint disjoint (ops : FileOps) : Prop :=
  match ops with
  | [] => True
  | x :: ops' => Forall (fun y => (op_end x <= Offset y)%Z) ops' /\ disjoint ops'
  end.

(** A valid FileOps: offsets strictly ascending, ranges disjoint, and every
    op a non-negative range of [int64] positions. *)
Definition valid (ops : FileOps) : Prop :=
  ascending ops /\ disjoint ops /\
  Forall (fun o => (0 <= Offset o)%Z /\ (0 <= Size o)%Z /\ (op_end o <= max_int64)%Z) ops.

(** The source is long enough for the ops: every range ends within it. *)
Definition within (ops : FileOps) (input : list byte) : Prop :=
  Forall (fun o => (op_end o <= Z.of_nat (length input))%Z) ops.

(** The bytes of data of all ops together. *)
Definition data_len (ops : FileOps) : nat :=
  sum_list (map (fun o => length (Data o)) ops).

(** An op moved by [d] bytes. *)
Definition shift (d : Z) (o : FileOp) : FileOp :=
  {| Offset := Offset o + d; Size := Size o; Data := Data o |}.

(** What draining a reader over the source [src] gives: the loop of
    [io.copyBuffer] into an empty [bytesBuffer] with the caller's buffer
    [buf], that is, the bytes of all calls of [Read] until end of stream. *)
Definition drain {R} `{!io.Reader R} (fuel : nat) (buf : list byte) (ops : FileOps)
    (src : R) : option (list byte * Z * option io.error) :=
  let? (w, _, written, err) :=
    io.copyBuffer fuel fuel (io.NewBuffer []) (Reader ops src) buf 0 in
  Some (io.contents w, written, err).

(** What [FileOps.Copy] leaves in an empty [bytesBuffer], and what it
    returns; likewise for [xCopy]. *)
Definition copied (fuel : nat) (ops : FileOps) (input : list byte)
    : option (list byte * Z * option io.error) :=
  let? (w, _, written, err) :=
    metadata.Copy fuel ops (io.NewBuffer []) (io.NewReader input) in
  Some (io.contents w, written, err).

Definition xcopied (fuel : nat) (ops : FileOps) (input : list byte)
    : option (list byte * Z * option io.error) :=
  let? (w, _, written, err) :=
    metadata.xCopy fuel ops (io.NewBuffer []) (io.NewReader input) in
  Some (io.contents w, written, err).

(** The ops applied one at a time, in order, each on the result of the one
    before it, at its offset moved by the bytes gained or lost so far. *)
Fixpoint one_at_a_time (fuel : nat) (buf : list byte) (d : Z) (ops : FileOps)
    (input : list byte) : option (list byte) :=
  match ops with
  | [] => Some input
  | o :: ops' =>
    let? (out, _, err) := drain fuel buf [shift d o] (io.NewReader input) in
    match err with
    | Some _ => None
    | None =>
      one_at_a_time fuel buf (d + Z.of_nat (length (Data o)) - Size o) ops' out
    end
  end.

(** Fuel that suffices for a patch of [input]. *)
Definition enough (ops : FileOps) (input : list byte) : nat :=
  length ops + length input + length (apply_ops 0 ops input) + 1.

(** A source stream as the patch reader may rely on it: a reader over the
    bytes [remaining], whose [Read] gives the next bytes, at most as many as
    fit and at least one when there is room and a byte is left, and gives
    [EOF] and no bytes once nothing is left (on a call with room). *)
Class Source (R : Type) `{!io.Reader R} := {
  remaining : R -> list byte;
  Source_Read : forall fuel (src : R) (q : list byte),
    exists src' m err,
      io.Read fuel src q = Some (src', take m (remaining src) ++ drop m q, m, err) /\
      remaining src' = drop m (remaining src) /\
      m <= length q /\ m <= length (remaining src) /\
      (remaining src = [] -> err = None /\ q = [] \/ err = Some io.EOF) /\
      (remaining src <> [] -> err = None /\ (q <> [] -> 0 < m))
}.

(** A source that never gives fewer bytes than fit. *)
Class FullSource (R : Type) `{!io.Reader R} `{!Source R} :=
  Source_full : forall fuel (src src' : R) q q' m err,
    io.Read fuel src q = Some (src', q', m, err) ->
    m = Nat.min (length q) (length (remaining src)).

(** The state of a reader between two calls: what it has still to produce,
    and when it is consistent. *)
Definition pend (ro : Z) (do : nat) (ops : FileOps) (s : list byte) : list byte :=
  match ops with
  | [] => s
  | o :: ops' =>
    take (Z.to_nat (Offset o - ro)) s ++ drop do (Data o) ++
    apply_ops (op_end o) ops' (drop (Z.to_nat (op_end o - ro)) s)
  end.

Definition pending {R} `{!io.Reader R} `{!Source R} (rd : opreader R) : list byte :=
  pend (ro rd) (do rd) (drop (i rd) (ops rd)) (remaining (r rd)).

Definition state_ok (ro : Z) (do : nat) (ops : FileOps) (L : Z) : Prop :=
  match ops with
  | [] => True
  | o :: ops' =>
    (ro <= Offset o)%Z /\ do <= length (Data o) /\ ((ro < Offset o)%Z -> do = 0) /\
    (0 <= Size o)%Z /\ (op_end o <= max_int64)%Z /\ fits (op_end o) ops' L
  end.

Definition wf {R} `{!io.Reader R} `{!Source R} (rd : opreader R) : Prop :=
  (0 <= ro rd)%Z /\ 0 < length (tmp rd) /\
  state_ok (ro rd) (do rd) (drop (i rd) (ops rd))
    (ro rd + Z.of_nat (length (remaining (r rd)))).

(** ** The scan loop of exif.Copy *)

(** The chunks that a scanner yields, as long as [ReadChunk] succeeds. *)
Fixpoint Scanner_chunks (j : exif.Scanner) : list (list byte) :=
  match j with
  | exif.Seg (inr c) _ next => c :: Scanner_chunks next
  | _ => []
  end.

(** Some chunk is taken by the first case of the switch (the comparison
    with [jfifChunkHeader] succeeds) while the scan loop runs. *)
Fixpoint jfif_matched (j : exif.Scanner) (g : exif.vars) (l : exif.locals) : bool :=
  if exif.has l <? 3 then
    match j with
    | exif.Seg (inr c) _ next =>
      if bool_decide (exif.jfifChunk l = None) &&
         exif.cmpChunkHeader c (exif.jfifChunkHeader g)
      then true
      else let '(g, l) := exif.scan_chunk g l c in jfif_matched next g l
    | _ => false
    end
  else false.

(** Some chunk is taken by the second case of the switch (the comparison
    with [jfxxChunkHeader] succeeds, that with [jfifChunkHeader] fails). *)
Fixpoint jfxx_matched (j : exif.Scanner) (g : exif.vars) (l : exif.locals) : bool :=
  if exif.has l <? 3 then
    match j with
    | exif.Seg (inr c) _ next =>
      if negb (bool_decide (exif.jfifChunk l = None) &&
               exif.cmpChunkHeader c (exif.jfifChunkHeader g)) &&
         bool_decide (exif.jfxxChunk l = None) &&
         exif.cmpChunkHeader c (exif.jfxxChunkHeader g)
      then true
      else let '(g, l) := exif.scan_chunk g l c in jfxx_matched next g l
    | _ => false
    end
  else false.

(** What one call of [Read] on state [rd] with window [drop n buf] gives:
    the next bytes [out] of [pending rd], at least one if there is room and
    something is pending, and as many as fit if the source is full. *)
Definition read_post {R} `{!io.Reader R} `{!Source R} (rd : opreader R) (buf : list byte)
    (n : nat) (res : option (opreader R * list byte * nat * option io.error)) : Prop :=
  exists rd' buf' n' err out,
    res = Some (rd', buf', n', err) /\
    wf rd' /\ ops rd' = ops rd /\
    length (remaining (r rd')) <= length (remaining (r rd)) /\
    length buf' = length buf /\
    take n' buf' = take n buf ++ out /\
    pending rd = out ++ pending rd' /\
    n' = n + length out /\ n' <= length buf /\
    (err = None \/ err = Some io.EOF /\ pending rd' = []) /\
    (pending rd = [] -> n < length buf -> err = Some io.EOF) /\
    (n < length buf -> pending rd <> [] -> out <> []) /\
    (FullSource R -> length out = Nat.min (length buf - n) (length (pending rd))).

(** The source bytes that the ops replace, all together. *)
Fixpoint size_sum (ops : FileOps) : Z :=
  match ops with
  | [] => 0%Z
  | o :: ops' => (Size o + size_sum ops')%Z
  end.

(** How far the source byte at position [k] is moved by the ops that end at
    or before it: the bytes they give less the bytes they take. *)
Fixpoint moved (ops : FileOps) (k : Z) : Z :=
  match ops with
  | [] => 0%Z
  | o :: ops' =>
    ((if (op_end o <=? k)%Z then Z.of_nat (length (Data o)) - Size o else 0) +
     moved ops' k)%Z
  end.

(** The ops that undo [ops] on the patch of [s], the source from position
    [pos] on: each puts back the source bytes that its op replaced, at the
    offset of the op moved by [d], the bytes gained or lost before it. *)
Fixpoint invert (pos d : Z) (ops : FileOps) (s : list byte) : FileOps :=
  match ops with
  | [] => []
  | o :: ops' =>
    {| Offset := Offset o + d;
       Size := Z.of_nat (length (Data o));
       Data := take (Z.to_nat (Size o)) (drop (Z.to_nat (Offset o - pos)) s) |}
    :: invert (op_end o) (d + Z.of_nat (length (Data o)) - Size o) ops'
         (drop (Z.to_nat (op_end o - pos)) s)
  end.

(** A segment that [exifFromReader] takes for the Exif chunk. *)
Definition is_exif (g : exif.vars) (s : exif.segment) : bool :=
  exif.StartChunk s && exif.cmpChunkHeader (exif.Bytes s) (exif.exifChunkHeader g).

(** [buf'] is [buf] outside the window from [n] to [n']. *)
Definition untouched (buf buf' : list byte) (n n' : nat) : Prop :=
  n <= n' <= length buf /\ length buf' = length buf /\
  take n buf' = take n buf /\ drop n' buf' = drop n' buf.

(** Facts about a given list of ops, by computation. *)
Ltac ops_facts :=
  unfold valid, within, data_len, enough, op_end, max_int64; simpl;
  repeat first [apply Forall_nil | apply Forall_cons | split];
  unfold op_end; simpl; try lia.

(** ** Arithmetic and list facts *)

Arguments io.Read : simpl never.
Arguments io.Write : simpl never.

Lemma wrap64_id z : (- 9223372036854775808 <= z <= max_int64)%Z -> wrap64 z = z.
Proof.
  unfold wrap64, max_int64. intros Hz.
  rewrite Z.mod_small; lia.
Qed.

Lemma wrap64_add_l a b : wrap64 (wrap64 a + b) = wrap64 (a + b).
Proof.
  unfold wrap64.
  f_equal.
  replace (((a + 9223372036854775808) mod 18446744073709551616
            - 9223372036854775808 + b + 9223372036854775808))%Z
    with (((a + 9223372036854775808) mod 18446744073709551616 + b))%Z by lia.
  rewrite Zplus_mod_idemp_l. f_equal. lia.
Qed.

Lemma fits_le pos ops L : fits pos ops L -> (pos <= L)%Z.
Proof.
  revert pos. induction ops as [|o ops IH]; simpl; intros pos H; [done|].
  destruct H as (H1 & H2 & _ & H4). apply IH in H4. unfold op_end in *. lia.
Qed.

Lemma apply_ops_pend pos ops s : apply_ops pos ops s = pend pos 0 ops s.
Proof. by destruct ops. Qed.

Lemma drop_cons_inv {A} (l : list A) k x rest :
  drop k l = x :: rest -> l !! k = Some x /\ drop (S k) l = rest.
Proof.
  intros H. split.
  - rewrite <- (Nat.add_0_r k), <- lookup_drop, H. done.
  - replace (S k) with (k + 1) by lia. by rewrite <- drop_drop, H.
Qed.

Lemma drop_nil_lookup {A} (l : list A) k : drop k l = [] -> l !! k = None.
Proof.
  intros H. apply lookup_ge_None.
  apply (f_equal length) in H. rewrite length_drop in H. simpl in H. lia.
Qed.

Lemma pend_advance ro do o rest s q :
  (Z.of_nat q <= Offset o - ro)%Z -> (Offset o <= op_end o)%Z ->
  pend ro do (o :: rest) s =
  take q s ++ pend (ro + Z.of_nat q) do (o :: rest) (drop q s).
Proof.
  intros Hq Hend. simpl. rewrite (app_assoc (take q s)), take_take_drop, drop_drop.
  replace (q + Z.to_nat (Offset o - (ro + Z.of_nat q))) with (Z.to_nat (Offset o - ro)) by lia.
  replace (q + Z.to_nat (op_end o - (ro + Z.of_nat q))) with (Z.to_nat (op_end o - ro)) by lia.
  done.
Qed.

(** ** Sources *)

Lemma Read_bytes_nonempty fuel s q :
  s <> [] ->
  io.Read fuel (io.NewReader s) q =
  Some (io.NewReader (drop (length q `min` length s) s),
        take (length q `min` length s) s ++ drop (length q `min` length s) q,
        length q `min` length s, None).
Proof.
  intros Hs. unfold io.Read, io.bytesReader_Reader, io.bytesReader_Read. simpl.
  destruct s; [done|]. reflexivity.
Qed.

Lemma Read_bytes_empty fuel q :
  io.Read fuel (io.NewReader []) q = Some (io.NewReader [], q, 0, Some io.EOF).
Proof. reflexivity. Qed.

Lemma bytesReader_Source_Read fuel (src : io.bytesReader) (q : list byte) :
  exists src' m err,
    io.Read fuel src q = Some (src', take m (io.unread src) ++ drop m q, m, err) /\
    io.unread src' = drop m (io.unread src) /\
    m <= length q /\ m <= length (io.unread src) /\
    (io.unread src = [] -> err = None /\ q = [] \/ err = Some io.EOF) /\
    (io.unread src <> [] -> err = None /\ (q <> [] -> 0 < m)).
Proof.
  destruct src as [[|b s]].
  - exists (io.NewReader []), 0, (Some io.EOF). rewrite Read_bytes_empty. simpl.
    split; [done|]. split; [done|]. split; [lia|]. split; [lia|]. split; [by right|done].
  - eexists _, _, _. rewrite Read_bytes_nonempty by done. split; [reflexivity|].
    cbn [io.unread]. split; [done|]. split; [lia|]. split; [lia|]. split; [done|].
    intros _. split; [done|]. intros Hq. destruct q; [done|]. simpl. lia.
Qed.

#[global] Instance bytesReader_Source : Source io.bytesReader :=
  {| remaining := io.unread; Source_Read := bytesReader_Source_Read |}.

#[global] Instance bytesReader_FullSource : FullSource io.bytesReader.
Proof.
  intros fuel [s] src' q q' m err. destruct s as [|b s].
  - rewrite Read_bytes_empty. intros [= <- <- <- <-]. simpl. lia.
  - rewrite Read_bytes_nonempty by done. by intros [= <- <- <- <-].
Qed.

Lemma Read_oneByte {R} `{!io.Reader R} fuel (src : R) b q :
  io.Read fuel (io.OneByteReader src) (b :: q) =
  let? (src', q', n, err) := io.Read fuel src [b] in
  Some (io.OneByteReader src', q' ++ q, n, err).
Proof. reflexivity. Qed.

Lemma oneByteReader_Source_Read {R} `{!io.Reader R} `{!Source R}
    fuel (src : io.oneByteReader R) (q : list byte) :
  exists src' m err,
    io.Read fuel src q
    = Some (src', take m (remaining (io.ob_r src)) ++ drop m q, m, err) /\
    remaining (io.ob_r src') = drop m (remaining (io.ob_r src)) /\
    m <= length q /\ m <= length (remaining (io.ob_r src)) /\
    (remaining (io.ob_r src) = [] -> err = None /\ q = [] \/ err = Some io.EOF) /\
    (remaining (io.ob_r src) <> [] -> err = None /\ (q <> [] -> 0 < m)).
Proof.
  destruct src as [src]. cbn [io.ob_r]. destruct q as [|b q].
  - exists (io.OneByteReader src), 0, None. repeat split; try done.
    + simpl. lia.
    + by left.
  - destruct (Source_Read fuel src [b])
      as (src' & m & err & Hrd & Hrem & Hmq & Hmr & Hempty & Hnon).
    exists (io.OneByteReader src'), m, err.
    rewrite (Read_oneByte fuel src b q), Hrd. cbn [io.ob_r]. split.
    { do 3 f_equal. rewrite <- app_assoc. f_equal.
      destruct m as [|[|m]]; simpl in *; (done || lia). }
    split; [done|]. split; [simpl in *; lia|]. split; [done|]. split.
    + intros He. destruct (Hempty He) as [[_ ?]|?]; [done|by right].
    + intros Hne. destruct (Hnon Hne) as [-> Hm]. split; [done|]. intros _. by apply Hm.
Qed.

#[global] Instance oneByteReader_Source {R} `{!io.Reader R} `{!Source R} :
    Source (io.oneByteReader R) :=
  {| remaining := fun src => remaining (io.ob_r src);
     Source_Read := oneByteReader_Source_Read |}.

Lemma Write_bytesBuffer w p :
  io.Write (io.NewBuffer w) p = (io.NewBuffer (w ++ p), Z.of_nat (length p), None).
Proof. reflexivity. Qed.

Lemma wrap64_idemp z : wrap64 (wrap64 z) = wrap64 z.
Proof. pose proof (wrap64_add_l z 0) as H. by rewrite !Z.add_0_r in H. Qed.

Lemma fits_state_ok pos ops L : fits pos ops L -> state_ok pos 0 ops L.
Proof.
  destruct ops as [|o ops]; [done|]. simpl.
  intros (? & ? & ? & ?). repeat split; try done; lia.
Qed.

(** ** The patch reader over a source *)

Section patch_reader.
Context {R : Type} `{!io.Reader R} `{!Source R}.

(** The loop that skips the bytes of an op, over a source that has them. *)
Lemma discard_loop_source gas :
  forall fuel (src : R) ro end_ t,
  (0 <= ro <= end_)%Z -> (end_ <= max_int64)%Z ->
  (end_ - ro <= Z.of_nat (length (remaining src)))%Z -> 0 < length t ->
  Z.to_nat (end_ - ro) <= gas ->
  exists src' t',
    discard_loop fuel gas src ro end_ t None = Some (src', end_, t', None) /\
    remaining src' = drop (Z.to_nat (end_ - ro)) (remaining src) /\
    length t' = length t.
Proof.
  induction gas as [|gas IH]; intros fuel src ro end_ t Hro Hend Hs Ht Hgas.
  - assert (ro = end_) as -> by lia.
    exists src, t. cbn [discard_loop]. rewrite Z.ltb_irrefl. simpl. by rewrite Z.sub_diag.
  - cbn [discard_loop]. destruct (Z.ltb_spec ro end_) as [Hlt|Hge]; cbn [andb].
    2:{ assert (ro = end_) as -> by lia. exists src, t. by rewrite Z.sub_diag. }
    rewrite bool_decide_true by done.
    rewrite wrap64_id by (unfold max_int64 in *; lia).
    set (m := if (Z.of_nat (length t) <? end_ - ro)%Z then Z.of_nat (length t) else (end_ - ro)%Z).
    assert (0 < m <= end_ - ro /\ m <= Z.of_nat (length t))%Z as (Hm1 & Hm2).
    { unfold m. destruct (Z.ltb_spec (Z.of_nat (length t)) (end_ - ro)); lia. }
    destruct (Source_Read fuel src (take (Z.to_nat m) t))
      as (src' & m' & err & -> & Hrem & Hmq & Hmr & _ & Hnon).
    rewrite length_take in Hmq.
    destruct Hnon as [-> Hpos]. { intros E. rewrite E in Hs. simpl in Hs. lia. }
    assert (0 < m').
    { apply Hpos. intros E. apply (f_equal length) in E. rewrite length_take in E.
      simpl in E. lia. }
    rewrite wrap64_id by (unfold max_int64 in *; lia).
    destruct (IH fuel src' (ro + Z.of_nat m')%Z end_
                ((take m' (remaining src) ++ drop m' (take (Z.to_nat m) t))
                 ++ drop (Z.to_nat m) t))
      as (src'' & t' & Heq & Hrem' & Hlen).
    + lia.
    + done.
    + rewrite Hrem, length_drop. lia.
    + rewrite !length_app, length_take, !length_drop, length_take. lia.
    + lia.
    + exists src'', t'. rewrite Heq. split; [done|]. split.
      * rewrite Hrem', Hrem, drop_drop.
        by replace (m' + Z.to_nat (end_ - (ro + Z.of_nat m'))) with (Z.to_nat (end_ - ro)) by lia.
      * rewrite Hlen, !length_app, length_take, !length_drop, length_take. lia.
Qed.

(** A call that first gives [pre] and then goes on as a call on [rd1]. *)
Lemma read_post_prefix (rd rd1 : opreader R)
    buf buf1 n n1 pre res :
  read_post rd1 buf1 n1 res ->
  pending rd = pre ++ pending rd1 ->
  take n1 buf1 = take n buf ++ pre ->
  n1 = n + length pre -> n1 <= length buf ->
  length buf1 = length buf ->
  ops rd1 = ops rd ->
  length (remaining (r rd1)) <= length (remaining (r rd)) ->
  read_post rd buf n res.
Proof.
  intros (rd' & buf' & n' & err & out & -> & Hwf & Hops & Hun & Hlen & Htake & Hpend & Hn
          & Hn' & Herr & Hnil & Hprog & Hfull)
    Hp Ht Hn1 Hle Hb Ho Hu.
  exists rd', buf', n', err, (pre ++ out).
  split; [done|]. split; [done|]. split; [congruence|]. split; [lia|]. split; [congruence|].
  split; [by rewrite Htake, Ht, app_assoc|].
  split; [by rewrite Hp, Hpend, app_assoc|].
  split; [rewrite length_app; lia|]. split; [lia|].
  split; [done|].
  split.
  { intros Hpn Hnb. rewrite Hp in Hpn. apply app_eq_nil in Hpn as [-> Hpn].
    simpl in Hn1. apply Hnil; [done|lia]. }
  split.
  { intros Hnb Hpn. destruct pre as [|b pre]; [|done]. simpl in *.
    apply Hprog; [lia|]. by rewrite Hp in Hpn. }
  intros HF. rewrite Hp, !length_app, (Hfull HF), Hb. lia.
Qed.

(** ** One call of Read *)

Lemma read_loop_source gas :
  forall fuel (rd : opreader R) buf n,
  wf rd -> n <= length buf ->
  length (drop (i rd) (ops rd)) < gas ->
  length (remaining (r rd)) <= fuel ->
  read_post rd buf n (read_loop fuel gas rd buf n).
Proof.
  induction gas as [|gas IH]; intros fuel rd buf n Hwf Hn Hgas Hfuel; [lia|].
  (* the reader is at the offset of its op *)
  assert (HA : forall (rd : opreader R) buf n o rest,
    wf rd -> n <= length buf -> drop (i rd) (ops rd) = o :: rest ->
    length rest < gas -> length (remaining (r rd)) <= fuel -> ro rd = Offset o ->
    read_post rd buf n (read_loop fuel (S gas) rd buf n)).
  { clear rd buf n Hwf Hn Hgas Hfuel.
    intros [src ops0 ro0 i0 do0 tmp0] buf n o rest Hwf Hn Hdrop Hgas Hfuel Hro.
    unfold wf in Hwf. cbn [r ops ro i do tmp] in *.
    destruct Hwf as (Hro0 & Htmp & Hok).
    rewrite Hdrop in Hok. destruct Hok as (Hle & Hdo & Hdo0 & Hsz & Hend & Hfits).
    pose proof (fits_le _ _ _ Hfits) as Hend_le.
    apply drop_cons_inv in Hdrop as Hd. destruct Hd as [Hlook Hrest].
    subst ro0.
    cbn [read_loop r ops ro i do tmp]. rewrite Hlook.
    rewrite Z.sub_diag. change (wrap64 0) with 0%Z. rewrite !Z.ltb_irrefl.
    cbv [io.copy]. cbn beta iota zeta.
    rewrite !length_drop.
    set (m := (length buf - n) `min` (length (Data o) - do0)).
    assert (Hlen2 : length (take n buf ++ take m (drop do0 (Data o)) ++ drop m (drop n buf))
                    = length buf).
    { rewrite !length_app, !length_take, !length_drop. lia. }
    assert (Htk2 : take (n + m) (take n buf ++ take m (drop do0 (Data o)) ++ drop m (drop n buf))
                   = take n buf ++ take m (drop do0 (Data o))).
    { rewrite app_assoc. apply take_app_length'.
      rewrite !length_app, !length_take, !length_drop. lia. }
    assert (Hpd : forall d, length (pend (Offset o) d (o :: rest) (remaining src))
                            >= length (Data o) - d).
    { intros d. simpl. rewrite !length_app, length_drop. lia. }
    destruct (Nat.ltb_spec (do0 + m) (length (Data o))) as [Hlt|Hge].
    - (* the buffer is full before the data is out *)
      do 4 eexists. exists (take m (drop do0 (Data o))).
      split; [reflexivity|].
      assert (Hm : length (take m (drop do0 (Data o))) = m).
      { rewrite length_take, length_drop. lia. }
      unfold wf, pending. cbn [r ops ro i do tmp]. rewrite Hdrop.
      split. { repeat split; try done; lia. }
      split; [done|]. split; [done|]. split; [done|]. split; [done|].
      split. { simpl. rewrite Z.sub_diag. simpl.
               by rewrite <- drop_drop, app_assoc, take_drop. }
      split; [lia|]. split; [lia|].
      split; [by left|].
      split. { intros Hnil. specialize (Hpd do0). rewrite Hnil in Hpd. simpl in Hpd. lia. }
      split. { intros Hnb _ E. apply (f_equal length) in E. rewrite Hm in E. simpl in E. lia. }
      intros _. rewrite Hm. specialize (Hpd do0). lia.
    - (* the data is out: skip the bytes of the op, and on to the next op *)
      assert (Hm : m = length (Data o) - do0) by lia.
      rewrite (wrap64_id (Offset o + Size o)) by (unfold op_end, max_int64 in *; lia).
      fold (op_end o).
      set (buf2 := take n buf ++ take m (drop do0 (Data o)) ++ drop m (drop n buf)) in *.
      set (own := negb (length tmp0 <? length buf2 - (n + m))).
      set (scratch := if own then tmp0 else drop (n + m) buf2).
      assert (Hscr : 0 < length scratch).
      { unfold scratch, own.
        destruct (Nat.ltb_spec (length tmp0) (length buf2 - (n + m))); simpl.
        - rewrite length_drop. lia.
        - done. }
      destruct (discard_loop_source fuel fuel src (Offset o) (op_end o) scratch)
        as (src' & t' & Hdisc & Hrem & Hlen');
        [unfold op_end; lia|done|lia|done|unfold op_end in *; lia|].
      rewrite Hdisc, Z.eqb_refl.
      set (buf3 := if own then buf2 else take (n + m) buf2 ++ t').
      set (tmp' := if own then t' else tmp0).
      assert (Hlen3 : length buf3 = length buf).
      { unfold buf3. destruct own; [done|].
        rewrite length_app, Hlen'. unfold scratch. rewrite <- length_app, take_drop. done. }
      assert (Htk3 : take (n + m) buf3 = take n buf ++ drop do0 (Data o)).
      { unfold buf3. destruct own.
        - rewrite Htk2. by rewrite (take_ge (drop do0 (Data o))) by (rewrite length_drop; lia).
        - rewrite take_app_length' by (rewrite length_take; lia).
          rewrite Htk2.
          by rewrite (take_ge (drop do0 (Data o))) by (rewrite length_drop; lia). }
      assert (Htmp' : 0 < length tmp').
      { unfold tmp'. destruct own eqn:Hown; [|done]. unfold scratch in Hlen'. lia. }
      clearbody buf3 tmp'. clear Hdisc.
      eapply read_post_prefix with (pre := drop do0 (Data o)).
      + apply IH.
        * unfold wf. cbn [r ops ro i do tmp]. rewrite Hrest.
          split; [unfold op_end; lia|]. split; [done|].
          replace (op_end o + Z.of_nat (length (remaining src')))%Z
            with (Offset o + Z.of_nat (length (remaining src)))%Z
            by (rewrite Hrem, length_drop; unfold op_end in *; lia).
          destruct rest as [|o' rest']; [done|].
          destruct Hfits as (? & ? & ? & ?). simpl. repeat split; try done; lia.
        * cbn [r ops ro i do tmp]. lia.
        * cbn [r ops ro i do tmp]. rewrite Hrest. lia.
        * cbn [r ops ro i do tmp]. rewrite Hrem, length_drop. lia.
      + unfold pending. cbn [r ops ro i do tmp]. rewrite Hdrop, Hrest.
        rewrite <- apply_ops_pend, Hrem. simpl. by rewrite Z.sub_diag.
      + done.
      + rewrite length_drop. lia.
      + lia.
      + done.
      + done.
      + cbn [r ops ro i do tmp]. rewrite Hrem, length_drop. lia. }
  destruct (drop (i rd) (ops rd)) as [|o rest] eqn:Hdrop.
  - (* past the last op *)
    destruct rd as [src ops0 ro0 i0 do0 tmp0]. unfold wf in Hwf.
    cbn [r ops ro i do tmp] in *.
    apply drop_nil_lookup in Hdrop as Hlook.
    cbn [read_loop r ops ro i do tmp]. rewrite Hlook.
    destruct Hwf as (Hro0 & Htmp & _).
    destruct (Source_Read fuel src (drop n buf))
      as (src' & m & err & Hrd & Hrem & Hmq & Hmr & Hempty & Hnon).
    rewrite Hrd. rewrite length_drop in Hmq.
    do 4 eexists. exists (take m (remaining src)). split; [reflexivity|].
    unfold wf, pending. cbn [r ops ro i do tmp]. rewrite Hdrop.
    assert (Hm : length (take m (remaining src)) = m) by (rewrite length_take; lia).
    split; [done|]. split; [done|]. split; [rewrite Hrem, length_drop; lia|].
    split. { rewrite !length_app, Hm, length_take, !length_drop. lia. }
    split. { rewrite app_assoc. apply take_app_length'. rewrite length_app, length_take. lia. }
    split. { cbn [pend]. by rewrite Hrem, take_drop. }
    split; [lia|]. split; [lia|].
    cbn [pend].
    destruct (remaining src) as [|b s'] eqn:Hs.
    + assert (m = 0) as -> by (simpl in Hmr; lia).
      split. { destruct (Hempty eq_refl) as [[-> _]| ->]; [by left|right].
               split; [done|]. by rewrite Hrem. }
      split. { intros _ Hnb. destruct (Hempty eq_refl) as [[_ E]| ->]; [|done].
               apply (f_equal length) in E. rewrite length_drop in E. simpl in E. lia. }
      split; [done|]. intros _. simpl. lia.
    + destruct Hnon as [-> Hpos]; [done|].
      split; [by left|]. split; [done|].
      split. { intros Hnb _ E. apply (f_equal length) in E. rewrite Hm in E. simpl in E.
               assert (0 < m); [|lia]. apply Hpos. intros E'.
               apply (f_equal length) in E'. rewrite length_drop in E'. simpl in E'. lia. }
      intros HF. rewrite Hm. rewrite (HF _ _ _ _ _ _ _ Hrd), length_drop, Hs. done.
  - destruct (decide (ro rd = Offset o)) as [Heq|Hne].
    { eapply HA; eauto. simpl in Hgas. lia. }
    (* before the offset *)
    destruct rd as [src ops0 ro0 i0 do0 tmp0]. unfold wf in Hwf.
    cbn [r ops ro i do tmp] in *.
    destruct Hwf as (Hro0 & Htmp & Hok).
    rewrite Hdrop in Hok. destruct Hok as (Hle & Hdo & Hdo0 & Hsz & Hend & Hfits).
    pose proof (fits_le _ _ _ Hfits) as Hend_le.
    apply drop_cons_inv in Hdrop as Hd. destruct Hd as [Hlook Hrest].
    assert (do0 = 0) as -> by (apply Hdo0; lia). clear Hdo0 Hdo.
    set (q := if (Offset o - ro0 <? Z.of_nat (length buf - n))%Z
              then Z.to_nat (Offset o - ro0) else length buf - n).
    assert (Hq : q = Nat.min (Z.to_nat (Offset o - ro0)) (length buf - n)).
    { unfold q. destruct (Z.ltb_spec (Offset o - ro0) (Z.of_nat (length buf - n))); lia. }
    assert (Hs : remaining src <> []).
    { intros E. rewrite E in *. simpl in *. unfold op_end in *. lia. }
    destruct (Source_Read fuel src (take q (drop n buf)))
      as (src' & m & err & Hrd & Hrem & Hmq & Hmr & _ & Hnon).
    rewrite length_take, length_drop in Hmq.
    destruct (Hnon Hs) as [-> Hpos]. clear Hnon.
    assert (Hqs : length (take m (remaining src)) = m) by (rewrite length_take; lia).
    set (q' := take m (remaining src) ++ drop m (take q (drop n buf))) in *.
    assert (Hq' : length q' = q).
    { unfold q'. rewrite length_app, Hqs, length_drop, length_take, length_drop. lia. }
    assert (Hlen1 : length (blit buf n q') = length buf).
    { unfold blit. rewrite !length_app, length_take, length_drop, Hq'. lia. }
    assert (Htk1 : take (n + m) (blit buf n q') = take n buf ++ take m (remaining src)).
    { unfold blit, q'. rewrite <- !app_assoc, (app_assoc (take n buf)).
      apply take_app_length'. rewrite length_app, length_take, Hqs. lia. }
    assert (Hpd : length (pend ro0 0 (o :: rest) (remaining src)) >= Z.to_nat (Offset o - ro0)).
    { simpl. rewrite !length_app, length_take. unfold op_end in *. lia. }
    assert (Hadv : pend ro0 0 (o :: rest) (remaining src)
                   = take m (remaining src) ++ pend (ro0 + Z.of_nat m) 0 (o :: rest) (remaining src')).
    { rewrite Hrem. apply pend_advance; unfold op_end; lia. }
    destruct (Z.ltb_spec (ro0 + Z.of_nat m) (Offset o)) as [Hpart|Hfull].
    + (* the call ends before the offset is reached *)
      cbn [read_loop r ops ro i do tmp]. rewrite Hlook.
      rewrite wrap64_id by (unfold max_int64, op_end in *; lia).
      destruct (Z.ltb_spec 0 (Offset o - ro0)) as [_|?]; [|lia].
      fold q. rewrite Hrd.
      rewrite wrap64_id by (unfold max_int64, op_end in *; lia).
      destruct (Z.ltb_spec (ro0 + Z.of_nat m) (Offset o)) as [_|?]; [|lia].
      do 4 eexists. exists (take m (remaining src)). split; [reflexivity|].
      unfold wf, pending. cbn [r ops ro i do tmp]. rewrite Hdrop.
      split.
      { split; [lia|]. split; [done|].
        replace (ro0 + Z.of_nat m + Z.of_nat (length (remaining src')))%Z
          with (ro0 + Z.of_nat (length (remaining src)))%Z
          by (rewrite Hrem, length_drop; lia).
        repeat split; try done; lia. }
      split; [done|]. split; [rewrite Hrem, length_drop; lia|]. split; [done|].
      split; [done|].
      split; [done|].
      split; [lia|]. split; [lia|].
      split; [by left|].
      split. { intros Hnil. rewrite Hnil in Hpd. simpl in Hpd. lia. }
      split. { intros Hnb _ E. apply (f_equal length) in E. rewrite Hqs in E. simpl in E.
               assert (0 < m); [|lia]. apply Hpos. intros E'.
               apply (f_equal length) in E'. rewrite length_take, length_drop in E'.
               simpl in E'. lia. }
      intros HF. rewrite Hqs.
      pose proof (HF _ _ _ _ _ _ _ Hrd) as Hmf. rewrite length_take, length_drop in Hmf.
      unfold op_end in *. lia.
    + (* the offset is reached *)
      assert (Hm : Z.of_nat m = (Offset o - ro0)%Z) by lia.
      set (rd1 := {| r := src'; ops := ops0; ro := Offset o;
                     i := i0; do := 0; tmp := tmp0 |}).
      assert (E : read_loop fuel (S gas)
                    {| r := src; ops := ops0; ro := ro0; i := i0;
                       do := 0; tmp := tmp0 |} buf n
                  = read_loop fuel (S gas) rd1 (blit buf n q') (n + m)).
      { unfold rd1. cbn [read_loop r ops ro i do tmp]. rewrite Hlook.
        rewrite Z.sub_diag. change (wrap64 0) with 0%Z. rewrite !Z.ltb_irrefl.
        rewrite wrap64_id by (unfold max_int64, op_end in *; lia).
        destruct (Z.ltb_spec 0 (Offset o - ro0)) as [_|?]; [|lia].
        fold q. rewrite Hrd.
        rewrite wrap64_id by (unfold max_int64, op_end in *; lia).
        replace (ro0 + Z.of_nat m)%Z with (Offset o) by lia.
        rewrite Z.ltb_irrefl. reflexivity. }
      rewrite E.
      eapply read_post_prefix with (pre := take m (remaining src)).
      * apply (HA rd1 _ _ o rest); unfold rd1; cbn [r ops ro i do tmp].
        -- unfold wf. cbn [r ops ro i do tmp]. rewrite Hdrop.
           split; [lia|]. split; [done|].
           replace (Offset o + Z.of_nat (length (remaining src')))%Z
             with (ro0 + Z.of_nat (length (remaining src)))%Z
             by (rewrite Hrem, length_drop; unfold op_end in *; lia).
           repeat split; try done; lia.
        -- lia.
        -- done.
        -- simpl in Hgas. lia.
        -- rewrite Hrem, length_drop. lia.
        -- done.
      * unfold pending, rd1. cbn [r ops ro i do tmp]. rewrite Hdrop.
        rewrite Hadv. by replace (ro0 + Z.of_nat m)%Z with (Offset o) by lia.
      * done.
      * lia.
      * lia.
      * done.
      * done.
      * unfold rd1. cbn [r ops ro i do tmp]. rewrite Hrem, length_drop. lia.
Qed.

(** ** Draining a reader with a buffer of any size *)

Lemma Read_opreader fuel (rd : opreader R) buf :
  io.Read fuel rd buf = read_loop fuel fuel rd buf 0.
Proof. reflexivity. Qed.

Lemma copyBuffer_patch gas :
  forall fuel (rd : opreader R) buf w written,
  wf rd -> 0 < length buf ->
  length (pending rd) < gas ->
  length (ops rd) < fuel -> length (remaining (r rd)) <= fuel ->
  wrap64 written = written ->
  exists rd',
    io.copyBuffer fuel gas (io.NewBuffer w) rd buf written =
    Some (io.NewBuffer (w ++ pending rd), rd',
          wrap64 (written + Z.of_nat (length (pending rd))), None).
Proof.
  induction gas as [|gas IH]; intros fuel rd buf w written Hwf Hbuf Hgas Hops Hun Hwr; [lia|].
  cbn [io.copyBuffer]. rewrite Read_opreader.
  destruct (read_loop_source fuel fuel rd buf 0)
    as (rd' & buf' & n' & err & out & -> & Hwf' & Hops' & Hun' & Hlen & Htake & Hpend & Hn
        & Hn' & Herr & Hnil & Hprog & _);
    [done|lia|rewrite length_drop; lia|done|].
  simpl in Htake, Hn. subst n'.
  destruct (Nat.ltb_spec 0 (length out)) as [Hpos|Hzero].
  - rewrite Htake, Write_bytesBuffer.
    destruct (Z.ltb_spec (Z.of_nat (length out)) 0) as [?|_]; [lia|].
    rewrite Z.ltb_irrefl. cbn [orb]. rewrite Z.eqb_refl. cbn [negb].
    destruct Herr as [->|[-> Hdone]].
    + destruct (IH fuel rd' buf' (w ++ out) (wrap64 (written + Z.of_nat (length out))))
        as (rd'' & ->); [done|lia| |by rewrite Hops'|lia|apply wrap64_idemp|].
      { rewrite Hpend, length_app in Hgas. lia. }
      exists rd''. rewrite Hpend, <- app_assoc, wrap64_add_l, length_app. do 4 f_equal. lia.
    + exists rd'. cbn [io.error_eqb]. rewrite Hpend, Hdone, app_nil_r. done.
  - assert (out = []) as -> by (destruct out; simpl in *; [done|lia]).
    assert (Hp : pending rd = []).
    { destruct (pending rd) eqn:E; [done|]. exfalso. by apply Hprog. }
    rewrite (Hnil Hp Hbuf). exists rd'. cbn [io.error_eqb].
    by rewrite Hp, app_nil_r, Z.add_0_r, Hwr.
Qed.

Lemma Reader_wf ops (src : R) :
  fits 0 ops (Z.of_nat (length (remaining src))) -> wf (Reader ops src).
Proof.
  intros Hfits. unfold wf, Reader. cbn [r metadata.ops ro i do tmp].
  split; [done|]. split; [rewrite length_replicate; lia|].
  rewrite drop_0. by apply fits_state_ok.
Qed.

Lemma Reader_pending ops (src : R) :
  pending (Reader ops src) = apply_ops 0 ops (remaining src).
Proof.
  unfold pending, Reader. cbn [r metadata.ops ro i do tmp].
  by rewrite drop_0, apply_ops_pend.
Qed.

(** Draining gives the patch, whatever the size of the caller's buffer and
    however many bytes the source gives at a time. *)
Lemma drain_patch fuel buf ops (src : R) :
  fits 0 ops (Z.of_nat (length (remaining src))) -> 0 < length buf ->
  enough ops (remaining src) <= fuel ->
  drain fuel buf ops src =
  Some (apply_ops 0 ops (remaining src),
        wrap64 (Z.of_nat (length (apply_ops 0 ops (remaining src)))), None).
Proof.
  intros Hfits Hbuf Hfuel. unfold drain, enough in *.
  destruct (copyBuffer_patch fuel fuel (Reader ops src) buf [] 0) as (rd' & ->).
  - by apply Reader_wf.
  - done.
  - rewrite Reader_pending. lia.
  - simpl. lia.
  - simpl. lia.
  - done.
  - by rewrite Reader_pending.
Qed.

End patch_reader.

(** ** Ops one at a time *)

Lemma drain_patch_bytes fuel buf ops input :
  fits 0 ops (Z.of_nat (length input)) -> 0 < length buf ->
  enough ops input <= fuel ->
  drain fuel buf ops (io.NewReader input) =
  Some (apply_ops 0 ops input, wrap64 (Z.of_nat (length (apply_ops 0 ops input))), None).
Proof. exact (drain_patch fuel buf ops (io.NewReader input)). Qed.

Lemma fits_weaken pos pos' ops L :
  fits pos ops L -> (pos' <= pos)%Z -> fits pos' ops L.
Proof.
  destruct ops as [|o ops]; simpl; [lia|].
  intros (? & ? & ? & ?) ?. repeat split; try done; lia.
Qed.

Lemma fits_shift d pos ops L :
  fits pos ops L -> (L + d <= max_int64)%Z ->
  fits (pos + d) (map (shift d) ops) (L + d).
Proof.
  revert pos. induction ops as [|o ops IH]; simpl; intros pos H HL; [lia|].
  destruct H as (H1 & H2 & H3 & H4).
  pose proof (fits_le _ _ _ H4) as Hle.
  unfold op_end in *. simpl.
  repeat split; try lia.
  replace (Offset o + d + Size o)%Z with (Offset o + Size o + d)%Z by lia.
  by apply IH.
Qed.

Lemma apply_ops_shift d pos ops s :
  apply_ops (pos + d) (map (shift d) ops) s = apply_ops pos ops s.
Proof.
  revert pos s. induction ops as [|o ops IH]; intros pos s; [done|].
  simpl. unfold op_end. simpl.
  replace (Offset o + d + Size o)%Z with (Offset o + Size o + d)%Z by lia.
  rewrite IH. do 2 f_equal; [f_equal; lia|]. do 3 f_equal. lia.
Qed.

Lemma apply_ops_prefix pre pos ops s :
  fits (pos + Z.of_nat (length pre)) ops (pos + Z.of_nat (length pre) + Z.of_nat (length s)) ->
  apply_ops pos ops (pre ++ s) = pre ++ apply_ops (pos + Z.of_nat (length pre)) ops s.
Proof.
  destruct ops as [|o ops]; [done|]. simpl. intros (H1 & H2 & _ & _).
  unfold op_end in *.
  rewrite take_app_ge, drop_app_ge by lia.
  rewrite <- app_assoc. do 2 f_equal; [f_equal; lia|]. do 3 f_equal. lia.
Qed.

Lemma apply_ops_length pos ops s L :
  fits pos ops L ->
  length (apply_ops pos ops s) <= length s + data_len ops.
Proof.
  revert pos s. induction ops as [|o ops IH]; intros pos s Hfits; simpl; [lia|].
  destruct Hfits as (H1 & H2 & H3 & H4).
  rewrite !length_app, length_take. unfold data_len in *. simpl.
  specialize (IH (op_end o) (drop (Z.to_nat (op_end o - pos)) s) H4).
  rewrite length_drop in IH. unfold op_end in *. lia.
Qed.

Lemma shift_shift d e o : shift e (shift d o) = shift (d + e) o.
Proof. unfold shift. simpl. f_equal. lia. Qed.

Lemma map_shift_0 ops : map (shift 0) ops = ops.
Proof.
  induction ops as [|[off sz dat] ops IH]; [done|].
  simpl. rewrite IH. unfold shift. simpl. by rewrite Z.add_0_r.
Qed.

Lemma one_at_a_time_patch ops : forall fuel buf d input,
  fits 0 (map (shift d) ops) (Z.of_nat (length input)) ->
  (Z.of_nat (length input + data_len ops) <= max_int64)%Z ->
  0 < length buf ->
  2 * (length input + data_len ops) + 3 <= fuel ->
  one_at_a_time fuel buf d ops input = Some (apply_ops 0 (map (shift d) ops) input).
Proof.
  induction ops as [|o ops IH]; intros fuel buf d input Hfits Hmax Hbuf Hfuel; [done|].
  cbn [one_at_a_time map] in *.
  destruct Hfits as (H1 & H2 & H3 & H4).
  pose proof (fits_le _ _ _ H4) as Hle.
  assert (Hdl : data_len (o :: ops) = length (Data o) + data_len ops) by done.
  change (Size (shift d o)) with (Size o) in H2.
  change (Offset (shift d o)) with (Offset o + d)%Z in H1.
  set (a := Z.to_nat (Offset o + d)) in *.
  assert (Ha : (Offset (shift d o) = Z.of_nat a)%Z) by (simpl in *; lia).
  assert (He : (op_end (shift d o) = Z.of_nat a + Size o)%Z) by (unfold op_end; simpl in *; lia).
  set (out := take a input ++ Data o ++ drop (Z.to_nat (Z.of_nat a + Size o)) input).
  assert (Hout : apply_ops 0 [shift d o] input = out).
  { unfold out. cbn [apply_ops]. rewrite He, Ha, !Z.sub_0_r, Nat2Z.id. done. }
  assert (Hlen : Z.of_nat (length out) = (Z.of_nat (length input) + Z.of_nat (length (Data o)) - Size o)%Z).
  { unfold out. rewrite !length_app, length_take, length_drop. lia. }
  rewrite drain_patch_bytes; [|simpl; rewrite He; repeat split; try lia; by rewrite <- He|done|].
  2:{ unfold enough. rewrite Hout. simpl. lia. }
  rewrite Hout.
  rewrite IH; [|  |lia|done|lia].
  - cbn [apply_ops]. rewrite He, Ha, !Z.sub_0_r, Nat2Z.id.
    unfold out. rewrite (app_assoc (take a input)).
    rewrite (apply_ops_prefix (take a input ++ Data o) 0).
    + rewrite <- app_assoc. do 2 f_equal.
      rewrite <- (apply_ops_shift (Z.of_nat (length (Data o)) - Size o)
                    (Z.of_nat a + Size o) (map (shift d) ops)).
      rewrite map_map.
      replace (0 + Z.of_nat (length (take a input ++ Data o)))%Z
        with (Z.of_nat a + Size o + (Z.of_nat (length (Data o)) - Size o))%Z
        by (rewrite length_app, length_take; lia).
      rewrite (map_ext (fun x => shift (Z.of_nat (length (Data o)) - Size o) (shift d x))
                 (shift (d + Z.of_nat (length (Data o)) - Size o)))
        by (intros o'; rewrite shift_shift; f_equal; lia).
      done.
    + rewrite length_app, length_take, length_drop.
      apply (fits_shift (Z.of_nat (length (Data o)) - Size o)) in H4; [|lia].
      rewrite map_map in H4.
      rewrite (map_ext _ (shift (d + Z.of_nat (length (Data o)) - Size o))) in H4
        by (intros o'; rewrite shift_shift; f_equal; lia).
      rewrite He in H4.
      replace (0 + Z.of_nat (a `min` length input + length (Data o)))%Z
        with (Z.of_nat a + Size o + (Z.of_nat (length (Data o)) - Size o))%Z by lia.
      replace (Z.of_nat a + Size o + (Z.of_nat (length (Data o)) - Size o) +
               Z.of_nat (length input - Z.to_nat (Z.of_nat a + Size o)))%Z
        with (Z.of_nat (length input) + (Z.of_nat (length (Data o)) - Size o))%Z by lia.
      done.
  - apply (fits_shift (Z.of_nat (length (Data o)) - Size o)) in H4; [|lia].
    rewrite map_map in H4.
    rewrite (map_ext _ (shift (d + Z.of_nat (length (Data o)) - Size o))) in H4
      by (intros o'; rewrite shift_shift; f_equal; lia).
    eapply fits_weaken; [|shelve].
    replace (Z.of_nat (length out)) with
      (Z.of_nat (length input) + (Z.of_nat (length (Data o)) - Size o))%Z by lia.
    exact H4.
    Unshelve. rewrite He. lia.
Qed.

Lemma fits_intro ops : forall pos L,
  (pos <= L)%Z ->
  Forall (fun o => (pos <= Offset o)%Z /\ (0 <= Size o)%Z /\
                   (op_end o <= L)%Z /\ (op_end o <= max_int64)%Z) ops ->
  disjoint ops -> fits pos ops L.
Proof.
  induction ops as [|o ops IH]; intros pos L HL Hall Hdis; [done|].
  apply Forall_cons in Hall as [(H1 & H2 & H3 & H4) Hall].
  destruct Hdis as [Hd Hdis]. simpl. repeat split; try done.
  apply IH; [done| |done].
  rewrite Forall_forall in *. intros y Hy.
  destruct (Hall y Hy) as (? & ? & ? & ?). specialize (Hd y Hy). repeat split; lia.
Qed.

Lemma valid_fits ops input :
  valid ops -> within ops input -> fits 0 ops (Z.of_nat (length input)).
Proof.
  intros (_ & Hdis & Hall) Hin. apply fits_intro; [lia| |done].
  unfold within in Hin. rewrite Forall_forall in *. intros y Hy.
  destruct (Hall y Hy) as (? & ? & ?). specialize (Hin y Hy). repeat split; lia.
Qed.

(** ** The claims about the patch reader *)

(** C5.  Identity: with no ops at all, draining the reader gives back the
    bytes of the source one for one, whatever their number (none included),
    whatever the size of the caller's buffer and however the source hands
    them out, and reports no error. *)
Theorem identity_patch {R} `{!io.Reader R} `{!Source R} (src : R) (buf : list byte)
    (fuel : nat) :
  1 <= length buf ->
  enough [] (remaining src) <= fuel ->
  drain fuel buf [] src
  = Some (remaining src, wrap64 (Z.of_nat (length (remaining src))), None).
Proof.
  intros Hbuf Hfuel. rewrite drain_patch; [done| |lia|done].
  simpl. lia.
Qed.

Lemma identity_patch_witness :
  drain 1 [x00] [] (io.NewReader []) = Some ([], wrap64 0, None) /\
  drain 5 [x00; x00] [] (io.OneByteReader (io.NewReader [x41; x42]))
  = Some ([x41; x42], wrap64 2, None).
Proof.
  split.
  - refine (identity_patch (io.NewReader []) [x00] 1 _ _); unfold enough; simpl; lia.
  - refine (identity_patch (io.OneByteReader (io.NewReader [x41; x42])) [x00; x00] 5 _ _);
      unfold enough; simpl; lia.
Defined.

(** C2.  A single edit [{offset:o, size:s, data:d}] on an input of at least
    [o+s] bytes: the drained output is [input[0:o] ++ d ++ input[o+s:]].  In
    particular an overwrite ([s = len d]) keeps the length and the bytes
    outside [[o,o+s)] and puts [d] there; an insertion ([s = 0]) gives
    [input[0:o] ++ d ++ input[o:]], longer by [len d]; a deletion (empty
    [d]) gives [input[0:o] ++ input[o+s:]], shorter by [s]. *)
Theorem single_edit {R} `{!io.Reader R} `{!Source R} (o s : nat) (d : list byte)
    (src : R) (buf : list byte) (fuel : nat) :
  let input := remaining src in
  o + s <= length input ->
  (Z.of_nat (o + s) <= max_int64)%Z ->
  1 <= length buf ->
  2 * length input + length d + 2 <= fuel ->
  let out := take o input ++ d ++ drop (o + s) input in
  (exists written,
     drain fuel buf [{| Offset := Z.of_nat o; Size := Z.of_nat s; Data := d |}] src
     = Some (out, written, None)) /\
  (s = length d ->
     length out = length input /\ take o out = take o input /\
     drop (o + s) out = drop (o + s) input /\ take s (drop o out) = d) /\
  (s = 0 -> out = take o input ++ d ++ drop o input /\
            length out = length input + length d) /\
  (d = [] -> out = take o input ++ drop (o + s) input /\
             length out = length input - s).
Proof.
  intros input Hlen Hmax Hbuf Hfuel out.
  assert (Hout : apply_ops 0 [{| Offset := Z.of_nat o; Size := Z.of_nat s; Data := d |}] input = out).
  { unfold out. cbn [apply_ops]. unfold op_end. simpl.
    rewrite !Z.sub_0_r, <- Nat2Z.inj_add, !Nat2Z.id. done. }
  assert (Hto : length (take o input) = o) by (rewrite length_take; lia).
  assert (Hlo : length out = length input + length d - s).
  { unfold out. rewrite !length_app, length_take, length_drop. lia. }
  split; [|split; [|split]].
  - eexists. rewrite drain_patch; fold input; [by rewrite Hout| |done|].
    + simpl. unfold op_end. simpl. lia.
    + unfold enough. rewrite Hout, Hlo. simpl. lia.
  - intros ->. unfold out in *. repeat split.
    + lia.
    + by rewrite take_app_length'.
    + rewrite app_assoc, drop_app_length'; [done|]. rewrite length_app. lia.
    + rewrite drop_app_length' by done. by rewrite take_app_length'.
  - intros ->. unfold out in *. rewrite Nat.add_0_r in *. split; [done|lia].
  - intros ->. unfold out in *. split; [done|]. simpl in Hlo |- *. lia.
Qed.

Lemma single_edit_witness :
  exists written,
    drain 40 [x00]
      [{| Offset := 2; Size := 3; Data := [x78; x79; x7a] |}]
      (io.OneByteReader (io.NewReader [x41; x42; x43; x44; x45; x46; x47; x48; x49; x4a]))
    = Some ([x41; x42; x78; x79; x7a; x46; x47; x48; x49; x4a], written, None).
Proof.
  destruct (single_edit 2 3 [x78; x79; x7a]
              (io.OneByteReader
                 (io.NewReader [x41; x42; x43; x44; x45; x46; x47; x48; x49; x4a]))
              [x00] 40) as [H _];
    [simpl; lia|simpl; unfold max_int64; lia|simpl; lia|simpl; lia|exact H].
Defined.

(** C3.  Buffer-size independence: for valid ops on a source they fit in,
    the bytes that repeated calls of [Read] give until end of stream, with a
    caller's buffer of any size from one byte up, are the bytes that a single
    call gives on the same input held in memory, with a buffer that takes
    the whole output. *)
Theorem buffer_size_independence {R} `{!io.Reader R} `{!Source R} (ops : FileOps)
    (src : R) (buf big : list byte) (fuel : nat) :
  valid ops -> within ops (remaining src) ->
  1 <= length buf ->
  length (apply_ops 0 ops (remaining src)) <= length big ->
  enough ops (remaining src) <= fuel ->
  exists rd big' n err written,
    opreader_Read fuel (Reader ops (io.NewReader (remaining src))) big
    = Some (rd, big', n, err) /\
    drain fuel buf ops src = Some (take n big', written, None).
Proof.
  intros Hv Hw Hbuf Hbig Hfuel.
  pose proof (valid_fits _ _ Hv Hw) as Hfits.
  unfold enough in Hfuel.
  destruct (read_loop_source fuel fuel (Reader ops (io.NewReader (remaining src))) big 0)
    as (rd' & big' & n' & err & out & Heq & _ & _ & _ & _ & Htake & Hpend & Hn & _ & _ & _
        & _ & Hout).
  - by apply Reader_wf.
  - lia.
  - simpl. rewrite drop_0. lia.
  - simpl. lia.
  - exists rd', big', n', err. eexists. split; [exact Heq|].
    rewrite drain_patch by (done || unfold enough; lia).
    rewrite Reader_pending in *. simpl in Htake, Hpend, Hout.
    rewrite Htake. do 3 f_equal.
    specialize (Hout _). rewrite Nat.sub_0_r, Nat.min_r in Hout by done.
    apply (f_equal (take (length out))) in Hpend.
    rewrite take_app_length in Hpend. rewrite <- Hpend, Hout.
    by rewrite take_ge.
Qed.

(** Three ops on ["ABCDE"]: delete ["BC"], insert ["uv"] before ["D"],
    overwrite ["E"] by ["w"]. *)
Lemma buffer_size_independence_witness :
  exists rd big' n err written,
    opreader_Read 20
      (Reader [{| Offset := 1; Size := 2; Data := [] |};
               {| Offset := 3; Size := 0; Data := [x75; x76] |};
               {| Offset := 4; Size := 1; Data := [x77] |}]
         (io.NewReader [x41; x42; x43; x44; x45])) (replicate 8 x00)
    = Some (rd, big', n, err) /\
    drain 20 [x00]
      [{| Offset := 1; Size := 2; Data := [] |};
       {| Offset := 3; Size := 0; Data := [x75; x76] |};
       {| Offset := 4; Size := 1; Data := [x77] |}]
      (io.OneByteReader (io.NewReader [x41; x42; x43; x44; x45]))
    = Some (take n big', written, None).
Proof.
  pose proof (buffer_size_independence
                [{| Offset := 1; Size := 2; Data := [] |};
                 {| Offset := 3; Size := 0; Data := [x75; x76] |};
                 {| Offset := 4; Size := 1; Data := [x77] |}]
                (io.OneByteReader (io.NewReader [x41; x42; x43; x44; x45]))
                [x00] (replicate 8 x00) 20) as H.
  cbn [remaining oneByteReader_Source bytesReader_Source io.ob_r io.unread] in H.
  apply H.
  - ops_facts.
  - ops_facts.
  - simpl. lia.
  - simpl. lia.
  - unfold enough. simpl. lia.
Defined.

(** C4.  Composability: for valid ops on a source they fit in, one pass
    with all the ops gives the bytes that the ops give when applied one at
    a time in their order, each on the previous result and at its offset
    moved by the bytes gained or lost so far. *)
Theorem one_pass_is_one_at_a_time {R} `{!io.Reader R} `{!Source R} (ops : FileOps)
    (src : R) (buf : list byte) (fuel : nat) :
  valid ops -> within ops (remaining src) ->
  (Z.of_nat (length (remaining src) + data_len ops) <= max_int64)%Z ->
  1 <= length buf ->
  length ops + 2 * (length (remaining src) + data_len ops) + 3 <= fuel ->
  exists out written,
    drain fuel buf ops src = Some (out, written, None) /\
    one_at_a_time fuel buf 0 ops (remaining src) = Some out.
Proof.
  intros Hv Hw Hmax Hbuf Hfuel.
  pose proof (valid_fits _ _ Hv Hw) as Hfits.
  pose proof (apply_ops_length 0 ops (remaining src) _ Hfits) as Hlen.
  do 2 eexists. split.
  - apply drain_patch; [done|lia|unfold enough; lia].
  - rewrite one_at_a_time_patch; [by rewrite map_shift_0|by rewrite map_shift_0|done|lia|lia].
Qed.

Lemma one_pass_is_one_at_a_time_witness :
  exists out written,
    drain 30 [x00; x00]
      [{| Offset := 1; Size := 2; Data := [] |};
       {| Offset := 3; Size := 0; Data := [x75; x76] |};
       {| Offset := 4; Size := 1; Data := [x77] |}]
      (io.NewReader [x41; x42; x43; x44; x45])
    = Some (out, written, None) /\
    one_at_a_time 30 [x00; x00] 0
      [{| Offset := 1; Size := 2; Data := [] |};
       {| Offset := 3; Size := 0; Data := [x75; x76] |};
       {| Offset := 4; Size := 1; Data := [x77] |}]
      [x41; x42; x43; x44; x45]
    = Some out.
Proof.
  pose proof (one_pass_is_one_at_a_time
                [{| Offset := 1; Size := 2; Data := [] |};
                 {| Offset := 3; Size := 0; Data := [x75; x76] |};
                 {| Offset := 4; Size := 1; Data := [x77] |}]
                (io.NewReader [x41; x42; x43; x44; x45]) [x00; x00] 30) as H.
  cbn [remaining bytesReader_Source io.unread] in H.
  apply H.
  - ops_facts.
  - ops_facts.
  - unfold data_len, max_int64. simpl. lia.
  - simpl. lia.
  - unfold data_len. simpl. lia.
Defined.

(** ** zerofill *)

Lemma zerofill_loop (pre rest : list byte) :
  foldl (fun p k => <[k := x00]> p) (pre ++ rest) (seq (length pre) (length rest))
  = pre ++ replicate (length rest) x00.
Proof.
  revert pre. induction rest as [|b rest IH]; intros pre; [done|].
  simpl. rewrite insert_app_r_alt, Nat.sub_diag by lia. simpl.
  rewrite (cons_middle x00 pre rest), app_assoc.
  replace (S (length pre)) with (length (pre ++ [x00])) by (rewrite length_app; simpl; lia).
  rewrite IH, <- app_assoc. done.
Qed.

(** What [zerofill] does: every byte of [p] is cleared, whatever [maxfill]
    is, and the count is the smaller of [maxfill] and [len p]. *)
Lemma zerofill_clears_all (p : list byte) (maxfill : Z) :
  zerofill p maxfill = (replicate (length p) x00, Z.min maxfill (Z.of_nat (length p))).
Proof.
  unfold zerofill. f_equal.
  - apply (zerofill_loop [] p).
  - destruct (Z.ltb_spec (Z.of_nat (length p)) maxfill); lia.
Qed.

(** C9.  [zerofill] on a buffer longer than [maxfill]: the count is
    [maxfill], but the bytes beyond it are cleared as well.  On three bytes
    with [maxfill = 1] it returns 1 and leaves three zero bytes; in general
    it returns the smaller of [maxfill] and [len p] and leaves no byte of
    [p] as it was, the loop being over all of [p]. *)
Theorem zerofill_clears_past_maxfill :
  zerofill [x01; x02; x03] 1 = ([x00; x00; x00], 1%Z) /\
  (zerofill [x01; x02; x03] 1).1 !! 1 <> [x01; x02; x03] !! 1 /\
  forall (p : list byte) (maxfill : Z),
    zerofill p maxfill = (replicate (length p) x00, Z.min maxfill (Z.of_nat (length p))).
Proof.
  split; [reflexivity|]. split; [discriminate|].
  intros p maxfill. apply zerofill_clears_all.
Qed.

(** ** A source that ends too early *)

(** C1.  Ops that need bytes which the source does not have.  With an op at
    offset 10 on a source of 3 bytes, [Read] ends with the plain [EOF] of
    the source and [FileOps.Copy] returns the 3 bytes copied and no error;
    with an op discarding 5 bytes of a 3-byte source, [Copy] returns
    nothing copied and no error.  [xCopy] on the first reports
    [ErrUnexpectedEOF]; the second call of [Read] there reports [EOF]. *)
Theorem Copy_short_source_no_error :
  copied 2 [{| Offset := 10; Size := 0; Data := [x78] |}] [x61; x62; x63]
    = Some ([x61; x62; x63], 3%Z, None) /\
  copied 2 [{| Offset := 0; Size := 5; Data := [] |}] [x61; x62; x63]
    = Some ([], 0%Z, None) /\
  xcopied 2 [{| Offset := 10; Size := 0; Data := [x78] |}] [x61; x62; x63]
    = Some ([x61; x62; x63], 3%Z, Some io.ErrUnexpectedEOF) /\
  (let? (rd, _, _, _) :=
     opreader_Read 2 (Reader [{| Offset := 10; Size := 0; Data := [x78] |}]
                        (io.NewReader [x61; x62; x63])) (replicate 8 x00) in
   let? (_, _, n, err) := opreader_Read 2 rd (replicate 8 x00) in
   Some (n, err)) = Some (0, Some io.EOF).
Proof. repeat split; vm_compute; reflexivity. Qed.

(** ** Bytes of the caller's buffer beyond the count *)

(** C10.  A call of [Read] that changes the caller's buffer beyond the
    count it returns.  The op discards the first two bytes of a 3-byte
    source; the buffer has 4097 bytes, one more than the scratch buffer, so
    the skipped bytes are read into the buffer itself.  The call returns
    [n = 1]; the byte at index 1 was [0x00] and is now the skipped source
    byte [0x42]; the scratch buffer of the reader is as it was. *)
Theorem Read_writes_past_count :
  exists (ops : FileOps) (input p : list byte) rd p' n err,
    valid ops /\ within ops input /\
    opreader_Read 3 (Reader ops (io.NewReader input)) p = Some (rd, p', n, err) /\
    length (tmp (Reader ops (io.NewReader input))) < length p /\
    n = 1 /\ p !! 1 = Some x00 /\ p' !! 1 = Some x42 /\ input !! 1 = Some x42 /\
    tmp rd = tmp (Reader ops (io.NewReader input)).
Proof.
  exists [{| Offset := 0; Size := 2; Data := [] |}], [x41; x42; x43], (replicate 4097 x00).
  destruct (opreader_Read 3 (Reader [{| Offset := 0; Size := 2; Data := [] |}]
                              (io.NewReader [x41; x42; x43])) (replicate 4097 x00))
    as [[[[rd p'] n] err]|] eqn:E; [|by vm_compute in E].
  exists rd, p', n, err.
  split; [ops_facts|]. split; [ops_facts|].
  split; [done|].
  vm_compute in E. injection E as <- <- <- <-.
  repeat split; vm_compute; (reflexivity || lia).
Qed.

(** ** Ops that are not in order *)

Lemma discard_loop_done {R} `{!io.Reader R} fuel gas (src : R) ro end_ t err :
  (end_ <= ro)%Z -> discard_loop fuel gas src ro end_ t err = Some (src, ro, t, err).
Proof.
  intros Hle. destruct gas; cbn [discard_loop];
    destruct (Z.ltb_spec ro end_); (lia || done).
Qed.

(** An op whose range ends before the position that the reader has reached
    is never left: the loop of [Read] runs without end. *)
Lemma read_loop_stuck {R} `{!io.Reader R} gas : forall fuel (rd : opreader R) buf n o,
  ops rd !! i rd = Some o ->
  (0 <= Offset o <= ro rd)%Z -> (ro rd <= max_int64)%Z ->
  (0 <= Size o)%Z -> (op_end o < ro rd)%Z ->
  do rd = length (Data o) ->
  read_loop fuel gas rd buf n = None.
Proof.
  induction gas as [|gas IH]; intros fuel rd buf n o Hlook Hoff Hmax Hsz Hend Hdo;
    cbn [read_loop]; rewrite Hlook; [done|].
  rewrite wrap64_id by (unfold max_int64 in *; lia).
  destruct (Z.ltb_spec 0 (Offset o - ro rd)) as [?|_]; [lia|].
  destruct (Z.ltb_spec (ro rd) (Offset o)) as [?|_]; [lia|].
  cbv [io.copy]. cbn beta iota zeta.
  rewrite (length_drop (Data o)), Hdo, Nat.sub_diag, Nat.min_0_r, Nat.add_0_r, Nat.ltb_irrefl.
  rewrite wrap64_id by (unfold op_end, max_int64 in *; lia).
  rewrite discard_loop_done by (unfold op_end in *; lia).
  destruct (Z.eqb_spec (ro rd) (Offset o + Size o)) as [?|_]; [unfold op_end in *; lia|].
  eapply IH; cbn [r ops ro i do tmp]; eauto.
Qed.

(** C6, as the sources have it.  There is no constructor that validates:
    [FileOps.Reader] takes any list of ops, valid or not, and gives a reader
    over that very list, at the start of the source. *)
Theorem Reader_accepts_any_ops {R : Type} (ops : FileOps) (src : R) :
  metadata.ops (Reader ops src) = ops /\ r (Reader ops src) = src /\
  ro (Reader ops src) = 0%Z /\ i (Reader ops src) = 0 /\ do (Reader ops src) = 0 /\
  length (tmp (Reader ops src)) = 4096.
Proof. repeat split. Qed.

(** Two ops on the same bytes: after the first the reader is past the end
    of the second, whatever its scratch buffer. *)
Lemma overlapping_ops_stuck fuel gas t :
  2 <= fuel -> 0 < length t ->
  read_loop fuel (S gas)
    {| r := io.NewReader [x41; x42; x43];
       ops := [{| Offset := 0; Size := 2; Data := [] |};
               {| Offset := 0; Size := 1; Data := [] |}];
       ro := 0; i := 0; do := 0; tmp := t |} [x00] 0 = None.
Proof.
  intros Hfuel Ht.
  cbn [read_loop r metadata.ops ro i do tmp lookup list_lookup Offset Size Data].
  change (wrap64 (0 - 0)) with 0%Z. change (wrap64 (0 + 2)) with 2%Z.
  rewrite !Z.ltb_irrefl.
  cbv [io.copy]. cbn [drop length Nat.min Nat.add take app Nat.sub].
  change (0 <? 0) with false. cbn iota.
  destruct (Nat.ltb_spec (length t) 1) as [?|_]; [lia|]. cbn [negb].
  destruct (discard_loop_source fuel fuel (io.NewReader [x41; x42; x43]) 0 2 t)
    as (src' & t' & -> & _ & Hlen); [lia|by unfold max_int64|simpl; lia|done|lia|].
  cbn [Z.eqb Pos.eqb].
  eapply read_loop_stuck; cbn [r metadata.ops ro i do tmp lookup list_lookup]; done.
Qed.

(** C6, the claim as stated fails: two ops on the same bytes are neither
    ascending nor disjoint, [Reader] takes them, and the first call of
    [Read] then never returns. *)
Lemma overlapping_ops_not_rejected :
  let ops := [{| Offset := 0; Size := 2; Data := [] |};
              {| Offset := 0; Size := 1; Data := [] |}] in
  ~ ascending ops /\ ~ disjoint ops /\
  metadata.ops (Reader ops (io.NewReader [x41; x42; x43])) = ops /\
  forall fuel,
    opreader_Read fuel (Reader ops (io.NewReader [x41; x42; x43])) [x00] = None.
Proof.
  intros ops. split; [|split; [|split]].
  - intros [H _]. apply Forall_cons in H as [H _]. simpl in H. lia.
  - intros [H _]. apply Forall_cons in H as [H _]. unfold op_end in H. simpl in H. lia.
  - done.
  - intros [|[|fuel]]; [vm_compute; reflexivity|vm_compute; reflexivity|].
    unfold opreader_Read, Reader, ops. apply overlapping_ops_stuck; [lia|].
    rewrite length_replicate. lia.
Qed.

(** ** Copying from an in-memory source *)

Lemma copyBuffer_bytes_returns {W} `{!io.Writer W} gas : forall fuel (dst : W) s buf written,
  0 < length buf -> length s < gas ->
  exists res, io.copyBuffer fuel gas dst (io.NewReader s) buf written = Some res.
Proof.
  induction gas as [|gas IH]; intros fuel dst s buf written Hbuf Hgas; [lia|].
  cbn [io.copyBuffer].
  destruct s as [|b s].
  - rewrite Read_bytes_empty. cbn. eauto.
  - rewrite Read_bytes_nonempty by done.
    set (nr := length buf `min` length (b :: s)).
    assert (0 < nr) by (unfold nr; simpl; lia).
    destruct (Nat.ltb_spec 0 nr) as [_|?]; [|lia].
    destruct (io.Write dst _) as [[dst' nw] ew].
    destruct ((nw <? 0)%Z || (Z.of_nat nr <? nw)%Z).
    + destruct ew; eauto.
    + destruct ew; [eauto|].
      destruct (negb (Z.of_nat nr =? nw)%Z); [eauto|].
      apply IH.
      * rewrite length_app, length_take, length_drop. lia.
      * rewrite length_drop. simpl in *. lia.
Qed.

Lemma copyBuffer_bytes_buffer gas : forall fuel w s buf written,
  0 < length buf -> length s < gas -> wrap64 written = written ->
  io.copyBuffer fuel gas (io.NewBuffer w) (io.NewReader s) buf written =
  Some (io.NewBuffer (w ++ s), io.NewReader [],
        wrap64 (written + Z.of_nat (length s)), None).
Proof.
  induction gas as [|gas IH]; intros fuel w s buf written Hbuf Hgas Hwr; [lia|].
  cbn [io.copyBuffer].
  destruct s as [|b s].
  - rewrite Read_bytes_empty. cbn. by rewrite app_nil_r, Z.add_0_r, Hwr.
  - rewrite Read_bytes_nonempty by done.
    set (nr := length buf `min` length (b :: s)).
    assert (0 < nr <= length (b :: s)) by (unfold nr; simpl; lia).
    destruct (Nat.ltb_spec 0 nr) as [_|?]; [|lia].
    rewrite take_app_length' by (rewrite length_take; lia).
    rewrite Write_bytesBuffer, length_take, Nat.min_l by lia.
    destruct (Z.ltb_spec (Z.of_nat nr) 0) as [?|_]; [lia|].
    rewrite Z.ltb_irrefl. cbn [orb]. rewrite Z.eqb_refl. cbn [negb].
    rewrite IH.
    + rewrite <- app_assoc, take_drop, wrap64_add_l, length_drop.
      do 4 f_equal. lia.
    + rewrite length_app, length_take, length_drop. lia.
    + rewrite length_drop. simpl in *. lia.
    + apply wrap64_idemp.
Qed.

(** ** The scan loop of exif.Copy *)

Lemma scan_chunk_locals g l c :
  exif.jfifChunk (exif.scan_chunk g l c).2 = exif.jfifChunk l /\
  exif.jfxxChunk (exif.scan_chunk g l c).2 = exif.jfxxChunk l.
Proof. unfold exif.scan_chunk. repeat case_match; done. Qed.

Lemma scan_locals j : forall g l,
  exif.jfifChunk (exif.scan j g l).1.2 = exif.jfifChunk l /\
  exif.jfxxChunk (exif.scan j g l).1.2 = exif.jfxxChunk l.
Proof.
  induction j as [e rest|c rest next IH]; intros g l; cbn [exif.scan].
  - by destruct (exif.has l <? 3).
  - destruct (exif.has l <? 3); [|done]. destruct c as [e|c]; [done|].
    pose proof (scan_chunk_locals g l c) as [H1 H2].
    destruct (exif.scan_chunk g l c) as [g1 l1]. simpl in *.
    destruct (IH g1 l1) as [H3 H4]. split; congruence.
Qed.

Lemma scan_chunk_jfif g l c :
  exif.jfifChunkHeader (exif.scan_chunk g l c).1 =
  if bool_decide (exif.jfifChunk l = None) && exif.cmpChunkHeader c (exif.jfifChunkHeader g)
  then c else exif.jfifChunkHeader g.
Proof. unfold exif.scan_chunk. repeat case_match; done. Qed.

Lemma scan_chunk_jfxx g l c :
  exif.jfxxChunkHeader (exif.scan_chunk g l c).1 =
  if negb (bool_decide (exif.jfifChunk l = None) &&
           exif.cmpChunkHeader c (exif.jfifChunkHeader g)) &&
     bool_decide (exif.jfxxChunk l = None) &&
     exif.cmpChunkHeader c (exif.jfxxChunkHeader g)
  then c else exif.jfxxChunkHeader g.
Proof.
  unfold exif.scan_chunk.
  destruct (bool_decide (exif.jfifChunk l = None)), (exif.cmpChunkHeader c (exif.jfifChunkHeader g)),
    (bool_decide (exif.jfxxChunk l = None)), (exif.cmpChunkHeader c (exif.jfxxChunkHeader g)),
    (negb (exif.hasExif l) && exif.cmpChunkHeader c (exif.exifChunkHeader g)); done.
Qed.

(** After the scan each header variable holds what it held before, or one
    of the chunks of the stream. *)
Lemma scan_headers j : forall g l,
  (exif.jfifChunkHeader (exif.scan j g l).1.1.2 = exif.jfifChunkHeader g \/
   In (exif.jfifChunkHeader (exif.scan j g l).1.1.2) (Scanner_chunks j)) /\
  (exif.jfxxChunkHeader (exif.scan j g l).1.1.2 = exif.jfxxChunkHeader g \/
   In (exif.jfxxChunkHeader (exif.scan j g l).1.1.2) (Scanner_chunks j)).
Proof.
  induction j as [e rest|c rest next IH]; intros g l; cbn [exif.scan].
  - destruct (exif.has l <? 3); split; by left.
  - destruct (exif.has l <? 3); [|split; by left].
    destruct c as [e|c]; [split; by left|].
    pose proof (scan_chunk_jfif g l c) as H1.
    pose proof (scan_chunk_jfxx g l c) as H2.
    destruct (exif.scan_chunk g l c) as [g1 l1]. simpl in H1, H2.
    destruct (IH g1 l1) as [Ha Hb]. cbn [Scanner_chunks]. split.
    + destruct Ha as [Ha|Ha]; [|right; by right].
      rewrite Ha, H1.
      destruct (bool_decide (exif.jfifChunk l = None) &&
                exif.cmpChunkHeader c (exif.jfifChunkHeader g)); [right; by left|by left].
    + destruct Hb as [Hb|Hb]; [|right; by right].
      rewrite Hb, H2.
      destruct (negb (bool_decide (exif.jfifChunk l = None) &&
                      exif.cmpChunkHeader c (exif.jfifChunkHeader g)) &&
                bool_decide (exif.jfxxChunk l = None) &&
                exif.cmpChunkHeader c (exif.jfxxChunkHeader g)); [right; by left|by left].
Qed.

Lemma scan_jfif_matched j : forall g l,
  jfif_matched j g l = true ->
  In (exif.jfifChunkHeader (exif.scan j g l).1.1.2) (Scanner_chunks j).
Proof.
  induction j as [e rest|c rest next IH]; intros g l; cbn [exif.scan jfif_matched].
  - by destruct (exif.has l <? 3).
  - destruct (exif.has l <? 3); [|done]. destruct c as [e|c]; [done|].
    pose proof (scan_chunk_jfif g l c) as H1.
    destruct (exif.scan_chunk g l c) as [g1 l1]. simpl in H1.
    cbn [Scanner_chunks].
    destruct (bool_decide (exif.jfifChunk l = None) &&
              exif.cmpChunkHeader c (exif.jfifChunkHeader g)).
    + intros _. destruct (scan_headers next g1 l1) as [[Ha|Ha] _].
      * left. by rewrite Ha, H1.
      * by right.
    + intros Hm. right. by apply IH.
Qed.

Lemma scan_jfxx_matched j : forall g l,
  jfxx_matched j g l = true ->
  In (exif.jfxxChunkHeader (exif.scan j g l).1.1.2) (Scanner_chunks j).
Proof.
  induction j as [e rest|c rest next IH]; intros g l; cbn [exif.scan jfxx_matched].
  - by destruct (exif.has l <? 3).
  - destruct (exif.has l <? 3); [|done]. destruct c as [e|c]; [done|].
    pose proof (scan_chunk_jfxx g l c) as H1.
    destruct (exif.scan_chunk g l c) as [g1 l1]. simpl in H1.
    cbn [Scanner_chunks].
    destruct (negb (bool_decide (exif.jfifChunk l = None) &&
                    exif.cmpChunkHeader c (exif.jfifChunkHeader g)) &&
              bool_decide (exif.jfxxChunk l = None) &&
              exif.cmpChunkHeader c (exif.jfxxChunkHeader g)).
    + intros _. destruct (scan_headers next g1 l1) as [_ [Ha|Ha]].
      * left. by rewrite Ha, H1.
      * by right.
    + intros Hm. right. by apply IH.
Qed.

(** ** exif.Copy and the package variables *)

Lemma Copy_vars {W} `{!io.Writer W} (WriteChunk : W -> byte -> list byte -> W * option io.error)
    fuel g (dst : W) j (x : option (list byte)) :
  length (io.unread (exif.Scanner_Reader (exif.scan j g exif.locals0).1.1.1)) < fuel ->
  exists w' out,
    exif.Copy WriteChunk fuel g dst (inr j) (inr <$> x)
    = Some ((exif.scan j g exif.locals0).1.1.2, w', out).
Proof.
  intros Hfuel. unfold exif.Copy.
  destruct (exif.scan j g exif.locals0) as [[[j' g'] l] e]. cbn [fst snd] in *.
  destruct (exif.Scanner_Reader j') as [s]. cbn [io.unread] in Hfuel.
  assert (Hx : forall (T : Type) (a : io.error -> T) (b : T),
            match inr <$> x with Some (inl e0) => a e0 | _ => b end = b).
  { intros. by destruct x. }
  rewrite Hx. clear Hx.
  destruct e; [eauto|]. destruct (exif.Scanner_Err j'); [eauto|].
  destruct (exif.chunks l) as [|chunk0 others]; [eauto|].
  match goal with |- context [match ?s with Some d => _ | None => _ end] =>
    destruct s as [d|] end.
  - destruct (WriteChunk _ _ _) as [w1 [e1|]]; [eauto|].
    match goal with |- context [exif.err ?ww] => destruct (exif.err ww) end; [eauto|].
    unfold io.Copy.
    edestruct (copyBuffer_bytes_returns fuel fuel) as ([[[w2 r2] n2] e2] & ->);
      [|exact Hfuel|eauto].
    rewrite length_replicate. lia.
  - match goal with |- context [exif.err ?ww] => destruct (exif.err ww) end; [eauto|].
    unfold io.Copy.
    edestruct (copyBuffer_bytes_returns fuel fuel) as ([[[w2 r2] n2] e2] & ->);
      [|exact Hfuel|eauto].
    rewrite length_replicate. lia.
Qed.

(** C7.  [Copy] compares the chunks with the header patterns held in the
    package variables, and a chunk that matches is assigned to that very
    variable: [jfifChunkHeader] in the first case of the switch,
    [jfxxChunkHeader] in the second.  So after a call in which the scan
    matched a chunk, the variable holds a chunk of that stream, and no longer
    its pattern (unless the stream has a chunk that is the pattern byte for
    byte).  The variables are those of the process: the next call starts
    from them. *)
Theorem Copy_reassigns_header_variables {W} `{!io.Writer W}
    (WriteChunk : W -> byte -> list byte -> W * option io.error)
    (fuel : nat) (g : exif.vars) (dst : W) (j : exif.Scanner) (x : option (list byte)) :
  length (io.unread (exif.Scanner_Reader (exif.scan j g exif.locals0).1.1.1)) < fuel ->
  (forall g l c,
     exif.jfifChunk l = None -> exif.cmpChunkHeader c (exif.jfifChunkHeader g) = true ->
     exif.jfifChunkHeader (exif.scan_chunk g l c).1 = c) /\
  (forall g l c,
     exif.cmpChunkHeader c (exif.jfifChunkHeader g) = false ->
     exif.jfxxChunk l = None -> exif.cmpChunkHeader c (exif.jfxxChunkHeader g) = true ->
     exif.jfxxChunkHeader (exif.scan_chunk g l c).1 = c) /\
  exists g' w' out,
    exif.Copy WriteChunk fuel g dst (inr j) (inr <$> x) = Some (g', w', out) /\
    (jfif_matched j g exif.locals0 = true ->
       In (exif.jfifChunkHeader g') (Scanner_chunks j) /\
       (~ In (exif.jfifChunkHeader g) (Scanner_chunks j) ->
        exif.jfifChunkHeader g' <> exif.jfifChunkHeader g)) /\
    (jfxx_matched j g exif.locals0 = true ->
       In (exif.jfxxChunkHeader g') (Scanner_chunks j) /\
       (~ In (exif.jfxxChunkHeader g) (Scanner_chunks j) ->
        exif.jfxxChunkHeader g' <> exif.jfxxChunkHeader g)).
Proof.
  intros Hfuel. split; [|split].
  - intros g0 l c Hl Hc. by rewrite scan_chunk_jfif, Hl, Hc.
  - intros g0 l c Hc1 Hl Hc. rewrite scan_chunk_jfxx, Hc1, Hl, Hc.
    by rewrite andb_false_r.
  - destruct (Copy_vars WriteChunk fuel g dst j x Hfuel) as (w' & out & ->).
    do 3 eexists. split; [done|]. split.
    + intros Hm. apply scan_jfif_matched in Hm. split; [done|]. congruence.
    + intros Hm. apply scan_jfxx_matched in Hm. split; [done|]. congruence.
Qed.

(** A stream with a start marker, a JFIF chunk and a table chunk, and image
    data after them. *)
Lemma Copy_reassigns_header_variables_witness :
  exists g' w' out,
    exif.Copy (fun (w : io.bytesBuffer) _ _ => (w, None)) 5 exif.init (io.NewBuffer [])
      (inr (exif.Seg (inr [xff; xd8]) []
             (exif.Seg (inr [xff; xe0; x00; x10; x4a; x46; x49; x46; x00;
                             x01; x01; x00; x00; x01; x00; x01; x00; x00]) []
               (exif.Seg (inr [xff; xdb; x00; x03; x00]) []
                 (exif.Stop None [xff; xda; x00])))))
      None
    = Some (g', w', out) /\
    exif.jfifChunkHeader g' <> exif.jfifChunkHeader exif.init.
Proof.
  destruct (Copy_reassigns_header_variables
              (fun (w : io.bytesBuffer) _ _ => (w, None)) 5 exif.init (io.NewBuffer [])
              (exif.Seg (inr [xff; xd8]) []
                (exif.Seg (inr [xff; xe0; x00; x10; x4a; x46; x49; x46; x00;
                                x01; x01; x00; x00; x01; x00; x01; x00; x00]) []
                  (exif.Seg (inr [xff; xdb; x00; x03; x00]) []
                    (exif.Stop None [xff; xda; x00])))) None)
    as (_ & _ & g' & w' & out & Hcopy & Hjfif & _).
  - vm_compute. lia.
  - exists g', w', out. split; [exact Hcopy|].
    apply Hjfif; [reflexivity|].
    simpl. intros [H|[H|[H|[]]]]; discriminate H.
Defined.

(** ** What exif.Copy writes *)

Lemma errw_write_buffer a e p :
  exif.errw_write {| exif.w := io.NewBuffer a; exif.err := e |} p
  = {| exif.w := io.NewBuffer (a ++ p); exif.err := None |}.
Proof. unfold exif.errw_write. cbn [exif.w]. by rewrite Write_bytesBuffer. Qed.

Lemma foldl_errw_write_buffer others : forall a,
  foldl exif.errw_write {| exif.w := io.NewBuffer a; exif.err := None |} others
  = {| exif.w := io.NewBuffer (a ++ concat others); exif.err := None |}.
Proof.
  induction others as [|c others IH]; intros a; simpl.
  - by rewrite app_nil_r.
  - by rewrite errw_write_buffer, IH, app_assoc.
Qed.

(** C8.  A chunk that the switch takes in the JFIF or in the JFXX case is
    assigned to the package variable and to nothing else: the chunk list and
    the locals [jfifChunk] and [jfxxChunk] stay as they are.  Both locals
    are therefore still nil after the scan, their two writes are writes of
    no bytes, and what [Copy] sends to the destination is the first chunk of
    the list, the Exif chunk if there is one, the other chunks of the list
    and the unread rest: no matched chunk is among them. *)
Theorem Copy_writes_no_matched_chunk
    (WriteChunk : io.bytesBuffer -> byte -> list byte -> io.bytesBuffer * option io.error)
    (fuel : nat) (g : exif.vars) (w0 : list byte) (j : exif.Scanner)
    (x : option (list byte)) :
  (forall g l c,
     exif.jfifChunk l = None -> exif.cmpChunkHeader c (exif.jfifChunkHeader g) = true ->
     exif.scan_chunk g l c =
     ({| exif.jfifChunkHeader := c;
         exif.jfxxChunkHeader := exif.jfxxChunkHeader g;
         exif.exifChunkHeader := exif.exifChunkHeader g |},
      {| exif.chunks := exif.chunks l; exif.jfifChunk := None;
         exif.jfxxChunk := exif.jfxxChunk l; exif.hasExif := exif.hasExif l;
         exif.has := S (exif.has l) |})) /\
  (forall g l c,
     exif.cmpChunkHeader c (exif.jfifChunkHeader g) = false ->
     exif.jfxxChunk l = None -> exif.cmpChunkHeader c (exif.jfxxChunkHeader g) = true ->
     exif.scan_chunk g l c =
     ({| exif.jfifChunkHeader := exif.jfifChunkHeader g;
         exif.jfxxChunkHeader := c;
         exif.exifChunkHeader := exif.exifChunkHeader g |},
      {| exif.chunks := exif.chunks l; exif.jfifChunk := exif.jfifChunk l;
         exif.jfxxChunk := None; exif.hasExif := exif.hasExif l;
         exif.has := S (exif.has l) |})) /\
  let '(j', g', l, e) := exif.scan j g exif.locals0 in
  exif.jfifChunk l = None /\ exif.jfxxChunk l = None /\
  (e = None -> exif.Scanner_Err j' = None ->
   length (io.unread (exif.Scanner_Reader j')) < fuel ->
   forall chunk0 others, exif.chunks l = chunk0 :: others ->
   exif.Copy WriteChunk fuel g (io.NewBuffer w0) (inr j) (inr <$> x) =
   match x with
   | None =>
     Some (g', io.NewBuffer (w0 ++ chunk0 ++ concat others ++
                             io.unread (exif.Scanner_Reader j')),
           exif.Return None)
   | Some d =>
     let '(w1, e1) := WriteChunk (io.NewBuffer (w0 ++ chunk0)) xe1 d in
     match e1 with
     | Some e => Some (g', w1, exif.Return (Some e))
     | None =>
       Some (g', io.NewBuffer (io.contents w1 ++ concat others ++
                               io.unread (exif.Scanner_Reader j')),
             exif.Return None)
     end
   end).
Proof.
  split; [|split].
  - intros g0 l c Hl Hc. unfold exif.scan_chunk. by rewrite Hl, Hc.
  - intros g0 l c Hc1 Hl Hc. unfold exif.scan_chunk. rewrite Hc1, Hl, Hc.
    by rewrite andb_false_r.
  - pose proof (scan_locals j g exif.locals0) as [Hl1 Hl2].
    unfold exif.Copy.
    destruct (exif.scan j g exif.locals0) as [[[j' g'] l] e]. cbn [fst snd] in *.
    split; [done|]. split; [done|].
    intros -> -> Hfuel chunk0 others ->.
    rewrite Hl1, Hl2. cbn [default exif.locals0 exif.jfifChunk exif.jfxxChunk].
    rewrite !errw_write_buffer, !app_nil_r.
    destruct (exif.Scanner_Reader j') as [s]. cbn [io.unread] in *.
    assert (Hcopy : forall a,
      io.Copy fuel (io.NewBuffer a) (io.NewReader s)
      = Some (io.NewBuffer (a ++ s), io.NewReader [],
              wrap64 (0 + Z.of_nat (length s)), None)).
    { intros a. unfold io.Copy. apply copyBuffer_bytes_buffer; [|done|done].
      rewrite length_replicate. lia. }
    destruct x as [d|]; cbn [fmap option_fmap option_map].
    + cbn [exif.w exif.err].
      destruct (WriteChunk (io.NewBuffer (w0 ++ chunk0)) xe1 d) as [[a1] [e1|]]; [done|].
      rewrite foldl_errw_write_buffer. cbn [exif.w exif.err io.contents].
      by rewrite Hcopy, <- app_assoc.
    + rewrite foldl_errw_write_buffer. cbn [exif.w exif.err].
      by rewrite Hcopy, <- !app_assoc.
Qed.

Lemma Copy_writes_no_matched_chunk_witness :
  exif.Copy (fun (w : io.bytesBuffer) _ _ => (w, None)) 5 exif.init (io.NewBuffer [])
    (inr (exif.Seg (inr [xff; xd8]) []
           (exif.Seg (inr [xff; xe0; x00; x10; x4a; x46; x49; x46; x00;
                           x01; x01; x00; x00; x01; x00; x01; x00; x00]) []
             (exif.Seg (inr [xff; xdb; x00; x03; x00]) []
               (exif.Stop None [xff; xda; x00])))))
    None
  = Some ({| exif.jfifChunkHeader := [xff; xe0; x00; x10; x4a; x46; x49; x46; x00;
                                      x01; x01; x00; x00; x01; x00; x01; x00; x00];
             exif.jfxxChunkHeader := exif.jfxxChunkHeader exif.init;
             exif.exifChunkHeader := exif.exifChunkHeader exif.init |},
          io.NewBuffer [xff; xd8; xff; xdb; x00; x03; x00; xff; xda; x00],
          exif.Return None).
Proof.
  pose proof (Copy_writes_no_matched_chunk
                (fun (w : io.bytesBuffer) _ _ => (w, None)) 5 exif.init []
                (exif.Seg (inr [xff; xd8]) []
                  (exif.Seg (inr [xff; xe0; x00; x10; x4a; x46; x49; x46; x00;
                                  x01; x01; x00; x00; x01; x00; x01; x00; x00]) []
                    (exif.Seg (inr [xff; xdb; x00; x03; x00]) []
                      (exif.Stop None [xff; xda; x00])))) None) as (_ & _ & H).
  set (sc := exif.scan _ _ _) in H. vm_compute in sc. subst sc.
  cbv beta iota zeta in H. destruct H as (_ & _ & H).
  refine (H eq_refl eq_refl _ _ _ eq_refl). simpl. lia.
Defined.

(** ** One call of Read, as its caller sees it *)

(** X1.  One call of [Read] on a reader in a consistent state, with a
    buffer of at least one byte: the call returns, it gives the next
    [n <= len p] bytes of what the reader has still to produce, the state
    stays consistent, the only error is [EOF], [EOF] comes only when nothing
    is left to produce, and the call never returns [0, nil]. *)
Theorem Read_makes_progress {R} `{!io.Reader R} `{!Source R} (rd : opreader R)
    (p : list byte) (fuel : nat) :
  wf rd -> 1 <= length p ->
  length (ops rd) < fuel -> length (remaining (r rd)) <= fuel ->
  exists rd' p' n err,
    opreader_Read fuel rd p = Some (rd', p', n, err) /\
    wf rd' /\ length p' = length p /\ n <= length p /\
    pending rd = take n p' ++ pending rd' /\
    (err = None \/ err = Some io.EOF /\ pending rd' = []) /\
    (n = 0 -> err = Some io.EOF).
Proof.
  intros Hwf Hp Hops Hrem.
  destruct (read_loop_source fuel fuel rd p 0)
    as (rd' & p' & n' & err & out & Heq & Hwf' & _ & _ & Hlen & Htake & Hpend & Hn
        & Hn' & Herr & Hnil & Hprog & _);
    [done|lia|rewrite length_drop; lia|done|].
  simpl in Htake, Hn. subst n'.
  exists rd', p', (length out), err.
  split; [exact Heq|]. split; [done|]. split; [done|]. split; [done|].
  split; [by rewrite Htake|]. split; [done|].
  intros Hz. destruct out; [|done].
  destruct (pending rd) eqn:E; [apply Hnil; [done|lia]|].
  exfalso. apply Hprog; [lia|done|done].
Qed.

Lemma Read_makes_progress_witness :
  exists rd' p' n err,
    opreader_Read 5 (Reader [{| Offset := 1; Size := 1; Data := [x78; x79] |}]
                       (io.OneByteReader (io.NewReader [x41; x42; x43]))) [x00; x00]
    = Some (rd', p', n, err) /\
    wf rd' /\ length p' = 2 /\ n <= 2 /\
    [x41; x78; x79; x43] = take n p' ++ pending rd' /\
    (err = None \/ err = Some io.EOF /\ pending rd' = []) /\
    (n = 0 -> err = Some io.EOF).
Proof.
  refine (Read_makes_progress
            (Reader [{| Offset := 1; Size := 1; Data := [x78; x79] |}]
               (io.OneByteReader (io.NewReader [x41; x42; x43]))) [x00; x00] 5 _ _ _ _).
  - apply Reader_wf. simpl. unfold op_end, max_int64. simpl. lia.
  - simpl. lia.
  - simpl. lia.
  - simpl. lia.
Defined.

(** X2.  A call of [Read] with an empty buffer returns [n = 0] and loses
    nothing: what the reader has still to produce is what it was (bytes to
    skip may have been read from the source meanwhile). *)
Theorem Read_empty_buffer {R} `{!io.Reader R} `{!Source R} (rd : opreader R) (fuel : nat) :
  wf rd -> length (ops rd) < fuel -> length (remaining (r rd)) <= fuel ->
  exists rd' err,
    opreader_Read fuel rd [] = Some (rd', [], 0, err) /\
    wf rd' /\ pending rd' = pending rd /\
    (err = None \/ err = Some io.EOF /\ pending rd = []).
Proof.
  intros Hwf Hops Hrem.
  destruct (read_loop_source fuel fuel rd [] 0)
    as (rd' & p' & n' & err & out & Heq & Hwf' & _ & _ & Hlen & _ & Hpend & Hn
        & Hn' & Herr & _);
    [done|simpl; lia|rewrite length_drop; lia|done|].
  simpl in Hn', Hn, Hlen. destruct out; [|simpl in Hn; lia]. subst n'.
  destruct p'; [|done]. simpl in Hpend.
  exists rd', err. split; [exact Heq|]. split; [done|]. split; [done|].
  destruct Herr as [?|[? ?]]; [by left|right]. split; [done|congruence].
Qed.

Lemma Read_empty_buffer_witness :
  exists rd' err,
    opreader_Read 5 (Reader [{| Offset := 0; Size := 2; Data := [] |}]
                       (io.NewReader [x41; x42; x43])) []
    = Some (rd', [], 0, err) /\
    wf rd' /\ pending rd' = [x43] /\
    (err = None \/ err = Some io.EOF /\ [x43] = []).
Proof.
  refine (Read_empty_buffer
            (Reader [{| Offset := 0; Size := 2; Data := [] |}]
               (io.NewReader [x41; x42; x43])) 5 _ _ _).
  - apply Reader_wf. simpl. unfold op_end, max_int64. simpl. lia.
  - simpl. lia.
  - simpl. lia.
Defined.

(** X3.  Once [Read] has returned [EOF], every later call returns
    [0, EOF]: the end of the stream is never followed by more bytes. *)
Theorem Read_EOF_is_sticky {R} `{!io.Reader R} `{!Source R} (rd rd1 : opreader R)
    (p p1 q : list byte) (n : nat) (fuel : nat) :
  wf rd -> 1 <= length p -> 1 <= length q ->
  length (ops rd) < fuel -> length (remaining (r rd)) <= fuel ->
  opreader_Read fuel rd p = Some (rd1, p1, n, Some io.EOF) ->
  exists rd2 q',
    opreader_Read fuel rd1 q = Some (rd2, q', 0, Some io.EOF) /\
    wf rd2 /\ pending rd2 = [].
Proof.
  intros Hwf Hp Hq Hops Hrem Hread.
  destruct (read_loop_source fuel fuel rd p 0)
    as (rd' & p' & n' & err & out & Heq & Hwf' & Hops' & Hrem' & _ & _ & _ & _
        & _ & Herr & _);
    [done|lia|rewrite length_drop; lia|done|].
  unfold opreader_Read in Hread. rewrite Hread in Heq.
  injection Heq as <- <- <- <-.
  destruct Herr as [?|[_ Hdone]]; [done|].
  destruct (read_loop_source fuel fuel rd1 q 0)
    as (rd2 & q' & n2 & err2 & out2 & Heq2 & Hwf2 & _ & _ & _ & _ & Hpend2 & Hn2
        & _ & _ & Hnil & _);
    [done|lia|rewrite length_drop, Hops'; lia|lia|].
  rewrite Hdone in Hpend2. symmetry in Hpend2.
  apply app_eq_nil in Hpend2 as [-> Hp2]. simpl in Hn2. subst n2.
  rewrite (Hnil Hdone) in Heq2 by lia.
  exists rd2, q'. done.
Qed.

Lemma Read_EOF_is_sticky_witness :
  exists rd2 q',
    opreader_Read 5
      {| r := io.NewReader []; ops := [{| Offset := 0; Size := 0; Data := [x78] |}];
         ro := 0; i := 1; do := 0; tmp := replicate 4096 x00 |} [x00]
    = Some (rd2, q', 0, Some io.EOF) /\
    wf rd2 /\ pending rd2 = [].
Proof.
  refine (Read_EOF_is_sticky
            (Reader [{| Offset := 0; Size := 0; Data := [x78] |}] (io.NewReader []))
            _ [x00; x00] [x78; x00] [x00] 1 5 _ _ _ _ _ _).
  - apply Reader_wf. simpl. unfold op_end, max_int64. simpl. lia.
  - simpl. lia.
  - simpl. lia.
  - simpl. lia.
  - simpl. lia.
  - vm_compute. reflexivity.
Defined.

(** X4.  Over a source that never reads short (such as [bytes.Reader]),
    [Read] does not read short either: it returns
    [min (len p) (what is still to produce)] bytes, across op boundaries,
    so a buffer as large as the output takes all of it in one call. *)
Theorem Read_fills_buffer {R} `{!io.Reader R} `{!Source R} `{!FullSource R}
    (rd : opreader R) (p : list byte) (fuel : nat) :
  wf rd -> length (ops rd) < fuel -> length (remaining (r rd)) <= fuel ->
  exists rd' p' err,
    opreader_Read fuel rd p
    = Some (rd', p', Nat.min (length p) (length (pending rd)), err) /\
    take (Nat.min (length p) (length (pending rd))) p'
    = take (length p) (pending rd).
Proof.
  intros Hwf Hops Hrem.
  destruct (read_loop_source fuel fuel rd p 0)
    as (rd' & p' & n' & err & out & Heq & _ & _ & _ & _ & Htake & Hpend & Hn
        & _ & _ & _ & _ & Hfull);
    [done|lia|rewrite length_drop; lia|done|].
  specialize (Hfull _). rewrite Nat.sub_0_r in Hfull.
  simpl in Htake, Hn. subst n'. rewrite Hfull in Heq, Htake.
  exists rd', p', err. split; [exact Heq|].
  rewrite Htake, Hpend.
  destruct (Nat.le_ge_cases (length p) (length (pending rd))) as [Hle|Hge].
  - rewrite Nat.min_l in Hfull by done. rewrite <- Hfull. by rewrite take_app_length.
  - rewrite Nat.min_r in Hfull by done.
    rewrite Hpend, length_app in Hfull.
    assert (pending rd' = []) as -> by (destruct (pending rd'); [done|simpl in Hfull; lia]).
    rewrite app_nil_r. rewrite take_ge; [done|]. rewrite Hpend, length_app in Hge. lia.
Qed.

Lemma Read_fills_buffer_witness :
  exists rd' p' err,
    opreader_Read 5 (Reader [{| Offset := 1; Size := 1; Data := [x78; x79] |}]
                       (io.NewReader [x41; x42; x43])) [x00; x00; x00]
    = Some (rd', p', 3, err) /\
    take 3 p' = [x41; x78; x79].
Proof.
  refine (Read_fills_buffer
            (Reader [{| Offset := 1; Size := 1; Data := [x78; x79] |}]
               (io.NewReader [x41; x42; x43])) [x00; x00; x00] 5 _ _ _).
  - apply Reader_wf. simpl. unfold op_end, max_int64. simpl. lia.
  - simpl. lia.
  - simpl. lia.
Defined.

(** ** The part of the buffer that Read leaves alone *)

Lemma untouched_trans buf buf1 buf2 n n1 n2 :
  untouched buf buf1 n n1 -> untouched buf1 buf2 n1 n2 -> untouched buf buf2 n n2.
Proof.
  intros (Hn & Hl & Ht & Hd) (Hn' & Hl' & Ht' & Hd').
  split; [lia|]. split; [congruence|]. split.
  - apply (f_equal (take n)) in Ht'. rewrite !take_take in Ht'.
    rewrite !Nat.min_l in Ht' by lia. congruence.
  - rewrite Hd'. replace n2 with (n1 + (n2 - n1)) by lia.
    rewrite <- !drop_drop. by rewrite Hd.
Qed.

Lemma untouched_write (buf x : list byte) n :
  n <= length buf -> length x <= length buf - n ->
  untouched buf (take n buf ++ x ++ drop (length x) (drop n buf)) n (n + length x).
Proof.
  intros Hn Hx. split; [lia|]. split; [|split].
  - rewrite !length_app, length_take, !length_drop. lia.
  - apply take_app_length'. rewrite length_take. lia.
  - rewrite app_assoc, drop_app_length'.
    + by rewrite drop_drop.
    + rewrite length_app, length_take. lia.
Qed.

Lemma blit_read (buf s : list byte) n q m :
  n <= length buf -> m <= length (take q (drop n buf)) -> m <= length s ->
  blit buf n (take m s ++ drop m (take q (drop n buf)))
  = take n buf ++ take m s ++ drop (length (take m s)) (drop n buf).
Proof.
  intros Hn Hm Hs. unfold blit. f_equal. rewrite <- app_assoc. f_equal.
  rewrite length_take in Hm. rewrite length_drop in Hm.
  rewrite !length_app, !length_take, length_drop, length_take, length_drop.
  rewrite (Nat.min_l m) by lia.
  replace (n + (m + (q `min` (length buf - n) - m))) with (n + q `min` (length buf - n)) by lia.
  rewrite <- (take_drop (q `min` (length buf - n)) (drop n buf)) at 2.
  rewrite drop_app_le by (rewrite length_take, length_drop; lia).
  rewrite drop_drop. do 2 f_equal.
  destruct (Nat.le_ge_cases q (length buf - n)) as [Hle|Hge].
  - by rewrite Nat.min_l by done.
  - rewrite Nat.min_r by done. rewrite !take_ge; [done|by rewrite length_drop..].
Qed.

Section frame.
Context {R : Type} `{!io.Reader R} `{!Source R}.

Lemma discard_loop_length gas :
  forall fuel (src : R) ro end_ t err src' ro' t' err',
  discard_loop fuel gas src ro end_ t err = Some (src', ro', t', err') ->
  length t' = length t.
Proof.
  induction gas as [|gas IH]; intros fuel src ro end_ t err src' ro' t' err';
    cbn [discard_loop]; destruct ((ro <? end_)%Z && bool_decide (err = None));
    try done; try by intros [= <- <- <- <-].
  set (m := if (Z.of_nat (length t) <? wrap64 (end_ - ro))%Z
            then Z.of_nat (length t) else wrap64 (end_ - ro)).
  assert (Hm : Z.to_nat m <= length t).
  { unfold m. destruct (Z.ltb_spec (Z.of_nat (length t)) (wrap64 (end_ - ro))); lia. }
  destruct (Source_Read fuel src (take (Z.to_nat m) t))
    as (src1 & m1 & err1 & -> & _ & Hmq & Hmr & _).
  rewrite length_take in Hmq.
  intros Heq. apply IH in Heq. rewrite Heq.
  rewrite !length_app, length_take, !length_drop, length_take. lia.
Qed.

Lemma read_loop_untouched gas :
  forall fuel (rd : opreader R) buf n rd' buf' n' err,
  length buf <= length (tmp rd) -> n <= length buf ->
  read_loop fuel gas rd buf n = Some (rd', buf', n', err) ->
  untouched buf buf' n n' /\ length (tmp rd') = length (tmp rd).
Proof.
  induction gas as [|gas IH];
    intros fuel [src ops0 ro0 i0 do0 tmp0] buf n rd' buf' n' err Htmp Hn;
    cbn [read_loop r ops ro i do tmp] in *;
    destruct (ops0 !! i0) as [o|] eqn:Hlook; try done.
  1,3: destruct (Source_Read fuel src (drop n buf))
         as (src1 & m & e1 & -> & _ & Hmq & Hmr & _);
       rewrite length_drop in Hmq; intros [= <- <- <- <-]; split; [|done];
       replace (n + m) with (n + length (take m (remaining src)))
         by (rewrite length_take; lia);
       replace (drop m (drop n buf))
         with (drop (length (take m (remaining src))) (drop n buf))
         by (rewrite length_take; do 2 f_equal; lia);
       apply untouched_write; [done|rewrite length_take; lia].
  match goal with |- (match ?X with Some _ => _ | None => None end) = _ -> _ =>
    destruct X as [[[[[src1 ro1] buf1] n1] err1]|] eqn:HX; [|done] end.
  assert (H1 : untouched buf buf1 n n1).
  { destruct (0 <? wrap64 (Offset o - ro0))%Z.
    - set (q := if (wrap64 (Offset o - ro0) <? Z.of_nat (length buf - n))%Z
                then Z.to_nat (wrap64 (Offset o - ro0)) else length buf - n) in *.
      destruct (Source_Read fuel src (take q (drop n buf)))
        as (src2 & m & e2 & Hrd & _ & Hmq & Hmr & _).
      rewrite Hrd in HX. injection HX as <- <- <- <- <-.
      rewrite blit_read by done.
      replace (n + m) with (n + length (take m (remaining src)))
        by (rewrite length_take; lia).
      apply untouched_write; [done|].
      rewrite length_take in *. rewrite length_drop in Hmq. lia.
    - injection HX as <- <- <- <- <-. repeat split; (done || lia). }
  destruct err1 as [e|].
  { intros [= <- <- <- <-]. done. }
  destruct (ro1 <? Offset o)%Z.
  { intros [= <- <- <- <-]. done. }
  cbv [io.copy]. cbn beta iota zeta.
  set (m := length (drop n1 buf1) `min` length (drop do0 (Data o))).
  set (buf2 := take n1 buf1 ++ take m (drop do0 (Data o)) ++ drop m (drop n1 buf1)).
  assert (H2 : untouched buf buf2 n (n1 + m)).
  { eapply untouched_trans; [exact H1|].
    destruct H1 as (Hn1 & Hl1 & _).
    assert (Hm : length (take m (drop do0 (Data o))) = m) by (rewrite length_take; lia).
    unfold buf2. rewrite <- Hm at 2 3.
    apply untouched_write; [lia|]. rewrite Hm. unfold m. rewrite length_drop. lia. }
  destruct (do0 + m <? length (Data o)).
  { intros [= <- <- <- <-]. done. }
  destruct H2 as (Hn2 & Hl2 & Ht2 & Hd2).
  destruct (Nat.ltb_spec (length tmp0) (length buf2 - (n1 + m))) as [?|_]; [lia|].
  cbn [negb].
  match goal with |- (match ?X with Some _ => _ | None => None end) = _ -> _ =>
    destruct X as [[[[src3 ro3] t3] err3]|] eqn:HD; [|done] end.
  apply discard_loop_length in HD.
  destruct (ro3 =? wrap64 (Offset o + Size o))%Z; destruct err3 as [e|];
    try (intros [= <- <- <- <-]; cbn [tmp]; done);
    intros Heq; apply IH in Heq; cbn [tmp] in *; try lia;
    (destruct Heq as [Hu Ht]; split; [|congruence];
     eapply untouched_trans; [|exact Hu]; done).
Qed.

End frame.

(** X5.  With a buffer no longer than the scratch buffer of the reader
    (4096 bytes as [Reader] makes it), [Read] changes [p[0:n]] and nothing
    else: the bytes of [p] from [n] on are as they were, and the scratch
    buffer keeps its length. *)
Theorem Read_leaves_tail {R} `{!io.Reader R} `{!Source R} (rd : opreader R)
    (p : list byte) (fuel : nat) :
  wf rd -> length p <= length (tmp rd) ->
  length (ops rd) < fuel -> length (remaining (r rd)) <= fuel ->
  exists rd' p' n err,
    opreader_Read fuel rd p = Some (rd', p', n, err) /\
    n <= length p /\ length p' = length p /\ drop n p' = drop n p /\
    length (tmp rd') = length (tmp rd).
Proof.
  intros Hwf Htmp Hops Hrem.
  destruct (read_loop_source fuel fuel rd p 0)
    as (rd' & p' & n' & err & out & Heq & _);
    [done|lia|rewrite length_drop; lia|done|].
  exists rd', p', n', err. split; [exact Heq|].
  apply read_loop_untouched in Heq as [(Hn & Hl & _ & Hd) Ht]; [|done|lia].
  repeat split; (done || lia).
Qed.

Lemma Read_leaves_tail_witness :
  exists rd' p' n err,
    opreader_Read 5 (Reader [{| Offset := 0; Size := 2; Data := [] |}]
                       (io.NewReader [x41; x42; x43])) [x01; x02; x03]
    = Some (rd', p', n, err) /\
    n <= 3 /\ length p' = 3 /\ drop n p' = drop n [x01; x02; x03] /\
    length (tmp rd') = 4096.
Proof.
  destruct (Read_leaves_tail
              (Reader [{| Offset := 0; Size := 2; Data := [] |}]
                 (io.NewReader [x41; x42; x43])) [x01; x02; x03] 5)
    as (rd' & p' & n & err & H1 & H2 & H3 & H4 & H5).
  - apply Reader_wf. simpl. unfold op_end, max_int64. simpl. lia.
  - cbn [Reader tmp]. rewrite length_replicate. simpl. lia.
  - simpl. lia.
  - simpl. lia.
  - exists rd', p', n, err. cbn [Reader tmp] in H5. rewrite length_replicate in H5.
    done.
Defined.

(** ** What Copy gives as a whole *)

Lemma apply_ops_length_exact ops : forall pos s,
  fits pos ops (pos + Z.of_nat (length s)) ->
  Z.of_nat (length (apply_ops pos ops s))
  = (Z.of_nat (length s) + Z.of_nat (data_len ops) - size_sum ops)%Z.
Proof.
  induction ops as [|o ops IH]; intros pos s Hfits; cbn [apply_ops size_sum].
  - unfold data_len. simpl. lia.
  - destruct Hfits as (H1 & H2 & H3 & H4).
    pose proof (fits_le _ _ _ H4) as Hle.
    rewrite !length_app, length_take, !Nat2Z.inj_add.
    rewrite (IH (op_end o)).
    + rewrite length_drop. unfold data_len, op_end in *. simpl. lia.
    + rewrite length_drop. unfold op_end in *.
      replace (Offset o + Size o + Z.of_nat (length s - Z.to_nat (Offset o + Size o - pos)))%Z
        with (pos + Z.of_nat (length s))%Z by lia.
      done.
Qed.

Lemma Copy_patch {R} `{!io.Reader R} `{!Source R} fuel ops (src : R) w0 :
  fits 0 ops (Z.of_nat (length (remaining src))) ->
  enough ops (remaining src) <= fuel ->
  exists rd',
    metadata.Copy fuel ops (io.NewBuffer w0) src
    = Some (io.NewBuffer (w0 ++ apply_ops 0 ops (remaining src)), rd',
            wrap64 (Z.of_nat (length (apply_ops 0 ops (remaining src)))), None).
Proof.
  intros Hfits Hfuel. unfold metadata.Copy, io.Copy, enough in *.
  destruct (copyBuffer_patch fuel fuel (Reader ops src)
              (replicate (Z.to_nat 32768) x00) w0 0) as (rd' & ->).
  - by apply Reader_wf.
  - rewrite length_replicate. lia.
  - rewrite Reader_pending. lia.
  - simpl. lia.
  - simpl. lia.
  - done.
  - exists rd'. by rewrite Reader_pending.
Qed.

(** X6.  [FileOps.Copy] with valid ops on a source that holds all their
    ranges appends the patched stream to the destination, returns no error,
    and returns as the count the length of the source plus the bytes of
    data of all ops less the bytes they replace. *)
Theorem Copy_returns_patch_and_count {R} `{!io.Reader R} `{!Source R} (ops : FileOps)
    (src : R) (w0 : list byte) (fuel : nat) :
  valid ops -> within ops (remaining src) ->
  (Z.of_nat (length (remaining src) + data_len ops) <= max_int64)%Z ->
  length ops + 2 * length (remaining src) + data_len ops + 1 <= fuel ->
  exists rd',
    metadata.Copy fuel ops (io.NewBuffer w0) src
    = Some (io.NewBuffer (w0 ++ apply_ops 0 ops (remaining src)), rd',
            (Z.of_nat (length (remaining src)) + Z.of_nat (data_len ops) - size_sum ops)%Z,
            None).
Proof.
  intros Hv Hw Hmax Hfuel.
  pose proof (valid_fits _ _ Hv Hw) as Hfits.
  pose proof (apply_ops_length 0 ops (remaining src) _ Hfits) as Hlen.
  destruct (Copy_patch fuel ops src w0 Hfits) as (rd' & ->).
  { unfold enough. lia. }
  exists rd'. rewrite wrap64_id by (unfold max_int64 in *; lia).
  by rewrite (apply_ops_length_exact ops 0).
Qed.

Lemma Copy_returns_patch_and_count_witness :
  exists rd',
    metadata.Copy 20
      [{| Offset := 1; Size := 2; Data := [] |};
       {| Offset := 3; Size := 0; Data := [x75; x76] |};
       {| Offset := 4; Size := 1; Data := [x77] |}]
      (io.NewBuffer [x2d]) (io.OneByteReader (io.NewReader [x41; x42; x43; x44; x45]))
    = Some (io.NewBuffer [x2d; x41; x75; x76; x44; x77], rd', 5%Z, None).
Proof.
  refine (Copy_returns_patch_and_count
            [{| Offset := 1; Size := 2; Data := [] |};
             {| Offset := 3; Size := 0; Data := [x75; x76] |};
             {| Offset := 4; Size := 1; Data := [x77] |}]
            (io.OneByteReader (io.NewReader [x41; x42; x43; x44; x45])) [x2d] 20 _ _ _ _).
  - ops_facts.
  - ops_facts.
  - unfold data_len, max_int64. simpl. lia.
  - unfold data_len. simpl. lia.
Defined.

Lemma moved_before ops : forall pos L k,
  fits pos ops L -> (k < pos)%Z -> moved ops k = 0%Z.
Proof.
  induction ops as [|o ops IH]; intros pos L k Hfits Hk; [done|].
  destruct Hfits as (H1 & H2 & _ & H4). cbn [moved].
  rewrite (IH (op_end o) L) by (done || unfold op_end; lia).
  destruct (Z.leb_spec (op_end o) k); [unfold op_end in *; lia|done].
Qed.

Lemma apply_ops_lookup ops : forall pos s k,
  fits pos ops (pos + Z.of_nat (length s)) -> (pos <= k)%Z ->
  Forall (fun o => (k < Offset o)%Z \/ (op_end o <= k)%Z) ops ->
  (0 <= k - pos + moved ops k)%Z /\
  apply_ops pos ops s !! Z.to_nat (k - pos + moved ops k) = s !! Z.to_nat (k - pos).
Proof.
  induction ops as [|o ops IH]; intros pos s k Hfits Hk Hout; cbn [apply_ops moved].
  - rewrite Z.add_0_r. split; [lia|done].
  - destruct Hfits as (H1 & H2 & H3 & H4).
    pose proof (fits_le _ _ _ H4) as Hle.
    apply Forall_cons in Hout as [Ho Hout].
    destruct (Z.leb_spec (op_end o) k) as [Hin|Hbefore].
    + destruct (IH (op_end o) (drop (Z.to_nat (op_end o - pos)) s) k) as [Hnn Hlook].
      * rewrite length_drop. unfold op_end in *.
        replace (Offset o + Size o + Z.of_nat (length s - Z.to_nat (Offset o + Size o - pos)))%Z
          with (pos + Z.of_nat (length s))%Z by lia.
        done.
      * done.
      * done.
      * split; [unfold op_end in *; lia|].
        replace (Z.to_nat (k - pos + (Z.of_nat (length (Data o)) - Size o + moved ops k)))
          with (Z.to_nat (Offset o - pos) + (length (Data o)
                + Z.to_nat (k - op_end o + moved ops k)))
          by (unfold op_end in *; lia).
        rewrite lookup_app_r; rewrite length_take; [|unfold op_end in *; lia].
        replace (Z.to_nat (Offset o - pos) + (length (Data o) + Z.to_nat (k - op_end o + moved ops k))
                 - Z.to_nat (Offset o - pos) `min` length s)
          with (length (Data o) + Z.to_nat (k - op_end o + moved ops k))
          by (unfold op_end in *; lia).
        rewrite lookup_app_r by lia.
        replace (length (Data o) + Z.to_nat (k - op_end o + moved ops k) - length (Data o))
          with (Z.to_nat (k - op_end o + moved ops k)) by lia.
        rewrite Hlook, lookup_drop. f_equal. unfold op_end in *. lia.
    + destruct Ho as [Ho|Ho]; [|lia].
      rewrite (moved_before ops (op_end o) _ k H4) by done.
      rewrite Z.add_0_l, Z.add_0_r. split; [lia|].
      rewrite lookup_app_l by (rewrite length_take; unfold op_end in *; lia).
      apply lookup_take_lt. lia.
Qed.

(** X7.  [FileOps.Copy] leaves every source byte outside the ranges of the
    ops in the output: the byte at source position [k] is at output position
    [k] moved by the bytes that the ops ending at or before [k] gave less the
    bytes they took. *)
Theorem Copy_keeps_other_bytes {R} `{!io.Reader R} `{!Source R} (ops : FileOps)
    (src : R) (k : nat) (fuel : nat) :
  valid ops -> within ops (remaining src) ->
  Forall (fun o => (Z.of_nat k < Offset o)%Z \/ (op_end o <= Z.of_nat k)%Z) ops ->
  enough ops (remaining src) <= fuel ->
  exists out rd' written,
    metadata.Copy fuel ops (io.NewBuffer []) src
    = Some (io.NewBuffer out, rd', written, None) /\
    (0 <= Z.of_nat k + moved ops (Z.of_nat k))%Z /\
    out !! Z.to_nat (Z.of_nat k + moved ops (Z.of_nat k)) = remaining src !! k.
Proof.
  intros Hv Hw Hk Hfuel.
  pose proof (valid_fits _ _ Hv Hw) as Hfits.
  destruct (Copy_patch fuel ops src [] Hfits Hfuel) as (rd' & ->).
  do 3 eexists. split; [reflexivity|].
  destruct (apply_ops_lookup ops 0 (remaining src) (Z.of_nat k)) as [Hnn Hlook];
    [done|lia|done|].
  rewrite Z.sub_0_r, Nat2Z.id in *. done.
Qed.

Lemma Copy_keeps_other_bytes_witness :
  exists out rd' written,
    metadata.Copy 20
      [{| Offset := 1; Size := 2; Data := [] |};
       {| Offset := 3; Size := 0; Data := [x75; x76] |};
       {| Offset := 4; Size := 1; Data := [x77] |}]
      (io.NewBuffer []) (io.NewReader [x41; x42; x43; x44; x45])
    = Some (io.NewBuffer out, rd', written, None) /\
    (0 <= 3)%Z /\ out !! 3 = Some x44.
Proof.
  refine (Copy_keeps_other_bytes
            [{| Offset := 1; Size := 2; Data := [] |};
             {| Offset := 3; Size := 0; Data := [x75; x76] |};
             {| Offset := 4; Size := 1; Data := [x77] |}]
            (io.NewReader [x41; x42; x43; x44; x45]) 3 20 _ _ _ _).
  - ops_facts.
  - ops_facts.
  - repeat constructor; unfold op_end; simpl; lia.
  - unfold enough. simpl. lia.
Defined.

(** ** Undoing a patch *)

Lemma invert_patch ops : forall pos d s,
  fits pos ops (pos + Z.of_nat (length s)) ->
  apply_ops (pos + d) (invert pos d ops s) (apply_ops pos ops s) = s.
Proof.
  induction ops as [|o ops IH]; intros pos d s Hfits; [done|].
  destruct Hfits as (H1 & H2 & H3 & H4).
  pose proof (fits_le _ _ _ H4) as Hle.
  cbn [invert apply_ops Offset Size Data].
  change (op_end {| Offset := Offset o + d; Size := Z.of_nat (length (Data o));
                    Data := take (Z.to_nat (Size o)) (drop (Z.to_nat (Offset o - pos)) s) |})
    with (Offset o + d + Z.of_nat (length (Data o)))%Z.
  set (a := Z.to_nat (Offset o - pos)).
  set (e := Z.to_nat (op_end o - pos)).
  assert (Ha : length (take a s) = a) by (rewrite length_take; unfold a, op_end in *; lia).
  replace (Z.to_nat (Offset o + d - (pos + d))) with a by (unfold a; lia).
  replace (Z.to_nat (Offset o + d + Z.of_nat (length (Data o)) - (pos + d)))
    with (length (take a s ++ Data o)) by (rewrite length_app, Ha; unfold a; lia).
  rewrite (app_assoc (take a s) (Data o)), drop_app_length.
  rewrite <- (app_assoc (take a s) (Data o)), take_app_length' by done.
  replace (Offset o + d + Z.of_nat (length (Data o)))%Z
    with (op_end o + (d + Z.of_nat (length (Data o)) - Size o))%Z by (unfold op_end; lia).
  rewrite IH.
  - replace e with (a + Z.to_nat (Size o)) by (unfold a, e, op_end; lia).
    by rewrite <- drop_drop, !take_drop.
  - rewrite length_drop.
    replace (op_end o + Z.of_nat (length s - e))%Z
      with (pos + Z.of_nat (length s))%Z by (unfold e, op_end in *; lia).
    done.
Qed.

Lemma invert_fits ops : forall pos d s,
  fits pos ops (pos + Z.of_nat (length s)) ->
  (pos + d + Z.of_nat (length (apply_ops pos ops s)) <= max_int64)%Z ->
  fits (pos + d) (invert pos d ops s) (pos + d + Z.of_nat (length (apply_ops pos ops s))).
Proof.
  induction ops as [|o ops IH]; intros pos d s Hfits Hmax; cbn [invert apply_ops fits].
  - lia.
  - destruct Hfits as (H1 & H2 & H3 & H4).
    pose proof (fits_le _ _ _ H4) as Hle.
    cbn [apply_ops] in Hmax.
    rewrite !length_app, length_take in *. cbn [Offset Size Data].
    change (op_end {| Offset := Offset o + d; Size := Z.of_nat (length (Data o));
                      Data := take (Z.to_nat (Size o)) (drop (Z.to_nat (Offset o - pos)) s) |})
      with (Offset o + d + Z.of_nat (length (Data o)))%Z.
    assert (Hs : (op_end o + Z.of_nat (length (drop (Z.to_nat (op_end o - pos)) s))
                  = pos + Z.of_nat (length s))%Z).
    { rewrite length_drop. unfold op_end in *. lia. }
    split; [lia|]. split; [lia|]. split; [unfold op_end in *; lia|].
    replace (Offset o + d + Z.of_nat (length (Data o)))%Z
      with (op_end o + (d + Z.of_nat (length (Data o)) - Size o))%Z by (unfold op_end; lia).
    replace (pos + d + Z.of_nat (Z.to_nat (Offset o - pos) `min` length s
               + (length (Data o)
                  + length (apply_ops (op_end o) ops (drop (Z.to_nat (op_end o - pos)) s)))))%Z
      with (op_end o + (d + Z.of_nat (length (Data o)) - Size o)
            + Z.of_nat (length (apply_ops (op_end o) ops (drop (Z.to_nat (op_end o - pos)) s))))%Z
      by (unfold op_end in *; lia).
    apply IH.
    + by rewrite Hs.
    + unfold op_end in *. lia.
Qed.

Lemma invert_length ops : forall pos d s, length (invert pos d ops s) = length ops.
Proof. induction ops as [|o ops IH]; intros pos d s; simpl; [done|by rewrite IH]. Qed.

Lemma copied_patch fuel ops input :
  fits 0 ops (Z.of_nat (length input)) -> enough ops input <= fuel ->
  copied fuel ops input
  = Some (apply_ops 0 ops input, wrap64 (Z.of_nat (length (apply_ops 0 ops input))), None).
Proof.
  intros Hfits Hfuel. unfold copied.
  pose proof (Copy_patch fuel ops (io.NewReader input) []) as H.
  cbn [remaining bytesReader_Source io.unread] in H.
  destruct (H Hfits Hfuel) as (rd' & ->). done.
Qed.

(** X8.  A patch can be undone with [Copy] itself: the ops that put back, at
    the moved offsets, the source bytes that each op replaced give the
    original input when applied to the output. *)
Theorem Copy_undo (ops : FileOps) (input : list byte) (fuel : nat) :
  valid ops -> within ops input ->
  (Z.of_nat (length input + data_len ops) <= max_int64)%Z ->
  length ops + 2 * length input + data_len ops + 1 <= fuel ->
  exists out n1 n2,
    copied fuel ops input = Some (out, n1, None) /\
    copied fuel (invert 0 0 ops input) out = Some (input, n2, None).
Proof.
  intros Hv Hw Hmax Hfuel.
  pose proof (valid_fits _ _ Hv Hw) as Hfits.
  pose proof (apply_ops_length 0 ops input _ Hfits) as Hlen.
  pose proof (invert_patch ops 0 0 input Hfits) as Hinv.
  pose proof (invert_fits ops 0 0 input Hfits) as Hfi.
  change (0 + 0)%Z with 0%Z in Hinv, Hfi. rewrite Z.add_0_l in Hfi.
  do 3 eexists. split.
  - apply copied_patch; [done|unfold enough; lia].
  - rewrite copied_patch.
    + by rewrite Hinv.
    + apply Hfi. lia.
    + unfold enough. rewrite Hinv, invert_length. lia.
Qed.

Lemma Copy_undo_witness :
  exists out n1 n2,
    copied 20
      [{| Offset := 1; Size := 2; Data := [] |};
       {| Offset := 3; Size := 0; Data := [x75; x76] |};
       {| Offset := 4; Size := 1; Data := [x77] |}]
      [x41; x42; x43; x44; x45] = Some (out, n1, None) /\
    copied 20
      [{| Offset := 1; Size := 0; Data := [x42; x43] |};
       {| Offset := 1; Size := 2; Data := [] |};
       {| Offset := 4; Size := 1; Data := [x45] |}]
      out = Some ([x41; x42; x43; x44; x45], n2, None).
Proof.
  refine (Copy_undo
            [{| Offset := 1; Size := 2; Data := [] |};
             {| Offset := 3; Size := 0; Data := [x75; x76] |};
             {| Offset := 4; Size := 1; Data := [x77] |}]
            [x41; x42; x43; x44; x45] 20 _ _ _ _).
  - ops_facts.
  - ops_facts.
  - unfold data_len, max_int64. simpl. lia.
  - unfold data_len. simpl. lia.
Defined.

(** ** Copy on a source that ends before the first op *)

Section short_source.
Context {R : Type} `{!io.Reader R} `{!Source R}.

Lemma read_loop_before_offset fuel gas (src : R) ops0 ro0 i0 do0 tmp0 buf o :
  ops0 !! i0 = Some o -> (0 <= ro0)%Z ->
  (ro0 + Z.of_nat (length (remaining src)) < Offset o <= max_int64)%Z ->
  0 < length buf ->
  exists src' m err buf',
    read_loop fuel (S gas)
      {| r := src; ops := ops0; ro := ro0; i := i0; do := do0; tmp := tmp0 |} buf 0
    = Some ({| r := src'; ops := ops0; ro := ro0 + Z.of_nat m; i := i0; do := do0;
               tmp := tmp0 |}, buf', m, err) /\
    take m buf' = take m (remaining src) /\
    remaining src' = drop m (remaining src) /\
    length buf' = length buf /\ m <= length (remaining src) /\
    (remaining src = [] -> err = Some io.EOF /\ m = 0) /\
    (remaining src <> [] -> err = None /\ 0 < m).
Proof.
  intros Hlook Hro Hoff Hbuf.
  cbn [read_loop r ops ro i do tmp]. rewrite Hlook.
  rewrite wrap64_id by (unfold max_int64 in *; lia).
  destruct (Z.ltb_spec 0 (Offset o - ro0)) as [_|?]; [|lia].
  rewrite Nat.sub_0_r, drop_0.
  set (q := if (Offset o - ro0 <? Z.of_nat (length buf))%Z
            then Z.to_nat (Offset o - ro0) else length buf).
  assert (Hq : 0 < q <= length buf).
  { unfold q. destruct (Z.ltb_spec (Offset o - ro0) (Z.of_nat (length buf))); lia. }
  destruct (Source_Read fuel src (take q buf))
    as (src' & m & err & -> & Hrem & Hmq & Hmr & Hempty & Hnon).
  rewrite length_take in Hmq.
  assert (Hne : take q buf <> []).
  { intros E. apply (f_equal length) in E. rewrite length_take in E. simpl in E. lia. }
  rewrite wrap64_id by (unfold max_int64 in *; lia).
  assert (Hb : length (blit buf 0 (take m (remaining src) ++ drop m (take q buf)))
               = length buf).
  { unfold blit. rewrite !length_app, !length_take, !length_drop, length_take. lia. }
  assert (Ht : take m (blit buf 0 (take m (remaining src) ++ drop m (take q buf)))
               = take m (remaining src)).
  { unfold blit. rewrite take_0, app_nil_l, <- app_assoc.
    apply take_app_length'. rewrite length_take. lia. }
  exists src', m, err, (blit buf 0 (take m (remaining src) ++ drop m (take q buf))).
  rewrite Nat.add_0_l.
  split; [|split; [done|]; split; [done|]; split; [done|]; split; [done|]; split].
  - destruct (remaining src) as [|b s] eqn:Hs.
    + destruct (Hempty eq_refl) as [[_ ?]| ->]; [done|]. done.
    + destruct Hnon as [-> Hpos]; [done|]. specialize (Hpos Hne).
      destruct (Z.ltb_spec (ro0 + Z.of_nat m) (Offset o)) as [_|?]; [|simpl in *; lia].
      done.
  - intros E. destruct (Hempty E) as [[_ ?]| ->]; [done|].
    split; [done|]. rewrite E in Hmr. simpl in Hmr. lia.
  - intros E. destruct (Hnon E) as [-> Hpos]. split; [done|]. by apply Hpos.
Qed.

Lemma copyBuffer_before_offset gas :
  forall fuel (src : R) ops0 ro0 i0 do0 tmp0 buf o w written,
  ops0 !! i0 = Some o -> (0 <= ro0)%Z ->
  (ro0 + Z.of_nat (length (remaining src)) < Offset o <= max_int64)%Z ->
  0 < length buf -> length (remaining src) < gas -> 0 < fuel ->
  wrap64 written = written ->
  exists rd',
    io.copyBuffer fuel gas (io.NewBuffer w)
      {| r := src; ops := ops0; ro := ro0; i := i0; do := do0; tmp := tmp0 |} buf written
    = Some (io.NewBuffer (w ++ remaining src), rd',
            wrap64 (written + Z.of_nat (length (remaining src))), None).
Proof.
  induction gas as [|gas IH];
    intros fuel src ops0 ro0 i0 do0 tmp0 buf o w written Hlook Hro Hoff Hbuf Hgas Hfuel Hwr;
    [lia|].
  cbn [io.copyBuffer]. rewrite Read_opreader.
  destruct fuel as [|fuel]; [lia|].
  destruct (read_loop_before_offset (S fuel) fuel src ops0 ro0 i0 do0 tmp0 buf o)
    as (src' & m & err & buf' & -> & Ht & Hrem & Hlen & Hm & Hempty & Hnon); try done.
  destruct (remaining src) as [|b s] eqn:Hs.
  - destruct (Hempty eq_refl) as [-> ->]. cbn.
    eexists. change (Z.of_nat 0) with 0%Z. by rewrite app_nil_r, !Z.add_0_r, Hwr.
  - destruct Hnon as [-> Hpos]; [done|].
    destruct (Nat.ltb_spec 0 m) as [_|?]; [|lia].
    rewrite Ht, Write_bytesBuffer, length_take, Nat.min_l by done.
    destruct (Z.ltb_spec (Z.of_nat m) 0) as [?|_]; [lia|].
    rewrite Z.ltb_irrefl. cbn [orb]. rewrite Z.eqb_refl. cbn [negb].
    destruct (IH (S fuel) src' ops0 (ro0 + Z.of_nat m)%Z i0 do0 tmp0 buf' o
                (w ++ take m (b :: s)) (wrap64 (written + Z.of_nat m)))
      as (rd' & ->); try (done || lia).
    + rewrite Hrem, length_drop. lia.
    + rewrite Hrem, length_drop. lia.
    + apply wrap64_idemp.
    + exists rd'. rewrite Hrem, <- app_assoc, take_drop, wrap64_add_l, length_drop.
      do 4 f_equal. lia.
Qed.

End short_source.

(** X9.  When the source ends before the offset of the first op, whatever
    the ops are, [FileOps.Copy] copies the source as it is and returns its
    length and no error: none of the ops is applied and none is reported. *)
Theorem Copy_source_ends_before_first_offset {R} `{!io.Reader R} `{!Source R}
    (o : FileOp) (rest : FileOps) (src : R) (w0 : list byte) (fuel : nat) :
  (Z.of_nat (length (remaining src)) < Offset o <= max_int64)%Z ->
  (Z.of_nat (length (remaining src)) <= max_int64)%Z ->
  length (remaining src) < fuel ->
  exists rd',
    metadata.Copy fuel (o :: rest) (io.NewBuffer w0) src
    = Some (io.NewBuffer (w0 ++ remaining src), rd',
            Z.of_nat (length (remaining src)), None).
Proof.
  intros Hoff Hmax Hfuel. unfold metadata.Copy, io.Copy, Reader.
  destruct (copyBuffer_before_offset fuel fuel src (o :: rest) 0 0 0 (replicate 4096 x00)
              (replicate (Z.to_nat 32768) x00) o w0 0) as (rd' & ->);
    try (done || lia).
  - rewrite length_replicate. lia.
  - exists rd'. rewrite Z.add_0_l, wrap64_id by (unfold max_int64 in *; lia). done.
Qed.

Lemma Copy_source_ends_before_first_offset_witness :
  exists rd',
    metadata.Copy 5
      [{| Offset := 10; Size := 0; Data := [x78] |}; {| Offset := 11; Size := 1; Data := [] |}]
      (io.NewBuffer []) (io.OneByteReader (io.NewReader [x61; x62; x63]))
    = Some (io.NewBuffer [x61; x62; x63], rd', 3%Z, None).
Proof.
  refine (Copy_source_ends_before_first_offset
            {| Offset := 10; Size := 0; Data := [x78] |}
            [{| Offset := 11; Size := 1; Data := [] |}]
            (io.OneByteReader (io.NewReader [x61; x62; x63])) [] 5 _ _ _).
  - unfold max_int64. simpl. lia.
  - unfold max_int64. simpl. lia.
  - simpl. lia.
Defined.

(** ** A deletion inside another *)

Lemma discard_loop_result {R} `{!io.Reader R} `{!Source R} gas :
  forall fuel (src : R) ro end_ t src' ro' t' err',
  (0 <= ro <= end_)%Z -> (end_ <= max_int64)%Z ->
  (end_ - ro <= Z.of_nat (length (remaining src)))%Z -> 0 < length t ->
  discard_loop fuel gas src ro end_ t None = Some (src', ro', t', err') ->
  ro' = end_ /\ err' = None.
Proof.
  induction gas as [|gas IH]; intros fuel src ro end_ t src' ro' t' err' Hro Hend Hs Ht;
    cbn [discard_loop]; destruct (Z.ltb_spec ro end_) as [Hlt|Hge]; cbn [andb];
    rewrite ?bool_decide_true by done; try done;
    try (intros [= <- <- <- <-]; split; [lia|done]).
  rewrite wrap64_id by (unfold max_int64 in *; lia).
  set (m := if (Z.of_nat (length t) <? end_ - ro)%Z then Z.of_nat (length t) else (end_ - ro)%Z).
  assert (0 < m <= end_ - ro /\ m <= Z.of_nat (length t))%Z as (Hm1 & Hm2).
  { unfold m. destruct (Z.ltb_spec (Z.of_nat (length t)) (end_ - ro)); lia. }
  destruct (Source_Read fuel src (take (Z.to_nat m) t))
    as (src1 & m1 & err1 & -> & Hrem & Hmq & Hmr & _ & Hnon).
  rewrite length_take in Hmq.
  destruct Hnon as [-> Hpos]. { intros E. rewrite E in Hs. simpl in Hs. lia. }
  assert (0 < m1).
  { apply Hpos. intros E. apply (f_equal length) in E. rewrite length_take in E.
    simpl in E. lia. }
  rewrite wrap64_id by (unfold max_int64 in *; lia).
  apply IH; try lia.
  - rewrite Hrem, length_drop. lia.
  - rewrite !length_app, length_take, !length_drop, length_take. lia.
Qed.

(** X10.  Ops that are not in order can make [Read] run without end: with
    a deletion at offset 0 and a second deletion that ends inside it, on a
    source that has the bytes of the first, the call does not return,
    whatever the buffer and however long the loop is given. *)
Theorem Read_hangs_on_nested_deletion {R} `{!io.Reader R} `{!Source R} (src : R)
    (s1 : Z) (o2 : FileOp) (rest : FileOps) (p : list byte) (fuel : nat) :
  (0 < s1 <= max_int64)%Z -> (s1 <= Z.of_nat (length (remaining src)))%Z ->
  (0 <= Offset o2)%Z -> (0 <= Size o2)%Z -> (op_end o2 < s1)%Z -> Data o2 = [] ->
  opreader_Read fuel
    (Reader ({| Offset := 0; Size := s1; Data := [] |} :: o2 :: rest) src) p
  = None.
Proof.
  intros Hs1 Hsrc Hoff Hsz Hend Hdata.
  unfold opreader_Read, Reader.
  assert (Ht : 0 < length (replicate 4096 x00)) by (rewrite length_replicate; lia).
  revert Ht. generalize (replicate 4096 x00). intros t Ht.
  destruct fuel as [|gas]; [done|].
  cbn [read_loop r ops ro i do tmp lookup list_lookup Offset Size Data].
  change (wrap64 (0 - 0)) with 0%Z. rewrite !Z.ltb_irrefl.
  cbv [io.copy]. cbn [drop length Nat.min Nat.add take app Nat.sub].
  rewrite Nat.min_0_r, !take_0, !drop_0. cbn [app Nat.add].
  change (0 <? 0) with false. cbn iota.
  rewrite Z.add_0_l, wrap64_id by (unfold max_int64 in *; lia).
  rewrite Nat.sub_0_r.
  set (own := negb (length t <? length p)).
  set (scratch := if own then t else p).
  assert (Hscr : 0 < length scratch).
  { unfold scratch, own.
    destruct (Nat.ltb_spec (length t) (length p)) as [H1|H1]; cbn [negb]; lia. }
  destruct (discard_loop (S gas) (S gas) src 0 s1 scratch None)
    as [[[[src' ro'] t'] err']|] eqn:HD; [|done].
  apply discard_loop_result in HD as [-> ->]; try (done || lia).
  rewrite Z.eqb_refl.
  eapply read_loop_stuck; cbn [r ops ro i do tmp lookup list_lookup];
    [reflexivity|unfold op_end in *; lia|lia|done|done|by rewrite Hdata].
Qed.

Lemma Read_hangs_on_nested_deletion_witness :
  opreader_Read 1000
    (Reader [{| Offset := 0; Size := 3; Data := [] |};
             {| Offset := 1; Size := 1; Data := [] |};
             {| Offset := 4; Size := 0; Data := [x78] |}]
       (io.OneByteReader (io.NewReader [x41; x42; x43; x44; x45]))) [x00; x00]
  = None.
Proof.
  refine (Read_hangs_on_nested_deletion
            (io.OneByteReader (io.NewReader [x41; x42; x43; x44; x45])) 3
            {| Offset := 1; Size := 1; Data := [] |}
            [{| Offset := 4; Size := 0; Data := [x78] |}] [x00; x00] 1000 _ _ _ _ _ _).
  - unfold max_int64. lia.
  - simpl. lia.
  - simpl. lia.
  - simpl. lia.
  - unfold op_end. simpl. lia.
  - reflexivity.
Defined.

(** ** CopyN from an in-memory source *)

Section accepting_writer.
Context {W : Type} `{!io.Writer W}.

(** A writer that takes every write in full: [app w p] is the writer after
    the write of [p]. *)
Variable app : W -> list byte -> W.
Hypothesis Write_app : forall w p, io.Write w p = (app w p, Z.of_nat (length p), None).
Hypothesis app_nil : forall w, app w [] = w.
Hypothesis app_app : forall w p q, app (app w p) q = app w (p ++ q).

Lemma copyBuffer_limit gas : forall fuel w s N buf written,
  0 < length buf -> (0 <= N <= max_int64)%Z ->
  Z.to_nat N `min` length s < gas -> wrap64 written = written ->
  io.copyBuffer fuel gas w (io.LimitReader (io.NewReader s) N) buf written =
  Some (app w (take (Z.to_nat N) s),
        io.LimitReader (io.NewReader (drop (Z.to_nat N) s))
          (N - Z.of_nat (Z.to_nat N `min` length s)),
        wrap64 (written + Z.of_nat (Z.to_nat N `min` length s)), None).
Proof.
  induction gas as [|gas IH]; intros fuel w s N buf written Hbuf HN Hgas Hwr; [lia|].
  cbn [io.copyBuffer].
  unfold io.Read at 1, io.LimitedReader_Reader. cbn [io.lr_N io.lr_R].
  destruct (Z.leb_spec N 0) as [Hz|Hpos].
  - assert (N = 0%Z) as -> by lia. cbn.
    by rewrite app_nil, Z.add_0_r, Hwr.
  - set (k := if (N <? Z.of_nat (length buf))%Z then Z.to_nat N else length buf).
    assert (Hk : k = Z.to_nat N `min` length buf).
    { unfold k. destruct (Z.ltb_spec N (Z.of_nat (length buf))); lia. }
    destruct s as [|b s].
    + rewrite Read_bytes_empty. cbn.
      rewrite take_nil, drop_nil, app_nil, Nat.min_0_r, Z.add_0_r, Z.sub_0_r, Hwr.
      rewrite wrap64_id by (unfold max_int64 in *; lia). done.
    + rewrite Read_bytes_nonempty by done.
      rewrite length_take.
      set (m := (k `min` length buf) `min` length (b :: s)).
      assert (Hm : 0 < m /\ m <= Z.to_nat N /\ m <= length (b :: s) /\ m <= k).
      { unfold m. simpl. lia. }
      destruct (Nat.ltb_spec 0 m) as [_|?]; [|lia].
      rewrite <- app_assoc, take_app_length' by (rewrite length_take; lia).
      rewrite Write_app, length_take, Nat.min_l by lia.
      destruct (Z.ltb_spec (Z.of_nat m) 0) as [?|_]; [lia|].
      rewrite Z.ltb_irrefl. cbn [orb]. rewrite Z.eqb_refl. cbn [negb].
      rewrite wrap64_id by (unfold max_int64 in *; lia).
      rewrite IH.
      * rewrite app_app, take_take_drop, drop_drop, wrap64_add_l, length_drop.
        replace (m + Z.to_nat (N - Z.of_nat m)) with (Z.to_nat N) by lia.
        replace (N - Z.of_nat m
                 - Z.of_nat (Z.to_nat (N - Z.of_nat m) `min` (length (b :: s) - m)))%Z
          with (N - Z.of_nat (Z.to_nat N `min` length (b :: s)))%Z by lia.
        replace (written + Z.of_nat m
                 + Z.of_nat (Z.to_nat (N - Z.of_nat m) `min` (length (b :: s) - m)))%Z
          with (written + Z.of_nat (Z.to_nat N `min` length (b :: s)))%Z by lia.
        done.
      * rewrite !length_app, length_take, !length_drop, length_take. lia.
      * lia.
      * rewrite length_drop. lia.
      * apply wrap64_idemp.
Qed.

Lemma CopyN_bytes fuel w s N :
  (0 < N <= max_int64)%Z -> Z.to_nat N `min` length s < fuel ->
  io.CopyN fuel w (io.NewReader s) N =
  Some (app w (take (Z.to_nat N) s), io.NewReader (drop (Z.to_nat N) s),
        Z.of_nat (Z.to_nat N `min` length s),
        if (N <=? Z.of_nat (length s))%Z then None else Some io.EOF).
Proof.
  intros HN Hfuel. unfold io.CopyN.
  rewrite copyBuffer_limit; [| |lia|done|done].
  2:{ rewrite length_replicate.
      destruct (Z.ltb_spec N 32768); [destruct (Z.ltb_spec N 1)|]; lia. }
  cbn [io.lr_R]. rewrite Z.add_0_l.
  rewrite wrap64_id by (unfold max_int64 in *; lia).
  destruct (Z.leb_spec N (Z.of_nat (length s))) as [Hle|Hgt].
  - rewrite Nat.min_l by lia. rewrite Z2Nat.id by lia. by rewrite Z.eqb_refl.
  - rewrite Nat.min_r by lia.
    destruct (Z.eqb_spec (Z.of_nat (length s)) N) as [?|_]; [lia|].
    destruct (Z.ltb_spec (Z.of_nat (length s)) N) as [_|?]; [|lia].
    done.
Qed.

End accepting_writer.

Lemma CopyN_bytes_buffer fuel w s N :
  (0 < N <= max_int64)%Z -> Z.to_nat N `min` length s < fuel ->
  io.CopyN fuel (io.NewBuffer w) (io.NewReader s) N =
  Some (io.NewBuffer (w ++ take (Z.to_nat N) s), io.NewReader (drop (Z.to_nat N) s),
        Z.of_nat (Z.to_nat N `min` length s),
        if (N <=? Z.of_nat (length s))%Z then None else Some io.EOF).
Proof.
  apply (CopyN_bytes (fun w p => io.NewBuffer (io.contents w ++ p))).
  - by intros [c] p.
  - intros [c]. simpl. by rewrite app_nil_r.
  - intros [c] p q. simpl. by rewrite app_assoc.
Qed.

Lemma CopyN_bytes_discard fuel s N :
  (0 < N <= max_int64)%Z -> Z.to_nat N `min` length s < fuel ->
  io.CopyN fuel io.Discard (io.NewReader s) N =
  Some (io.Discard, io.NewReader (drop (Z.to_nat N) s),
        Z.of_nat (Z.to_nat N `min` length s),
        if (N <=? Z.of_nat (length s))%Z then None else Some io.EOF).
Proof.
  apply (CopyN_bytes (fun w _ => w)).
  - by intros [] p.
  - done.
  - done.
Qed.

(** ** xCopy on an in-memory source *)

Lemma xCopy_loop_head fuel o ops' w s pos written :
  (0 <= pos <= Offset o)%Z -> (Offset o <= max_int64)%Z ->
  (Offset o - pos <= Z.of_nat (length s))%Z ->
  (0 <= written)%Z ->
  (written + (Offset o - pos) + Z.of_nat (length (Data o)) <= max_int64)%Z ->
  length s < fuel ->
  xCopy_loop fuel (o :: ops') (io.NewBuffer w) (io.NewReader s) pos written =
  let w' := io.NewBuffer (w ++ take (Z.to_nat (Offset o - pos)) s ++ Data o) in
  let written' := (written + (Offset o - pos) + Z.of_nat (length (Data o)))%Z in
  let? (r, read, stop) :=
    if negb (Size o =? 0)%Z then
      let? (_, r, n, err) :=
        io.CopyN fuel io.Discard (io.NewReader (drop (Z.to_nat (Offset o - pos)) s)) (Size o) in
      Some (r, wrap64 (Offset o + n), err)
    else Some (io.NewReader (drop (Z.to_nat (Offset o - pos)) s), Offset o, None) in
  match stop with
  | Some e => Some (w', r, written', Some e)
  | None => xCopy_loop fuel ops' w' r read written'
  end.
Proof.
  intros Hpos Hoff Hs Hwr Hmax Hfuel.
  cbn [xCopy_loop].
  rewrite (wrap64_id (Offset o - pos)) by (unfold max_int64 in *; lia).
  set (a := Z.to_nat (Offset o - pos)).
  match goal with |- context [if (0 <? ?n)%Z then ?A else ?B] =>
    assert (E1 : (if (0 <? n)%Z then A else B)
                 = Some (io.NewBuffer (w ++ take a s), io.NewReader (drop a s),
                         Offset o, (written + (Offset o - pos))%Z, None)) end.
  { destruct (Z.ltb_spec 0 (Offset o - pos)) as [Hlt|Hge].
    - rewrite CopyN_bytes_buffer by (unfold max_int64 in *; lia).
      destruct (Z.leb_spec (Offset o - pos) (Z.of_nat (length s))) as [_|?]; [|lia].
      fold a. rewrite Nat.min_l by (unfold a; lia).
      rewrite !wrap64_id by (unfold max_int64, a in *; lia).
      do 3 f_equal; [f_equal; unfold a; lia|unfold a; lia].
    - assert (a = 0) as -> by (unfold a; lia).
      rewrite take_0, drop_0, app_nil_r. do 3 f_equal; [f_equal; lia|lia]. }
  rewrite E1. clear E1. cbn beta iota zeta.
  match goal with |- context [if negb (length (Data o) =? 0) then ?A else ?B] =>
    assert (E2 : (if negb (length (Data o) =? 0) then A else B)
                 = (io.NewBuffer (w ++ take a s ++ Data o),
                    (written + (Offset o - pos) + Z.of_nat (length (Data o)))%Z, None)) end.
  { destruct (Nat.eqb_spec (length (Data o)) 0) as [Hz|Hnz]; cbn [negb].
    - destruct (Data o); [|done]. simpl. by rewrite !app_nil_r, Z.add_0_r.
    - rewrite Write_bytesBuffer. rewrite Z.eqb_refl. cbn [negb].
      rewrite wrap64_id by (unfold max_int64 in *; lia).
      by rewrite <- app_assoc. }
  rewrite E2. reflexivity.
Qed.

Lemma xCopy_loop_step fuel o ops' w s pos written :
  (0 <= pos <= Offset o)%Z -> (0 <= Size o)%Z -> (op_end o <= max_int64)%Z ->
  (op_end o - pos <= Z.of_nat (length s))%Z ->
  (0 <= written)%Z ->
  (written + (Offset o - pos) + Z.of_nat (length (Data o)) <= max_int64)%Z ->
  length s < fuel ->
  xCopy_loop fuel (o :: ops') (io.NewBuffer w) (io.NewReader s) pos written =
  xCopy_loop fuel ops'
    (io.NewBuffer (w ++ take (Z.to_nat (Offset o - pos)) s ++ Data o))
    (io.NewReader (drop (Z.to_nat (op_end o - pos)) s))
    (op_end o) (written + (Offset o - pos) + Z.of_nat (length (Data o))).
Proof.
  intros Hpos Hsz Hend Hs Hwr Hmax Hfuel. unfold op_end in *.
  rewrite xCopy_loop_head by (done || lia). cbn zeta.
  set (a := Z.to_nat (Offset o - pos)).
  destruct (Z.eqb_spec (Size o) 0) as [Hz|Hnz]; cbn [negb].
  - rewrite Hz, !Z.add_0_r. done.
  - rewrite CopyN_bytes_discard; rewrite ?length_drop; [|unfold max_int64 in *; lia|lia].
    destruct (Z.leb_spec (Size o) (Z.of_nat (length s - a))) as [_|?]; [|unfold a in *; lia].
    rewrite Nat.min_l by (unfold a; lia).
    rewrite wrap64_id by (unfold max_int64 in *; lia).
    rewrite drop_drop.
    replace (a + Z.to_nat (Size o)) with (Z.to_nat (Offset o + Size o - pos))
      by (unfold a; lia).
    by rewrite Z2Nat.id by lia.
Qed.

Lemma xCopy_loop_patch fuel ops : forall pos s w written,
  (0 <= pos)%Z -> fits pos ops (pos + Z.of_nat (length s)) ->
  (0 <= written)%Z ->
  (written + Z.of_nat (length s) + Z.of_nat (data_len ops) <= max_int64)%Z ->
  length s < fuel ->
  xCopy_loop fuel ops (io.NewBuffer w) (io.NewReader s) pos written =
  Some (io.NewBuffer (w ++ apply_ops pos ops s), io.NewReader [],
        (written + Z.of_nat (length (apply_ops pos ops s)))%Z, None).
Proof.
  induction ops as [|o ops IH]; intros pos s w written Hpos Hfits Hwr Hmax Hfuel.
  - cbn [xCopy_loop apply_ops]. unfold io.Copy.
    rewrite copyBuffer_bytes_buffer; [|rewrite length_replicate; lia|done|done].
    unfold data_len in Hmax. simpl in Hmax. rewrite Z.add_0_l.
    rewrite (wrap64_id (Z.of_nat (length s))) by (unfold max_int64 in *; lia).
    rewrite wrap64_id by (unfold max_int64 in *; lia).
    done.
  - destruct Hfits as (H1 & H2 & H3 & H4).
    pose proof (fits_le _ _ _ H4) as Hle.
    assert (Hdl : data_len (o :: ops) = length (Data o) + data_len ops) by done.
    rewrite xCopy_loop_step; try (done || lia); [|unfold op_end in *; lia].
    rewrite IH.
    + cbn [apply_ops]. rewrite <- !app_assoc, !length_app, length_take.
      do 3 f_equal. unfold op_end in *. lia.
    + unfold op_end in *. lia.
    + rewrite length_drop.
      replace (op_end o + Z.of_nat (length s - Z.to_nat (op_end o - pos)))%Z
        with (pos + Z.of_nat (length s))%Z by (unfold op_end in *; lia).
      done.
    + lia.
    + rewrite length_drop. unfold op_end in *. lia.
    + rewrite length_drop. lia.
Qed.

(** X11.  On valid ops and an in-memory source that holds their ranges,
    [xCopy] and [Copy] write the same bytes and return the same count and no
    error. *)
Theorem xCopy_agrees_with_Copy (ops : FileOps) (input : list byte) (fuel : nat) :
  valid ops -> within ops input ->
  (Z.of_nat (length input + data_len ops) <= max_int64)%Z ->
  length ops + 2 * length input + data_len ops + 1 <= fuel ->
  xcopied fuel ops input = copied fuel ops input /\
  copied fuel ops input
  = Some (apply_ops 0 ops input,
          (Z.of_nat (length input) + Z.of_nat (data_len ops) - size_sum ops)%Z, None).
Proof.
  intros Hv Hw Hmax Hfuel.
  pose proof (valid_fits _ _ Hv Hw) as Hfits.
  pose proof (apply_ops_length 0 ops input _ Hfits) as Hlen.
  assert (Hc : copied fuel ops input
               = Some (apply_ops 0 ops input,
                       (Z.of_nat (length input) + Z.of_nat (data_len ops) - size_sum ops)%Z,
                       None)).
  { rewrite copied_patch by (done || unfold enough; lia).
    rewrite wrap64_id by (unfold max_int64 in *; lia).
    by rewrite (apply_ops_length_exact ops 0). }
  split; [|done]. rewrite Hc.
  unfold xcopied, xCopy. rewrite xCopy_loop_patch; try (done || lia).
  by rewrite Z.add_0_l, (apply_ops_length_exact ops 0).
Qed.

Lemma xCopy_agrees_with_Copy_witness :
  xcopied 20
    [{| Offset := 1; Size := 2; Data := [] |};
     {| Offset := 3; Size := 0; Data := [x75; x76] |};
     {| Offset := 4; Size := 1; Data := [x77] |}] [x41; x42; x43; x44; x45]
  = copied 20
      [{| Offset := 1; Size := 2; Data := [] |};
       {| Offset := 3; Size := 0; Data := [x75; x76] |};
       {| Offset := 4; Size := 1; Data := [x77] |}] [x41; x42; x43; x44; x45] /\
  copied 20
    [{| Offset := 1; Size := 2; Data := [] |};
     {| Offset := 3; Size := 0; Data := [x75; x76] |};
     {| Offset := 4; Size := 1; Data := [x77] |}] [x41; x42; x43; x44; x45]
  = Some ([x41; x75; x76; x44; x77], 5%Z, None).
Proof.
  refine (xCopy_agrees_with_Copy
            [{| Offset := 1; Size := 2; Data := [] |};
             {| Offset := 3; Size := 0; Data := [x75; x76] |};
             {| Offset := 4; Size := 1; Data := [x77] |}]
            [x41; x42; x43; x44; x45] 20 _ _ _ _).
  - ops_facts.
  - ops_facts.
  - unfold data_len, max_int64. simpl. lia.
  - unfold data_len. simpl. lia.
Defined.

Lemma xCopy_loop_short_offset fuel o rest pre : forall pos s w written,
  (0 <= pos)%Z -> fits pos pre (pos + Z.of_nat (length s)) ->
  (pos + Z.of_nat (length s) < Offset o <= max_int64)%Z ->
  (0 <= written)%Z ->
  (written + Z.of_nat (length s) + Z.of_nat (data_len pre) <= max_int64)%Z ->
  length s < fuel ->
  xCopy_loop fuel (pre ++ o :: rest) (io.NewBuffer w) (io.NewReader s) pos written =
  Some (io.NewBuffer (w ++ apply_ops pos pre s), io.NewReader [],
        (written + Z.of_nat (length (apply_ops pos pre s)))%Z,
        Some io.ErrUnexpectedEOF).
Proof.
  induction pre as [|p pre IH]; intros pos s w written Hpos Hfits Hoff Hwr Hmax Hfuel.
  - cbn [app xCopy_loop apply_ops].
    rewrite (wrap64_id (Offset o - pos)) by (unfold max_int64 in *; lia).
    destruct (Z.ltb_spec 0 (Offset o - pos)) as [_|?]; [|lia].
    rewrite CopyN_bytes_buffer by (unfold max_int64 in *; lia).
    destruct (Z.leb_spec (Offset o - pos) (Z.of_nat (length s))) as [?|_]; [lia|].
    cbn [io.error_eqb]. rewrite Nat.min_r by lia.
    rewrite take_ge, drop_ge by lia.
    unfold data_len in Hmax. simpl in Hmax.
    rewrite (wrap64_id (written + _)) by (unfold max_int64 in *; lia).
    done.
  - destruct Hfits as (H1 & H2 & H3 & H4).
    pose proof (fits_le _ _ _ H4) as Hle.
    assert (Hdl : data_len (p :: pre) = length (Data p) + data_len pre) by done.
    cbn [app]. rewrite xCopy_loop_step; try (done || lia); [|unfold op_end in *; lia].
    rewrite IH.
    + cbn [apply_ops]. rewrite <- !app_assoc, !length_app, length_take.
      do 3 f_equal. unfold op_end in *. lia.
    + unfold op_end in *. lia.
    + rewrite length_drop.
      replace (op_end p + Z.of_nat (length s - Z.to_nat (op_end p - pos)))%Z
        with (pos + Z.of_nat (length s))%Z by (unfold op_end in *; lia).
      done.
    + rewrite length_drop. unfold op_end in *. lia.
    + lia.
    + rewrite length_drop. unfold op_end in *. lia.
    + rewrite length_drop. lia.
Qed.

(** X12.  [xCopy] on a source that ends before the offset of an op, the
    ops before it being applied: it returns [io.ErrUnexpectedEOF], with the
    patch by the earlier ops written and counted. *)
Theorem xCopy_source_ends_before_offset (pre : FileOps) (o : FileOp) (rest : FileOps)
    (input : list byte) (fuel : nat) :
  valid pre -> within pre input ->
  (Z.of_nat (length input) < Offset o <= max_int64)%Z ->
  (Z.of_nat (length input + data_len pre) <= max_int64)%Z ->
  length input < fuel ->
  xcopied fuel (pre ++ o :: rest) input
  = Some (apply_ops 0 pre input,
          (Z.of_nat (length input) + Z.of_nat (data_len pre) - size_sum pre)%Z,
          Some io.ErrUnexpectedEOF).
Proof.
  intros Hv Hw Hoff Hmax Hfuel.
  pose proof (valid_fits _ _ Hv Hw) as Hfits.
  unfold xcopied, xCopy.
  rewrite xCopy_loop_short_offset; try (done || lia).
  by rewrite Z.add_0_l, (apply_ops_length_exact pre 0).
Qed.

Lemma xCopy_source_ends_before_offset_witness :
  xcopied 20
    [{| Offset := 1; Size := 1; Data := [x78; x79] |};
     {| Offset := 10; Size := 0; Data := [x7a] |};
     {| Offset := 12; Size := 1; Data := [] |}] [x41; x42; x43]
  = Some ([x41; x78; x79; x43], 4%Z, Some io.ErrUnexpectedEOF).
Proof.
  refine (xCopy_source_ends_before_offset
            [{| Offset := 1; Size := 1; Data := [x78; x79] |}]
            {| Offset := 10; Size := 0; Data := [x7a] |}
            [{| Offset := 12; Size := 1; Data := [] |}] [x41; x42; x43] 20 _ _ _ _ _).
  - ops_facts.
  - ops_facts.
  - unfold max_int64. simpl. lia.
  - unfold data_len, max_int64. simpl. lia.
  - simpl. lia.
Defined.

Lemma xCopy_loop_short_discard fuel o rest pre : forall pos s w written,
  (0 <= pos)%Z -> fits pos pre (pos + Z.of_nat (length s)) ->
  Forall (fun p => (op_end p <= Offset o)%Z) pre ->
  (pos <= Offset o <= pos + Z.of_nat (length s))%Z ->
  (pos + Z.of_nat (length s) < op_end o <= max_int64)%Z ->
  (0 <= written)%Z ->
  (written + Z.of_nat (length s) + Z.of_nat (data_len (pre ++ [o])) <= max_int64)%Z ->
  length s < fuel ->
  xCopy_loop fuel (pre ++ o :: rest) (io.NewBuffer w) (io.NewReader s) pos written =
  Some (io.NewBuffer (w ++ apply_ops pos (pre ++ [o]) s), io.NewReader [],
        (written + Z.of_nat (length (apply_ops pos (pre ++ [o]) s)))%Z,
        Some io.EOF).
Proof.
  induction pre as [|p pre IH];
    intros pos s w written Hpos Hfits Hall Hoff Hend Hwr Hmax Hfuel.
  - cbn [app apply_ops]. unfold data_len in Hmax. simpl in Hmax. unfold op_end in *.
    rewrite xCopy_loop_head by (done || lia). cbn zeta.
    destruct (Z.eqb_spec (Size o) 0) as [?|_]; [lia|]. cbn [negb].
    rewrite CopyN_bytes_discard; rewrite ?length_drop; [|unfold max_int64 in *; lia|lia].
    destruct (Z.leb_spec (Size o) (Z.of_nat (length s - Z.to_nat (Offset o - pos))))
      as [?|_]; [lia|].
    rewrite drop_drop, !drop_ge by lia.
    rewrite !length_app, length_take. simpl. rewrite app_nil_r.
    do 3 f_equal. lia.
  - destruct Hfits as (H1 & H2 & H3 & H4).
    pose proof (fits_le _ _ _ H4) as Hle.
    apply Forall_cons in Hall as [Hp Hall].
    assert (Hdl : data_len ((p :: pre) ++ [o]) = length (Data p) + data_len (pre ++ [o]))
      by done.
    cbn [app]. rewrite xCopy_loop_step; try (done || lia); [|unfold op_end in *; lia].
    rewrite IH.
    + cbn [apply_ops]. rewrite <- !app_assoc, !length_app, length_take.
      do 3 f_equal. unfold op_end in *. lia.
    + unfold op_end in *. lia.
    + rewrite length_drop.
      replace (op_end p + Z.of_nat (length s - Z.to_nat (op_end p - pos)))%Z
        with (pos + Z.of_nat (length s))%Z by (unfold op_end in *; lia).
      done.
    + done.
    + rewrite length_drop. unfold op_end in *. lia.
    + rewrite length_drop. unfold op_end in *. lia.
    + lia.
    + rewrite length_drop. unfold op_end in *. lia.
    + rewrite length_drop. lia.
Qed.

(** X13.  [xCopy] on a source that ends inside the range that an op
    replaces: the data of the op is written, and the error is the plain
    [io.EOF] of [io.CopyN], not [io.ErrUnexpectedEOF]. *)
Theorem xCopy_source_ends_in_discard (pre : FileOps) (o : FileOp) (rest : FileOps)
    (input : list byte) (fuel : nat) :
  valid pre -> within pre input ->
  Forall (fun p => (op_end p <= Offset o)%Z) pre ->
  (0 <= Offset o <= Z.of_nat (length input))%Z ->
  (Z.of_nat (length input) < op_end o <= max_int64)%Z ->
  (Z.of_nat (length input + data_len (pre ++ [o])) <= max_int64)%Z ->
  length input < fuel ->
  xcopied fuel (pre ++ o :: rest) input
  = Some (apply_ops 0 (pre ++ [o]) input,
          Z.of_nat (length (apply_ops 0 (pre ++ [o]) input)), Some io.EOF).
Proof.
  intros Hv Hw Hall Hoff Hend Hmax Hfuel.
  pose proof (valid_fits _ _ Hv Hw) as Hfits.
  unfold xcopied, xCopy.
  rewrite xCopy_loop_short_discard; try (done || lia).
Qed.

Lemma xCopy_source_ends_in_discard_witness :
  xcopied 20
    [{| Offset := 1; Size := 1; Data := [x78; x79] |};
     {| Offset := 2; Size := 5; Data := [x7a] |};
     {| Offset := 9; Size := 0; Data := [x2d] |}] [x41; x42; x43]
  = Some ([x41; x78; x79; x7a], 4%Z, Some io.EOF).
Proof.
  refine (xCopy_source_ends_in_discard
            [{| Offset := 1; Size := 1; Data := [x78; x79] |}]
            {| Offset := 2; Size := 5; Data := [x7a] |}
            [{| Offset := 9; Size := 0; Data := [x2d] |}] [x41; x42; x43] 20 _ _ _ _ _ _ _).
  - ops_facts.
  - ops_facts.
  - repeat constructor. unfold op_end. simpl. lia.
  - simpl. lia.
  - unfold op_end, max_int64. simpl. lia.
  - unfold data_len, max_int64. simpl. lia.
  - simpl. lia.
Defined.

(** ** cmpChunkHeader *)

Lemma cmpChunkHeader_true (p h : list byte) :
  exif.cmpChunkHeader p h = true ->
  length h <= length p /\
  forall k, k < length h -> k <> 2 -> k <> 3 -> p !! k = h !! k.
Proof.
  unfold exif.cmpChunkHeader.
  destruct (Nat.ltb_spec (length p) (length h)) as [Hlt|Hge]; [done|].
  rewrite forallb_forall. intros Hall. split; [done|]. intros k Hk H2 H3.
  specialize (Hall k). rewrite in_seq in Hall. specialize (Hall ltac:(lia)).
  destruct (Nat.eqb_spec k 2); [done|]. destruct (Nat.eqb_spec k 3); [done|].
  simpl in Hall.
  destruct (p !! k) as [a|], (h !! k) as [b|]; try done.
  by apply Byte.byte_dec_bl in Hall as ->.
Qed.

(** X14.  [cmpChunkHeader p h] is true exactly when [p] is at least as long
    as [h] and agrees with [h] at every index below [len h] other than 2 and
    3 (the two bytes of the segment length); what follows the header in [p]
    is not looked at. *)
Theorem cmpChunkHeader_spec (p h : list byte) :
  exif.cmpChunkHeader p h = true <->
  length h <= length p /\
  forall k, k < length h -> k <> 2 -> k <> 3 -> p !! k = h !! k.
Proof.
  split; [apply cmpChunkHeader_true|].
  intros [Hge Hall]. unfold exif.cmpChunkHeader.
  destruct (Nat.ltb_spec (length p) (length h)) as [Hlt|_]; [lia|].
  rewrite forallb_forall. intros k Hk. apply in_seq in Hk.
  destruct (Nat.eqb_spec k 2); [done|]. destruct (Nat.eqb_spec k 3); [done|].
  simpl. rewrite Hall by lia.
  destruct (h !! k) as [b|] eqn:E.
  - by apply Byte.byte_dec_lb.
  - apply lookup_ge_None in E. lia.
Qed.

(** X15.  No chunk matches two of the three header patterns as the package
    initialises them: with the initial patterns the cases of the switch in
    [Copy] exclude each other. *)
Theorem initial_headers_exclude_each_other (c : list byte) :
  exif.cmpChunkHeader c (exif.jfifChunkHeader exif.init) &&
  exif.cmpChunkHeader c (exif.jfxxChunkHeader exif.init) = false /\
  exif.cmpChunkHeader c (exif.jfifChunkHeader exif.init) &&
  exif.cmpChunkHeader c (exif.exifChunkHeader exif.init) = false /\
  exif.cmpChunkHeader c (exif.jfxxChunkHeader exif.init) &&
  exif.cmpChunkHeader c (exif.exifChunkHeader exif.init) = false.
Proof.
  assert (Hx : forall h1 h2 k, k < length h1 -> k < length h2 -> k <> 2 -> k <> 3 ->
            h1 !! k <> h2 !! k ->
            exif.cmpChunkHeader c h1 && exif.cmpChunkHeader c h2 = false).
  { intros h1 h2 k Hk1 Hk2 Hn2 Hn3 Hne.
    destruct (exif.cmpChunkHeader c h1) eqn:H1; [|done].
    destruct (exif.cmpChunkHeader c h2) eqn:H2; [|done].
    apply cmpChunkHeader_true in H1 as [_ H1]. apply cmpChunkHeader_true in H2 as [_ H2].
    exfalso. apply Hne. by rewrite <- H1, <- H2. }
  split; [|split].
  - apply (Hx _ _ 6); simpl; (lia || done).
  - apply (Hx _ _ 1); simpl; (lia || done).
  - apply (Hx _ _ 1); simpl; (lia || done).
Qed.

(** ** What the scan loop of exif.Copy keeps and drops *)

Lemma scan_chunk_cases g l c :
  let '(g', l') := exif.scan_chunk g l c in
  exif.chunks l' = exif.chunks l /\ exif.has l' = S (exif.has l) \/
  exif.chunks l' = exif.chunks l ++ [c] /\ exif.has l' = exif.has l /\ g' = g.
Proof.
  unfold exif.scan_chunk.
  repeat match goal with |- context [if ?b then _ else _] => destruct b end;
    cbn [exif.chunks exif.has]; auto.
Qed.

Lemma scan_consumed j : forall g l,
  exists consumed kept,
    Scanner_chunks j = consumed ++ Scanner_chunks (exif.scan j g l).1.1.1 /\
    exif.chunks (exif.scan j g l).1.2 = exif.chunks l ++ kept /\
    kept `sublist_of` consumed /\
    length consumed + exif.has l = length kept + exif.has (exif.scan j g l).1.2 /\
    (exif.has l <= 3 -> exif.has (exif.scan j g l).1.2 <= 3).
Proof.
  induction j as [e rest|c rest next IH]; intros g l; cbn [exif.scan].
  - exists [], []. destruct (exif.has l <? 3); cbn [fst snd];
      rewrite ?app_nil_r; repeat split; (done || constructor).
  - destruct (Nat.ltb_spec (exif.has l) 3) as [Hlt|Hge].
    2:{ exists [], []. cbn [fst snd]. rewrite ?app_nil_r. repeat split; (done || constructor). }
    destruct c as [e|c].
    { exists [], []. cbn [fst snd Scanner_chunks]. rewrite ?app_nil_r. repeat split; (done || constructor). }
    pose proof (scan_chunk_cases g l c) as Hc.
    destruct (exif.scan_chunk g l c) as [g1 l1].
    destruct (IH g1 l1) as (consumed & kept & Hcons & Hkept & Hsub & Hlen & Hhas).
    cbn [Scanner_chunks].
    destruct Hc as [[Hch Hh]|(Hch & Hh & _)].
    + exists (c :: consumed), kept. rewrite Hcons, Hkept, Hch, Hh in *.
      split; [done|]. split; [done|]. split; [by apply sublist_cons|].
      split; [simpl; lia|]. intros _. apply Hhas. lia.
    + exists (c :: consumed), (c :: kept). rewrite Hcons, Hkept, Hch, Hh in *.
      split; [done|]. split; [by rewrite <- app_assoc|].
      split; [by apply sublist_skip|]. split; [simpl; lia|done].
Qed.

(** X16.  The scan loop of [Copy] reads a prefix of the chunks of the
    stream, keeps the chunks it does not drop in the order of the stream, and
    drops at most three of those it reads ([has] counts them). *)
Theorem scan_drops_at_most_three (j : exif.Scanner) (g : exif.vars) :
  exists consumed,
    Scanner_chunks j = consumed ++ Scanner_chunks (exif.scan j g exif.locals0).1.1.1 /\
    exif.chunks (exif.scan j g exif.locals0).1.2 `sublist_of` consumed /\
    length consumed
    = length (exif.chunks (exif.scan j g exif.locals0).1.2)
      + exif.has (exif.scan j g exif.locals0).1.2 /\
    exif.has (exif.scan j g exif.locals0).1.2 <= 3.
Proof.
  destruct (scan_consumed j g exif.locals0) as (consumed & kept & H1 & H2 & H3 & H4 & H5).
  exists consumed. cbn [exif.locals0 exif.chunks exif.has app] in *.
  rewrite H2. split; [done|]. split; [done|]. split; [lia|]. apply H5. lia.
Qed.

(** ** Where exif.Copy stops before its first write *)

(** X17.  When the scan ends with an error of [ReadChunk] or of the
    scanner, [Copy] returns that error, and when it ends without error but
    with no chunk kept, [Copy] panics at [chunks[0]]; in all three cases the
    destination has not been written to, while the package variables are as
    the scan left them. *)
Theorem Copy_stops_before_first_write {W} `{!io.Writer W}
    (WriteChunk : W -> byte -> list byte -> W * option io.error)
    (fuel : nat) (g : exif.vars) (dst : W) (j : exif.Scanner) (x : option (list byte)) :
  ((exif.scan j g exif.locals0).2 = None ->
   exif.Scanner_Err (exif.scan j g exif.locals0).1.1.1 = None ->
   exif.chunks (exif.scan j g exif.locals0).1.2 = []) ->
  exif.Copy WriteChunk fuel g dst (inr j) (inr <$> x)
  = Some ((exif.scan j g exif.locals0).1.1.2, dst,
          match (exif.scan j g exif.locals0).2,
                exif.Scanner_Err (exif.scan j g exif.locals0).1.1.1 with
          | Some e, _ => exif.Return (Some e)
          | None, Some e => exif.Return (Some e)
          | None, None => exif.Panic
          end).
Proof.
  unfold exif.Copy.
  destruct (exif.scan j g exif.locals0) as [[[j' g'] l] e]. cbn [fst snd].
  intros Hno.
  assert (Hx : forall (T : Type) (a : io.error -> T) (b : T),
            match inr <$> x with Some (inl e0) => a e0 | _ => b end = b).
  { intros. by destruct x. }
  rewrite Hx. clear Hx.
  destruct e as [e|]; [done|]. destruct (exif.Scanner_Err j') as [e|]; [done|].
  by rewrite Hno.
Qed.

Lemma Copy_stops_before_first_write_witness :
  exif.Copy (fun (w : io.bytesBuffer) _ _ => (w, None)) 5 exif.init (io.NewBuffer [x2d])
    (inr (exif.Seg (inr [xff; xe0; x00; x07; x4a; x46; x49; x46; x00]) []
            (exif.Seg (inr [xff; xe1; x00; x08; x45; x78; x69; x66; x00; x00]) []
               (exif.Stop None [xff; xda]))))
    (Some (inr [x01]))
  = Some ({| exif.jfifChunkHeader := [xff; xe0; x00; x07; x4a; x46; x49; x46; x00];
             exif.jfxxChunkHeader := exif.jfxxChunkHeader exif.init;
             exif.exifChunkHeader := exif.exifChunkHeader exif.init |},
          io.NewBuffer [x2d], exif.Panic).
Proof.
  refine (Copy_stops_before_first_write
            (fun (w : io.bytesBuffer) _ _ => (w, None)) 5 exif.init (io.NewBuffer [x2d])
            (exif.Seg (inr [xff; xe0; x00; x07; x4a; x46; x49; x46; x00]) []
               (exif.Seg (inr [xff; xe1; x00; x08; x45; x78; x69; x66; x00; x00]) []
                  (exif.Stop None [xff; xda])))
            (Some [x01]) _).
  intros _ _. vm_compute. reflexivity.
Defined.

(** ** errw *)

(** X18.  [errw.write] does not hold on to an error: after a sequence of
    writes the recorded error is that of the last write alone, and every
    write of the sequence has been made on the writer, failed ones
    included. *)
Theorem errw_keeps_last_error_only {W} `{!io.Writer W} (ww : exif.errw (W:=W))
    (cs : list (list byte)) (c : list byte) :
  exif.err (foldl exif.errw_write ww (cs ++ [c]))
  = (io.Write (exif.w (foldl exif.errw_write ww cs)) c).2 /\
  exif.w (foldl exif.errw_write ww (cs ++ [c]))
  = foldl (fun w p => (io.Write w p).1.1) (exif.w ww) (cs ++ [c]).
Proof.
  assert (Hw : forall cs (ww : exif.errw (W:=W)),
            exif.w (foldl exif.errw_write ww cs)
            = foldl (fun w p => (io.Write w p).1.1) (exif.w ww) cs).
  { clear. intros cs. induction cs as [|c cs IH]; intros ww; [done|].
    cbn [foldl]. rewrite IH. f_equal. unfold exif.errw_write.
    by destruct (io.Write (exif.w ww) c) as [[w' n] e]. }
  split; [|apply Hw].
  rewrite foldl_app. cbn [foldl]. unfold exif.errw_write at 1.
  by destruct (io.Write _ c) as [[w' n] e].
Qed.

(** ** exifFromReader and Decode *)

Lemma exifFromReader_loop_skip g pre : forall segs e,
  Forall (fun s => is_exif g s = false) pre ->
  exif.exifFromReader_loop g (pre ++ segs) e = exif.exifFromReader_loop g segs e.
Proof.
  induction pre as [|s pre IH]; intros segs e Hall; [done|].
  apply Forall_cons in Hall as [Hs Hall]. cbn [app exif.exifFromReader_loop].
  unfold is_exif in Hs. rewrite <- negb_andb, Hs. cbn [negb]. by apply IH.
Qed.

(** X19.  On a stream without an Exif segment [exifFromReader] returns
    [nil, nil] if the scanner ends without error and [nil, ErrExifDecode]
    (whatever the scanner's error was) otherwise; it does not return
    [ErrExifNotFound], and [Decode] then hands a nil slice to
    [DecodeBytes]. *)
Theorem Decode_without_exif_segment {Exif : Type}
    (DecodeBytes : option (list byte) -> option Exif * option exif.error)
    (g : exif.vars) (segs : list exif.segment) (e : option io.error) :
  Forall (fun s => is_exif g s = false) segs ->
  exif.exifFromReader g (inr (segs, e))
  = exif.Returns (None, match e with Some _ => Some exif.ErrExifDecode | None => None end) /\
  exif.Decode DecodeBytes g (inr (segs, e))
  = exif.Returns (match e with
                  | Some _ => (None, Some exif.ErrExifDecode)
                  | None => DecodeBytes None
                  end).
Proof.
  intros Hall.
  assert (H : exif.exifFromReader g (inr (segs, e))
              = exif.Returns (None, match e with
                                    | Some _ => Some exif.ErrExifDecode
                                    | None => None
                                    end)).
  { cbn [exif.exifFromReader]. rewrite <- (app_nil_r segs).
    by rewrite exifFromReader_loop_skip. }
  split; [done|]. unfold exif.Decode. rewrite H. by destruct e.
Qed.

Lemma Decode_without_exif_segment_witness :
  exif.exifFromReader exif.init
    (inr ([{| exif.StartChunk := true; exif.Bytes := [xff; xd8];
              exif.ReadChunk := inr [xff; xd8] |};
           {| exif.StartChunk := false;
              exif.Bytes := [xff; xe1; x00; x08; x45; x78; x69; x66; x00; x00];
              exif.ReadChunk := inr [] |}], None))
  = exif.Returns (None, None) /\
  exif.Decode (fun raw => (raw, Some exif.ErrExifNotFound)) exif.init
    (inr ([{| exif.StartChunk := true; exif.Bytes := [xff; xd8];
              exif.ReadChunk := inr [xff; xd8] |};
           {| exif.StartChunk := false;
              exif.Bytes := [xff; xe1; x00; x08; x45; x78; x69; x66; x00; x00];
              exif.ReadChunk := inr [] |}], None))
  = exif.Returns (None, Some exif.ErrExifNotFound).
Proof.
  refine (Decode_without_exif_segment (fun raw => (raw, Some exif.ErrExifNotFound)) exif.init
            [{| exif.StartChunk := true; exif.Bytes := [xff; xd8];
                exif.ReadChunk := inr [xff; xd8] |};
             {| exif.StartChunk := false;
                exif.Bytes := [xff; xe1; x00; x08; x45; x78; x69; x66; x00; x00];
                exif.ReadChunk := inr [] |}] None _).
  repeat constructor.
Defined.

(** X20.  [exifFromReader] stops at the first segment that starts a chunk
    and matches the Exif header: it returns the error of [ReadChunk], or the
    chunk without its first [len exifChunkHeader] bytes, and panics if the
    chunk is shorter than that; later segments and the scanner's final error
    play no part. *)
Theorem exifFromReader_first_exif_segment (g : exif.vars)
    (pre : list exif.segment) (s : exif.segment) (post : list exif.segment)
    (e : option io.error) :
  Forall (fun s => is_exif g s = false) pre -> is_exif g s = true ->
  exif.exifFromReader g (inr (pre ++ s :: post, e))
  = match exif.ReadChunk s with
    | inl e' => exif.Returns (None, Some (exif.Err e'))
    | inr p =>
      if length p <? length (exif.exifChunkHeader g) then exif.Panics
      else exif.Returns (Some (drop (length (exif.exifChunkHeader g)) p), None)
    end.
Proof.
  intros Hpre Hs. cbn [exif.exifFromReader].
  rewrite exifFromReader_loop_skip by done. cbn [exif.exifFromReader_loop].
  unfold is_exif in Hs. by rewrite <- negb_andb, Hs.
Qed.

Lemma exifFromReader_first_exif_segment_witness :
  exif.exifFromReader exif.init
    (inr ([{| exif.StartChunk := true; exif.Bytes := [xff; xd8];
              exif.ReadChunk := inr [xff; xd8] |};
           {| exif.StartChunk := true;
              exif.Bytes := [xff; xe1; x00; x0a; x45; x78; x69; x66; x00; x00];
              exif.ReadChunk := inr [xff; xe1; x00; x0a; x45; x78; x69; x66; x00; x00;
                                     x4d; x4d] |};
           {| exif.StartChunk := true;
              exif.Bytes := [xff; xe1; x00; x09; x45; x78; x69; x66; x00; x00];
              exif.ReadChunk := inr [xff; xe1; x00; x09; x45; x78; x69; x66; x00; x00;
                                     x49] |}], Some io.ErrUnexpectedEOF))
  = exif.Returns (Some [x4d; x4d], None).
Proof.
  refine (exifFromReader_first_exif_segment exif.init
            [{| exif.StartChunk := true; exif.Bytes := [xff; xd8];
                exif.ReadChunk := inr [xff; xd8] |}]
            {| exif.StartChunk := true;
               exif.Bytes := [xff; xe1; x00; x0a; x45; x78; x69; x66; x00; x00];
               exif.ReadChunk := inr [xff; xe1; x00; x0a; x45; x78; x69; x66; x00; x00;
                                      x4d; x4d] |}
            [{| exif.StartChunk := true;
                exif.Bytes := [xff; xe1; x00; x09; x45; x78; x69; x66; x00; x00];
                exif.ReadChunk := inr [xff; xe1; x00; x09; x45; x78; x69; x66; x00; x00;
                                       x49] |}] (Some io.ErrUnexpectedEOF) _ _).
  - repeat constructor.
  - reflexivity.
Defined.

(** ** Examples *)

(** ["ABCDEFGHIJ"] with ["xyz"] over the three bytes at offset 2. *)
Example overwrite_example :
  copied 20 [{| Offset := 2; Size := 3; Data := [x78; x79; x7a] |}]
    [x41; x42; x43; x44; x45; x46; x47; x48; x49; x4a]
  = Some ([x41; x42; x78; x79; x7a; x46; x47; x48; x49; x4a], 10%Z, None).
Proof. vm_compute. reflexivity. Qed.

(** ["ABCDE"] with ["123"] inserted at offset 2. *)
Example insertion_example :
  copied 20 [{| Offset := 2; Size := 0; Data := [x31; x32; x33] |}]
    [x41; x42; x43; x44; x45]
  = Some ([x41; x42; x31; x32; x33; x43; x44; x45], 8%Z, None).
Proof. vm_compute. reflexivity. Qed.

(** ["ABCDE"] with the two bytes at offset 1 deleted. *)
Example deletion_example :
  copied 20 [{| Offset := 1; Size := 2; Data := [] |}] [x41; x42; x43; x44; x45]
  = Some ([x41; x44; x45], 3%Z, None).
Proof. vm_compute. reflexivity. Qed.

(** The overwrite again, read through a buffer of one byte. *)
Example one_byte_buffer_example :
  drain 20 [x00] [{| Offset := 2; Size := 3; Data := [x78; x79; x7a] |}]
    (io.NewReader [x41; x42; x43; x44; x45; x46; x47; x48; x49; x4a])
  = Some ([x41; x42; x78; x79; x7a; x46; x47; x48; x49; x4a], 10%Z, None).
Proof. vm_compute. reflexivity. Qed.

(** [xCopy] gives the same bytes on ops that fit. *)
Example xCopy_example :
  xcopied 20 [{| Offset := 1; Size := 2; Data := [] |};
              {| Offset := 3; Size := 0; Data := [x75; x76] |};
              {| Offset := 4; Size := 1; Data := [x77] |}] [x41; x42; x43; x44; x45]
  = copied 20 [{| Offset := 1; Size := 2; Data := [] |};
               {| Offset := 3; Size := 0; Data := [x75; x76] |};
               {| Offset := 4; Size := 1; Data := [x77] |}] [x41; x42; x43; x44; x45].
Proof. vm_compute. reflexivity. Qed.

(** A source that hands over its last bytes together with [EOF], which the
    contract of [io.Reader] allows.  [Source] leaves such readers out: an op
    at the very end of the stream is lost on them. *)
Example eof_with_data_example :
  drain 20 (replicate 8 x00) [{| Offset := 3; Size := 0; Data := [x78] |}]
    (io.DataErrReader [x41; x42; x43])
  = Some ([x41; x42; x43], 3%Z, None) /\
  drain 20 (replicate 8 x00) [{| Offset := 3; Size := 0; Data := [x78] |}]
    (io.NewReader [x41; x42; x43])
  = Some ([x41; x42; x43; x78], 4%Z, None).
Proof. split; vm_compute; reflexivity. Qed.

(** Two calls of [exif.Copy] in one process.  The first stream has a JFIF
    chunk of 18 bytes, which the call leaves in [jfifChunkHeader].  The
    second stream has a JFIF chunk of 9 bytes: shorter than the variable now
    is, it is no longer recognised and is written out with the other
    chunks, where a first call would have dropped it. *)
Example second_Copy_example :
  let WriteChunk := fun (w : io.bytesBuffer) (_ : byte) (_ : list byte) => (w, None) in
  let first :=
    exif.Seg (inr [xff; xd8]) []
      (exif.Seg (inr [xff; xe0; x00; x10; x4a; x46; x49; x46; x00;
                      x01; x01; x00; x00; x01; x00; x01; x00; x00]) []
        (exif.Stop None [xff; xda])) in
  let second :=
    exif.Seg (inr [xff; xd8]) []
      (exif.Seg (inr [xff; xe0; x00; x07; x4a; x46; x49; x46; x00]) []
        (exif.Stop None [xff; xda])) in
  (let? (g, _, _) := exif.Copy WriteChunk 5 exif.init (io.NewBuffer []) (inr first) None in
   let? (_, w, out) := exif.Copy WriteChunk 5 g (io.NewBuffer []) (inr second) None in
   Some (io.contents w, out))
  = Some ([xff; xd8; xff; xe0; x00; x07; x4a; x46; x49; x46; x00; xff; xda],
          exif.Return None) /\
  (let? (_, w, out) :=
     exif.Copy WriteChunk 5 exif.init (io.NewBuffer []) (inr second) None in
   Some (io.contents w, out))
  = Some ([xff; xd8; xff; xda], exif.Return None).
Proof. split; vm_compute; reflexivity. Qed.

(** A stream in which every chunk is one of the three headers: the chunk
    list is empty and [chunks[0]] panics before anything is written. *)
Example Copy_panic_example :
  exif.Copy (fun (w : io.bytesBuffer) _ _ => (w, None)) 5 exif.init (io.NewBuffer [])
    (inr (exif.Seg (inr [xff; xe0; x00; x07; x4a; x46; x49; x46; x00]) []
            (exif.Stop None [])))
    None
  = Some ({| exif.jfifChunkHeader := [xff; xe0; x00; x07; x4a; x46; x49; x46; x00];
             exif.jfxxChunkHeader := exif.jfxxChunkHeader exif.init;
             exif.exifChunkHeader := exif.exifChunkHeader exif.init |},
          io.NewBuffer [], exif.Panic).
Proof. vm_compute. reflexivity. Qed.
